(** * Blue-carbon calculator: sequestration estimates and anomaly scoring

    A shallow embedding of [utils/carbonCalculator.ts] and of the reference
    data of [config/constants.ts].  A TypeScript [number] is an IEEE-754
    binary64 value; it is modelled by Rocq's primitive [float], whose
    operations are the same correctly rounded binary64 operations.  The
    specification of those operations ([Prim2SF], [SF64mul], ...) is the
    one of the Standard Library. *)

From Stdlib Require Import ZArith List String Bool Lia Lra Reals Floats Psatz.
Import ListNotations.

Set Warnings "-inexact-float".

Local Open Scope float_scope.

(** ** JavaScript numbers *)

(** [Math.round] of ECMAScript (sec. 21.3.2.28): a value that is not
    finite or already integral is returned as it is; otherwise the result
    is the integral number closest to the argument, the one closer to
    [+infinity] on a tie, which is [floor (x + 1/2)] computed exactly.  The
    sign of a zero result is the sign of the argument. *)
Definition SFround (x : spec_float) : spec_float :=
  match x with
  | S754_finite s m e =>
      if (0 <=? e)%Z then x
      else
        let n := ((2 * cond_Zopp s (Zpos m) + 2 ^ (- e)) / 2 ^ (1 - e))%Z in
        binary_normalize prec emax n 0 s
  | _ => x
  end.

(** [Math.floor] of ECMAScript (sec. 21.3.2.16): a value that is not
    finite or already integral is returned as it is; otherwise the result
    is the greatest integral number that is not above the argument.  A
    positive argument below 1 gives [+0]. *)
Definition SFfloor (x : spec_float) : spec_float :=
  match x with
  | S754_finite s m e =>
      if (0 <=? e)%Z then x
      else binary_normalize prec emax (cond_Zopp s (Zpos m) / 2 ^ (- e))%Z 0 s
  | _ => x
  end.

Module Math.
Definition round (x : float) : float := SF2Prim (SFround (Prim2SF x)).
Definition abs (x : float) : float := PrimFloat.abs x.
Definition floor (x : float) : float := SF2Prim (SFfloor (Prim2SF x)).
End Math.

(** Indexing of a JavaScript array: [a[i]] is [undefined] out of range, also
    for a negative index. *)
Definition js_index {A : Type} (a : list A) (i : Z) : option A :=
  if (i <? 0)%Z then None else nth_error a (Z.to_nat i).

(** ** Reference data ([config/constants.ts]) *)

Inductive EcosystemType := mangrove | seagrass | salt_marsh | kelp_forest.

Definition SEQUESTRATION_FACTORS (e : EcosystemType) : float :=
  match e with
  | mangrove => 10.15
  | seagrass => 8.7
  | salt_marsh => 6.8
  | kelp_forest => 12.3
  end.

Record Buffers := {
  uncertainty : float;
  mortality : float;
  verification : float;
}.

Definition DEFAULT_BUFFERS : Buffers :=
  {| uncertainty := 10; mortality := 15; verification := 5 |}.

Module IMPACT_EQUIVALENCES.
Definition cars_removed_per_year : float := 0.45.
Definition homes_powered_per_year : float := 0.12.
Definition trees_planted : float := 16.
End IMPACT_EQUIVALENCES.

(** ** Data model ([types/index.ts] and the parameter interfaces) *)

Record Equivalences := {
  cars_removed : float;
  homes_powered : float;
  trees_planted : float;
}.

Record CalculationResult := {
  annual_absorption : float;
  cumulative_absorption : float;
  equivalences : Equivalences;
  policy_area_needed : option float;
}.

(** Optional fields ([years?], [buffers?]) are [option]s: [None] is the
    field left out, which the destructuring replaces by its default. *)
Module CalculationParams.
Record t := {
  area_m2 : float;
  ecosystem_type : EcosystemType;
  years : option float;
  buffers : option Buffers;
}.
End CalculationParams.

Module PolicyCalculationParams.
Record t := {
  target_co2_reduction : float;
  ecosystem_type : EcosystemType;
  years : option float;
  buffers : option Buffers;
}.
End PolicyCalculationParams.

Definition default {A : Type} (o : option A) (d : A) : A :=
  match o with Some a => a | None => d end.

(** ** The calculator *)

Definition calculateCarbonSequestration (params : CalculationParams.t)
  : CalculationResult :=
  let area_m2 := CalculationParams.area_m2 params in
  let ecosystem_type := CalculationParams.ecosystem_type params in
  let years := default (CalculationParams.years params) 20 in
  let buffers := default (CalculationParams.buffers params) DEFAULT_BUFFERS in
  let area_hectares := area_m2 / 10000 in
  let base_sequestration := SEQUESTRATION_FACTORS ecosystem_type in
  let gross_annual_absorption := area_hectares * base_sequestration in
  let total_buffer_percentage :=
    uncertainty buffers + mortality buffers + verification buffers in
  let buffer_factor := (100 - total_buffer_percentage) / 100 in
  let annual_absorption := gross_annual_absorption * buffer_factor in
  let cumulative_absorption := annual_absorption * years in
  let equivalences :=
    {| cars_removed :=
         Math.round (annual_absorption * IMPACT_EQUIVALENCES.cars_removed_per_year);
       homes_powered :=
         Math.round (annual_absorption * IMPACT_EQUIVALENCES.homes_powered_per_year);
       trees_planted :=
         Math.round (cumulative_absorption * IMPACT_EQUIVALENCES.trees_planted) |} in
  {| annual_absorption := Math.round (annual_absorption * 100) / 100;
     cumulative_absorption := Math.round (cumulative_absorption * 100) / 100;
     equivalences := equivalences;
     policy_area_needed := None |}.

Definition calculateRequiredArea (params : PolicyCalculationParams.t)
  : CalculationResult :=
  let target_co2_reduction := PolicyCalculationParams.target_co2_reduction params in
  let ecosystem_type := PolicyCalculationParams.ecosystem_type params in
  let years := default (PolicyCalculationParams.years params) 20 in
  let buffers := default (PolicyCalculationParams.buffers params) DEFAULT_BUFFERS in
  let base_sequestration := SEQUESTRATION_FACTORS ecosystem_type in
  let total_buffer_percentage :=
    uncertainty buffers + mortality buffers + verification buffers in
  let buffer_factor := (100 - total_buffer_percentage) / 100 in
  let effective_sequestration := base_sequestration * buffer_factor in
  let required_hectares := target_co2_reduction / (effective_sequestration * years) in
  let required_m2 := required_hectares * 10000 in
  let equivalences :=
    {| cars_removed :=
         Math.round (target_co2_reduction * IMPACT_EQUIVALENCES.cars_removed_per_year / years);
       homes_powered :=
         Math.round (target_co2_reduction * IMPACT_EQUIVALENCES.homes_powered_per_year / years);
       trees_planted :=
         Math.round (target_co2_reduction * IMPACT_EQUIVALENCES.trees_planted) |} in
  {| annual_absorption := Math.round ((target_co2_reduction / years) * 100) / 100;
     cumulative_absorption := Math.round (target_co2_reduction * 100) / 100;
     equivalences := equivalences;
     policy_area_needed := Some (Math.round required_m2) |}.

(** ** The anomaly detector *)

Record CarbonCalculations := {
  annual_co2_absorption : float;
}.

(** The fields of a project that [detectAnomalies] reads. *)
Module Project.
Record t := {
  area_m2 : float;
  ecosystem_type : EcosystemType;
  carbon_calculations : CarbonCalculations;
}.
End Project.

Record AnomalyReport := {
  is_suspicious : bool;
  flags : list string;
  credibility_impact : float;
}.

Definition FLAG_GROWTH : string := "Unrealistic area expansion detected".
Definition FLAG_THEORETICAL_MAX : string :=
  "Carbon sequestration estimates exceed theoretical maximum".
Definition FLAG_SMALL_AREA : string :=
  "Project area unusually small for ecosystem restoration".

(** The accumulators [flags] and [credibility_impact] of the source are
    threaded through the three checks as a pair. *)
Definition detectAnomalies (project : Project.t) (historical_data : list Project.t)
  : AnomalyReport :=
  let st : list string * float := ([], 0) in
  let st :=
    if (0 <? Z.of_nat (List.length historical_data))%Z then
      let latest := js_index historical_data (Z.of_nat (List.length historical_data) - 1) in
      let previous := js_index historical_data (Z.of_nat (List.length historical_data) - 2) in
      match previous, latest with
      | Some previous, Some latest =>
          let growth_rate :=
            (Project.area_m2 latest - Project.area_m2 previous) / Project.area_m2 previous in
          if 1.0 <? growth_rate
          then (fst st ++ [FLAG_GROWTH], snd st + 25)
          else st
      | _, _ => st (* [previous] is [undefined]: the check is skipped *)
      end
    else st in
  let theoretical_max := SEQUESTRATION_FACTORS (Project.ecosystem_type project) * 1.5 in
  let st :=
    if theoretical_max * (Project.area_m2 project / 10000)
         <? annual_co2_absorption (Project.carbon_calculations project)
    then (fst st ++ [FLAG_THEORETICAL_MAX], snd st + 30)
    else st in
  let st :=
    if Project.area_m2 project <? 1000
    then (fst st ++ [FLAG_SMALL_AREA], snd st + 10)
    else st in
  {| is_suspicious := (0 <? Z.of_nat (List.length (fst st)))%Z;
     flags := fst st;
     credibility_impact := snd st |}.

(** ** Vocabulary of the statements *)

(** The two functions contain no [throw] and call nothing that can throw
    on an argument of their parameter type: a call always completes
    normally.  [Completion] makes that outcome explicit, so that a
    statement can speak of a call that fails. *)
Inductive ErrorKind := InvalidInput.

Inductive Completion (A : Type) :=
| Returns (a : A)
| Throws (e : ErrorKind).
Arguments Returns {A} a.
Arguments Throws {A} e.

Definition call_calculateCarbonSequestration (params : CalculationParams.t)
  : Completion CalculationResult :=
  Returns (calculateCarbonSequestration params).

Definition call_calculateRequiredArea (params : PolicyCalculationParams.t)
  : Completion CalculationResult :=
  Returns (calculateRequiredArea params).

(** Rounding to two decimals, as the spec's data model words it. *)
Definition round2 (x : float) : float := Math.round (x * 100) / 100.

(** The sum of the three buffer percentages, as both modes compute it. *)
Definition buffer_sum (b : Buffers) : float :=
  uncertainty b + mortality b + verification b.

(** The conversion of an integer to the nearest binary64 number. *)
Definition Z2F (z : Z) : float := SF2Prim (binary_normalize prec emax z 0 false).

Definition forward_input (area : float) (e : EcosystemType) (y : float) (b : Buffers)
  : CalculationParams.t :=
  {| CalculationParams.area_m2 := area;
     CalculationParams.ecosystem_type := e;
     CalculationParams.years := Some y;
     CalculationParams.buffers := Some b |}.

Definition policy_input (target : float) (e : EcosystemType) (y : float) (b : Buffers)
  : PolicyCalculationParams.t :=
  {| PolicyCalculationParams.target_co2_reduction := target;
     PolicyCalculationParams.ecosystem_type := e;
     PolicyCalculationParams.years := Some y;
     PolicyCalculationParams.buffers := Some b |}.

Definition snapshot (area : float) (e : EcosystemType) (annual : float) : Project.t :=
  {| Project.area_m2 := area;
     Project.ecosystem_type := e;
     Project.carbon_calculations := {| annual_co2_absorption := annual |} |}.

(** A flag has fired when the report lists it. *)
Definition fired (flag : string) (r : AnomalyReport) : bool :=
  existsb (String.eqb flag) (flags r).

(** The growth-rate rule as the spec words it: the history ends with two
    snapshots [previous; latest] whose relative growth exceeds 1.0. *)
Definition growth_rule_holds (historical_data : list Project.t) : Prop :=
  exists older previous latest,
    historical_data = older ++ [previous; latest] /\
    (1.0 <? (Project.area_m2 latest - Project.area_m2 previous)
            / Project.area_m2 previous) = true.

(** The state of the accumulators after the growth-rate check. *)
Definition growth_stage (historical_data : list Project.t) : list string * float :=
  match js_index historical_data (Z.of_nat (List.length historical_data) - 2),
        js_index historical_data (Z.of_nat (List.length historical_data) - 1) with
  | Some previous, Some latest =>
      if 1.0 <? (Project.area_m2 latest - Project.area_m2 previous)
                / Project.area_m2 previous
      then ([FLAG_GROWTH], 0 + 25)
      else ([], 0)
  | _, _ => ([], 0)
  end.

(** The theoretical-maximum and minimum-area checks and the final report,
    from the accumulators the growth-rate check leaves. *)
Definition later_checks (project : Project.t) (st : list string * float)
  : AnomalyReport :=
  let theoretical_max := SEQUESTRATION_FACTORS (Project.ecosystem_type project) * 1.5 in
  let st :=
    if theoretical_max * (Project.area_m2 project / 10000)
         <? annual_co2_absorption (Project.carbon_calculations project)
    then (fst st ++ [FLAG_THEORETICAL_MAX], snd st + 30)
    else st in
  let st :=
    if Project.area_m2 project <? 1000
    then (fst st ++ [FLAG_SMALL_AREA], snd st + 10)
    else st in
  {| is_suspicious := (0 <? Z.of_nat (List.length (fst st)))%Z;
     flags := fst st;
     credibility_impact := snd st |}.

(** ** The pages that call the calculator and the detector *)



Module CarbonCalculator.



End CarbonCalculator.

(** [components/Verification/VerificationDashboard.tsx]: the dashboard
    runs the detector on each pending project with an empty history. *)
Module VerificationDashboard.
Definition anomalies (project : Project.t) : AnomalyReport :=
  detectAnomalies project [].
End VerificationDashboard.

(** [components/Projects/ProjectForm.tsx]: the list of stakeholders of the
    registration form and the three handlers that edit it.  Each handler
    passes [setFormData] a function of the previous form data that
    replaces its [stakeholders] field; these are the replacements. *)

(** [a.map((x, i) => f(x, i))] and [a.filter((x, i) => p(x, i))]: the
    callback also gets the index of the element. *)
Fixpoint js_map_from {A B : Type} (i : nat) (f : A -> nat -> B) (a : list A) : list B :=
  match a with
  | [] => []
  | x :: a' => f x i :: js_map_from (S i) f a'
  end.

Definition js_map {A B : Type} (f : A -> nat -> B) (a : list A) : list B :=
  js_map_from 0 f a.

Fixpoint js_filter_from {A : Type} (i : nat) (p : A -> nat -> bool) (a : list A) : list A :=
  match a with
  | [] => []
  | x :: a' => if p x i then x :: js_filter_from (S i) p a' else js_filter_from (S i) p a'
  end.

Definition js_filter {A : Type} (p : A -> nat -> bool) (a : list A) : list A :=
  js_filter_from 0 p a.

Module ProjectForm.
Record Stakeholder := {
  name : string;
  role : string;
  organization : string;
}.

(** The keys that the form passes as [field]. *)
Inductive StakeholderField := name_field | role_field | organization_field.

(** [{ ...stakeholder, [field]: value }] *)
Definition set_field (stakeholder : Stakeholder) (field : StakeholderField)
    (value : string) : Stakeholder :=
  match field with
  | name_field =>
      {| name := value; role := role stakeholder;
         organization := organization stakeholder |}
  | role_field =>
      {| name := name stakeholder; role := value;
         organization := organization stakeholder |}
  | organization_field =>
      {| name := name stakeholder; role := role stakeholder;
         organization := value |}
  end.

Definition blank : Stakeholder :=
  {| name := EmptyString; role := EmptyString; organization := EmptyString |}.

(** The form starts with one blank stakeholder. *)
Definition initial_stakeholders : list Stakeholder := [blank].

Definition addStakeholder (stakeholders : list Stakeholder) : list Stakeholder :=
  stakeholders ++ [blank].

Definition updateStakeholder (index : nat) (field : StakeholderField) (value : string)
    (stakeholders : list Stakeholder) : list Stakeholder :=
  js_map (fun stakeholder i =>
            if Nat.eqb i index then set_field stakeholder field value
            else stakeholder)
         stakeholders.

Definition removeStakeholder (index : nat) (stakeholders : list Stakeholder)
  : list Stakeholder :=
  js_filter (fun _ i => negb (Nat.eqb i index)) stakeholders.

(** What the user can do to the list: the form renders one row of inputs
    for each stakeholder, a Remove button on every row but the first
    ([index > 0]) and one Add button. *)
Inductive edit : list Stakeholder -> list Stakeholder -> Prop :=
| edit_add stakeholders :
    edit stakeholders (addStakeholder stakeholders)
| edit_update stakeholders index field value :
    (index < List.length stakeholders)%nat ->
    edit stakeholders (updateStakeholder index field value stakeholders)
| edit_remove stakeholders index :
    (0 < index)%nat -> (index < List.length stakeholders)%nat ->
    edit stakeholders (removeStakeholder index stakeholders).

(** The lists that a sequence of edits can reach from the initial one. *)
Inductive reachable : list Stakeholder -> Prop :=
| reachable_initial : reachable initial_stakeholders
| reachable_edit stakeholders stakeholders' :
    reachable stakeholders -> edit stakeholders stakeholders' ->
    reachable stakeholders'.
End ProjectForm.

(** [components/Dashboard/Dashboard.tsx]: the statistics that
    [loadDashboardData] computes from the projects it has loaded. *)
Module Dashboard.
Inductive Status := pending | under_review | approved | rejected.

Definition Status_eqb (a b : Status) : bool :=
  match a, b with
  | pending, pending | under_review, under_review
  | approved, approved | rejected, rejected => true
  | _, _ => false
  end.

(** The fields of a project that the statistics read.  [None] is a figure
    that is not there: [p.carbon_calculations?.cumulative_co2_absorption]
    is [undefined]. *)
Record Project := {
  status : Status;
  cumulative_co2_absorption : option float;
}.

(** [x || 0]: zero, NaN and [undefined] are falsy. *)
Definition or_zero (x : option float) : float :=
  match x with
  | Some v => if (is_nan v || (v =? 0))%bool then 0 else v
  | None => 0
  end.

Record Stats := {
  total_projects : nat;
  approved_projects : nat;
  pending_projects : nat;
  total_co2_absorbed : float;
}.

Definition stats (projectsData : list Project) : Stats :=
  let total := List.length projectsData in
  let approved_count :=
    List.length (filter (fun p => Status_eqb (status p) approved) projectsData) in
  let pending_count :=
    List.length (filter (fun p => Status_eqb (status p) pending) projectsData) in
  let totalCO2 :=
    fold_left (fun sum p => sum + or_zero (cumulative_co2_absorption p))
      (filter (fun p => Status_eqb (status p) approved) projectsData) 0 in
  {| total_projects := total;
     approved_projects := approved_count;
     pending_projects := pending_count;
     total_co2_absorbed := totalCO2 |}.
End Dashboard.

(** [utils/blockchain.ts] and [components/Map/InteractiveMap.tsx]: the two
    numbers that the mock service and the map draw with [Math.random].
    The random number is a parameter: [Math.random] returns a number that
    is at least 0 and below 1. *)
Module MockBlockchainService.
(** The block number that [logEvent] returns. *)
Definition block_number (random : float) : float :=
  Math.floor (random * 1000000) + 5000000.
End MockBlockchainService.

Module InteractiveMap.

End InteractiveMap.

(** ** Vocabulary of the binary64 theory *)

Local Open Scope R_scope.

Definition pow2 (e : Z) : R :=
  if (0 <=? e)%Z then IZR (2 ^ e) else / IZR (2 ^ (- e)).

Definition located (y : R) (m : Z) (l : location) : Prop :=
  match l with
  | loc_Exact => y = IZR m
  | loc_Inexact Lt => IZR m < y < IZR m + / 2
  | loc_Inexact Eq => y = IZR m + / 2
  | loc_Inexact Gt => IZR m + / 2 < y < IZR m + 1
  end.

Definition shr_ok (y : R) (mrs : shr_record) : Prop :=
  (0 <= shr_m mrs)%Z /\ located y (shr_m mrs) (loc_of_shr_record mrs).

(** [z] is the integer nearest to [y], the even one when [y] is half-way. *)
Definition is_rne (y : R) (z : Z) : Prop :=
  IZR z - / 2 <= y <= IZR z + / 2 /\
  (y = IZR z - / 2 \/ y = IZR z + / 2 -> Z.even z = true).

Definition fexp64 (g : Z) : Z := Z.max (g - 53) (-1074).

(** [g] is the magnitude of [x]: [2^(g-1) <= x < 2^g]. *)
Definition is_mag (x : R) (g : Z) : Prop := pow2 (g - 1) <= x < pow2 g.

(** [r] is the binary64 rounding (to nearest, ties to even, with an
    unbounded exponent range above) of the positive real [x]. *)
Definition rounds_pos (x r : R) : Prop :=
  exists g z,
    is_mag x g /\ is_rne (x / pow2 (fexp64 g)) z /\ r = IZR z * pow2 (fexp64 g).

Definition rounds (x r : R) : Prop :=
  (x = 0 /\ r = 0) \/
  (0 < x /\ rounds_pos x r) \/
  (x < 0 /\ rounds_pos (- x) (- r)).

(** What an operation returns for a rounded magnitude [r] and a sign [s]. *)
Definition SF_result (s : bool) (r : R) (f : spec_float) : Prop :=
  (r = 0 /\ f = S754_zero s) \/
  (0 < r < pow2 1024 /\
   exists m e, f = S754_finite s m e /\ bounded prec emax m e = true /\
               r = IZR (Zpos m) * pow2 e) \/
  (pow2 1024 <= r /\ f = S754_infinity s).

Definition signed (s : bool) (r : R) : R := if s then - r else r.

(** The value of a finite number; 0 for the others. *)
Definition B2R (f : spec_float) : R :=
  match f with
  | S754_finite s m e => signed s (IZR (Zpos m) * pow2 e)
  | _ => 0
  end.

(** The place of a number in the order: the infinities sit at [+-2^1024]. *)
Definition SFval (f : spec_float) : R :=
  match f with
  | S754_infinity s => signed s (pow2 1024)
  | _ => B2R f
  end.

Definition SFnan (f : spec_float) : Prop := f = S754_nan.

Definition clamp (r : R) : R := Rmax (- pow2 1024) (Rmin r (pow2 1024)).

Definition Rcmp (a b : R) (c : comparison) : Prop :=
  match c with Lt => a < b | Eq => a = b | Gt => b < a end.

(** [x] and [y] are numbers (not NaN) and [x <= y]. *)
Definition SFle (x y : spec_float) : Prop :=
  x <> S754_nan /\ y <> S754_nan /\ SFval x <= SFval y.

(** [y < x] does not hold: one of them is NaN, or [x <= y]. *)
Definition SFwle (x y : spec_float) : Prop :=
  x = S754_nan \/ y = S754_nan \/ SFval x <= SFval y.

Definition SFfinite (f : spec_float) : bool :=
  match f with
  | S754_finite _ _ _ | S754_zero _ => true
  | _ => false
  end.

(** [f] is the number an operation returns when its exact result rounds to
    [r]: [r] itself while it is below [2^1024] in magnitude, an infinity
    otherwise. *)
Definition op_result (r : R) (f : spec_float) : Prop :=
  valid_binary f = true /\ f <> S754_nan /\ SFval f = clamp r /\
  (Rabs r < pow2 1024 -> SFfinite f = true /\ B2R f = r).

(** A finite positive number. *)
Definition SFpositive (c : spec_float) : Prop :=
  exists m e, c = S754_finite false m e.

Definition is_floor (y : R) (n : Z) : Prop := IZR n <= y < IZR n + 1.

(** [r] is [v] rounded to an integer as [Math.round] does. *)
Definition js_rounds (v r : R) : Prop :=
  exists n, is_floor (v + / 2) n /\ r = IZR n.

Local Open Scope float_scope.

(** [x <= y] holds (neither is NaN). *)
Definition fle (x y : float) : Prop := (x <=? y) = true.

(** [y < x] does not hold: [x <= y], or one of the two is NaN. *)
Definition fwle (x y : float) : Prop := (y <? x) = false.

(** A finite number greater than zero. *)
Definition fpositive (c : float) : Prop := SFpositive (Prim2SF c).

Definition ffinite (c : float) : Prop := SFfinite (Prim2SF c) = true.

(** The real number a finite float stands for. *)
Definition F2R (x : float) : R := B2R (Prim2SF x).

Definition buffer_factor (b : Buffers) : float := (100 - buffer_sum b) / 100.

(** The annual absorption before it is rounded to two decimals. *)
Definition net_annual (area : float) (e : EcosystemType) (b : Buffers) : float :=
  area / 10000 * SEQUESTRATION_FACTORS e * buffer_factor b.

Definition with_area (p : CalculationParams.t) (area : float) : CalculationParams.t :=
  {| CalculationParams.area_m2 := area;
     CalculationParams.ecosystem_type := CalculationParams.ecosystem_type p;
     CalculationParams.years := CalculationParams.years p;
     CalculationParams.buffers := CalculationParams.buffers p |}.

Definition with_buffers (p : CalculationParams.t) (b : Buffers) : CalculationParams.t :=
  {| CalculationParams.area_m2 := CalculationParams.area_m2 p;
     CalculationParams.ecosystem_type := CalculationParams.ecosystem_type p;
     CalculationParams.years := CalculationParams.years p;
     CalculationParams.buffers := Some b |}.

(** [b'] is [b] with one of the three percentages raised. *)
Definition one_buffer_raised (b b' : Buffers) : Prop :=
  (fle (uncertainty b) (uncertainty b') /\
   mortality b' = mortality b /\ verification b' = verification b) \/
  (uncertainty b' = uncertainty b /\
   fle (mortality b) (mortality b') /\ verification b' = verification b) \/
  (uncertainty b' = uncertainty b /\ mortality b' = mortality b /\
   fle (verification b) (verification b')).

Local Open Scope R_scope.

(** The unit roundoff of binary64 and half the smallest subnormal. *)
Definition u64 : R := pow2 (-53).

Definition eta64 : R := pow2 (-1075).

(** [xh] is [x] after [n] roundings, none of them in the subnormal range. *)
Definition approx (n : nat) (xh x : R) : Prop :=
  x * (1 - u64) ^ n <= xh <= x * (1 + u64) ^ n.

(** The area that policy mode returns for the cumulative absorption that
    forward mode returns. *)
Definition round_trip (area : float) (e : EcosystemType) (years : float)
    (b : Buffers) : float :=
  let target :=
    cumulative_absorption
      (calculateCarbonSequestration (forward_input area e years b)) in
  default (policy_area_needed
             (calculateRequiredArea (policy_input target e years b))) nan.

(** The inputs for which no operation overflows or underflows: an area
    from 1 m2 to 10^12 m2, a horizon from 1 to 1000 years, buffers that sum
    to a percentage from 0 to 99. *)
Definition moderate_input (area years : float) (b : Buffers) : Prop :=
  fle 1%float area /\ fle area 1000000000000%float /\
  fle 1%float years /\ fle years 1000%float /\
  fle 0%float (buffer_sum b) /\ fle (buffer_sum b) 99%float.

(** The sign bit of [f] is clear: [f] is [+0], a positive number or
    [+infinity]; NaN, which has no sign, counts too. *)
Definition SFplus (f : spec_float) : Prop :=
  match f with
  | S754_nan => True
  | S754_zero s | S754_infinity s | S754_finite s _ _ => s = false
  end.

Definition fplus (x : float) : Prop := SFplus (Prim2SF x).

Local Open Scope float_scope.

(** The denominator of the required area: the absorption of one hectare
    over the horizon, after buffers. *)
Definition horizon_yield (e : EcosystemType) (years : float) (b : Buffers) : float :=
  SEQUESTRATION_FACTORS e * buffer_factor b * years.

(** The required area before it is rounded to a whole number of m2. *)
Definition required_m2 (target : float) (e : EcosystemType) (years : float)
    (b : Buffers) : float :=
  target / horizon_yield e years b * 10000.

(** The growth rate the detector computes from two areas. *)
Definition growth_rate (previous latest : float) : float :=
  (latest - previous) / previous.

(** The report for a project that no rule flags. *)
Definition clean_report : AnomalyReport :=
  {| is_suspicious := false; flags := []; credibility_impact := 0 |}.

(** The list of the three flags, in the order of the checks. *)
Definition ALL_FLAGS : list string :=
  [FLAG_GROWTH; FLAG_THEORETICAL_MAX; FLAG_SMALL_AREA].

(** The figures of a result that count things: the three equivalences
    and, in policy mode, the required area in m2. *)
Definition count_fields (r : CalculationResult) : list float :=
  [cars_removed (equivalences r); homes_powered (equivalences r);
   trees_planted (equivalences r)]
  ++ match policy_area_needed r with Some a => [a] | None => [] end.

(** No figure of the result is below zero. *)
Definition not_negative (r : CalculationResult) : Prop :=
  (annual_absorption r <? 0) = false /\
  (cumulative_absorption r <? 0) = false /\
  forall v, In v (count_fields r) -> (v <? 0) = false.


(** The figure of a project is missing, NaN or not negative. *)
Definition figure_not_negative (p : Dashboard.Project) : Prop :=
  match Dashboard.cumulative_co2_absorption p with
  | Some v => is_nan v = true \/ (0 <=? v) = true
  | None => True
  end.

Local Open Scope R_scope.

(** The cumulative absorption that forward mode returns for the area that
    policy mode returns. *)
Definition policy_then_forward (target : float) (e : EcosystemType)
    (years : float) (b : Buffers) : float :=
  let area :=
    default (policy_area_needed
               (calculateRequiredArea (policy_input target e years b))) nan in
  cumulative_absorption
    (calculateCarbonSequestration (forward_input area e years b)).

(** The targets for which no operation overflows or underflows and the
    required area is at least 1 m2: a target from 2 t to 10^9 t, a horizon
    from 1 to 1000 years, buffers that sum to a percentage from 0 to 99. *)
Definition moderate_target (target years : float) (b : Buffers) : Prop :=
  fle 2%float target /\ fle target 1000000000%float /\
  fle 1%float years /\ fle years 1000%float /\
  fle 0%float (buffer_sum b) /\ fle (buffer_sum b) 99%float.

(** [r] is [v] rounded down to an integer. *)
Definition floors (v r : R) : Prop := exists n, is_floor v n /\ r = IZR n.

(** The largest number below 1: [1 - 2^-53]. *)
Definition below_one : float := 0x1.fffffffffffffp-1%float.

(** What [Math.random] promises of the number it returns. *)
Definition is_random (random : float) : Prop :=
  (0 <=? random)%float = true /\ (random <? 1)%float = true.

(** * Binary64 arithmetic on real numbers *)

(** ** Powers of two *)

(** ** Positions between two integers *)

Lemma IZR_pow2_pos (n : Z) : (0 <= n)%Z -> 0 < IZR (2 ^ n).
Proof.
  intros Hn. apply IZR_lt. apply Z.pow_pos_nonneg; lia.
Qed.

Lemma pow2_pos (e : Z) : 0 < pow2 e.
Proof.
  unfold pow2. destruct (Z.leb_spec 0 e).
  - now apply IZR_pow2_pos.
  - apply Rinv_0_lt_compat. apply IZR_pow2_pos. lia.
Qed.

Lemma pow2_IZR (e : Z) : (0 <= e)%Z -> pow2 e = IZR (2 ^ e).
Proof.
  intros He. unfold pow2. destruct (Z.leb_spec 0 e); [reflexivity | lia].
Qed.

Lemma pow2_opp (e : Z) : pow2 (- e) = / pow2 e.
Proof.
  unfold pow2.
  destruct (Z.leb_spec 0 e), (Z.leb_spec 0 (- e)); try lia.
  - replace e with 0%Z by lia. cbn. lra.
  - now rewrite Z.opp_involutive.
  - now rewrite Rinv_inv.
Qed.

Lemma pow2_add_nonneg (a b : Z) :
  (0 <= a)%Z -> (0 <= b)%Z -> pow2 (a + b) = pow2 a * pow2 b.
Proof.
  intros Ha Hb. rewrite !pow2_IZR by lia.
  rewrite Z.pow_add_r by lia. apply mult_IZR.
Qed.

Lemma pow2_sub_nonneg (a b : Z) :
  (0 <= a)%Z -> (0 <= b)%Z -> pow2 (a - b) = pow2 a / pow2 b.
Proof.
  intros Ha Hb.
  assert (Hpa := pow2_pos a). assert (Hpb := pow2_pos b).
  destruct (Z.le_ge_cases b a) as [Hle|Hle].
  - replace a with ((a - b) + b)%Z at 2 by lia.
    rewrite pow2_add_nonneg by lia. field. lra.
  - replace (a - b)%Z with (- (b - a))%Z by lia.
    rewrite pow2_opp.
    replace b with ((b - a) + a)%Z at 2 by lia.
    rewrite pow2_add_nonneg by lia.
    assert (Hd := pow2_pos (b - a)). field. lra.
Qed.

Lemma pow2_add (a b : Z) : pow2 (a + b) = pow2 a * pow2 b.
Proof.
  assert (Hpa := pow2_pos (Z.abs a)). assert (Hpb := pow2_pos (Z.abs b)).
  destruct (Z.le_ge_cases 0 a) as [Ha|Ha], (Z.le_ge_cases 0 b) as [Hb|Hb].
  - now apply pow2_add_nonneg.
  - replace (a + b)%Z with (a - (- b))%Z by lia.
    rewrite pow2_sub_nonneg by lia.
    replace b with (- (- b))%Z at 2 by lia. rewrite (pow2_opp (- b)). reflexivity.
  - replace (a + b)%Z with (b - (- a))%Z by lia.
    rewrite pow2_sub_nonneg by lia.
    replace a with (- (- a))%Z at 2 by lia. rewrite (pow2_opp (- a)).
    unfold Rdiv. apply Rmult_comm.
  - replace (a + b)%Z with (- ((- a) + (- b)))%Z by lia.
    rewrite pow2_opp, pow2_add_nonneg by lia.
    replace a with (- (- a))%Z at 2 by lia.
    replace b with (- (- b))%Z at 2 by lia.
    rewrite (pow2_opp (- a)), (pow2_opp (- b)).
    assert (H1 := pow2_pos (- a)). assert (H2 := pow2_pos (- b)).
    field. lra.
Qed.

Lemma pow2_0 : pow2 0 = 1.
Proof. reflexivity. Qed.

Lemma pow2_1 : pow2 1 = 2.
Proof. reflexivity. Qed.

Lemma pow2_succ (e : Z) : pow2 (e + 1) = 2 * pow2 e.
Proof. rewrite pow2_add, pow2_1. ring. Qed.

Lemma pow2_sub (a b : Z) : pow2 (a - b) = pow2 a / pow2 b.
Proof.
  unfold Z.sub, Rdiv. now rewrite pow2_add, pow2_opp.
Qed.

Lemma pow2_ge_1 (e : Z) : (0 <= e)%Z -> 1 <= pow2 e.
Proof.
  intros He. rewrite pow2_IZR by assumption. apply IZR_le.
  assert (0 < 2 ^ e)%Z by (apply Z.pow_pos_nonneg; lia). lia.
Qed.

Lemma pow2_le (a b : Z) : (a <= b)%Z -> pow2 a <= pow2 b.
Proof.
  intros Hab. replace b with (a + (b - a))%Z by lia.
  rewrite pow2_add.
  assert (Ha := pow2_pos a). assert (Hd := pow2_ge_1 (b - a)).
  assert (1 <= pow2 (b - a)) by (apply Hd; lia). nra.
Qed.

Lemma pow2_lt (a b : Z) : (a < b)%Z -> pow2 a < pow2 b.
Proof.
  intros Hab. assert (H := pow2_le (a + 1) b).
  rewrite pow2_succ in H. assert (Ha := pow2_pos a).
  assert (2 * pow2 a <= pow2 b) by (apply H; lia). lra.
Qed.

Lemma pow2_lt_inv (a b : Z) : pow2 a < pow2 b -> (a < b)%Z.
Proof.
  intros H. destruct (Z.lt_ge_cases a b) as [Hlt|Hge]; [assumption|].
  apply pow2_le in Hge. lra.
Qed.

Lemma pow2_le_inv (a b : Z) : pow2 a <= pow2 b -> (a <= b)%Z.
Proof.
  intros H. destruct (Z.le_gt_cases a b) as [Hle|Hgt]; [assumption|].
  apply pow2_lt in Hgt. lra.
Qed.

(** ** Binary digits *)

Lemma digits2_pos_bounds (m : positive) :
  (2 ^ (Zpos (digits2_pos m) - 1) <= Zpos m < 2 ^ Zpos (digits2_pos m))%Z.
Proof.
  induction m as [m IH|m IH|]; cbn [digits2_pos].
  - rewrite Pos2Z.inj_succ.
    replace (Z.succ (Zpos (digits2_pos m)) - 1)%Z with (Z.succ (Zpos (digits2_pos m) - 1)) by lia.
    rewrite !Z.pow_succ_r by lia. lia.
  - rewrite Pos2Z.inj_succ.
    replace (Z.succ (Zpos (digits2_pos m)) - 1)%Z with (Z.succ (Zpos (digits2_pos m) - 1)) by lia.
    rewrite !Z.pow_succ_r by lia. lia.
  - cbn. lia.
Qed.

Lemma Zdigits2_bounds (m : Z) :
  (0 < m)%Z -> (2 ^ (Zdigits2 m - 1) <= m < 2 ^ Zdigits2 m)%Z.
Proof.
  destruct m as [|p|p]; try lia. intros _. apply digits2_pos_bounds.
Qed.

Lemma Zdigits2_pos (m : Z) : (0 < m)%Z -> (0 < Zdigits2 m)%Z.
Proof.
  destruct m as [|p|p]; cbn; lia.
Qed.

Lemma Zdigits2_unique (m d : Z) :
  (2 ^ (d - 1) <= m < 2 ^ d)%Z -> (0 < m)%Z -> Zdigits2 m = d.
Proof.
  intros [Hlo Hhi] Hm.
  destruct (Zdigits2_bounds m Hm) as [Hlo' Hhi'].
  assert (Hdp := Zdigits2_pos m Hm).
  assert (Hd : (0 < d)%Z).
  { destruct (Z.lt_ge_cases 0 d) as [H|H]; [assumption|].
    destruct (Z.eq_dec d 0) as [->|Hne]; [cbn in Hhi; lia|].
    rewrite Z.pow_neg_r in Hhi by lia. lia. }
  destruct (Z.lt_trichotomy (Zdigits2 m) d) as [H|[H|H]]; [|assumption|].
  - assert (2 ^ Zdigits2 m <= 2 ^ (d - 1))%Z by (apply Z.pow_le_mono_r; lia). lia.
  - assert (2 ^ d <= 2 ^ (Zdigits2 m - 1))%Z by (apply Z.pow_le_mono_r; lia). lia.
Qed.

(** ** Shifting a mantissa to the right *)

Lemma IZR_xO (p : positive) : IZR (Zpos p~0) = 2 * IZR (Zpos p).
Proof. rewrite Pos2Z.inj_xO, mult_IZR. reflexivity. Qed.

Lemma IZR_xI (p : positive) : IZR (Zpos p~1) = 2 * IZR (Zpos p) + 1.
Proof. rewrite Pos2Z.inj_xI, plus_IZR, mult_IZR. reflexivity. Qed.

Lemma loc_of_shr_record_of_loc (m : Z) (l : location) :
  loc_of_shr_record (shr_record_of_loc m l) = l.
Proof. destruct l as [|[]]; reflexivity. Qed.

Lemma shr_m_shr_record_of_loc (m : Z) (l : location) :
  shr_m (shr_record_of_loc m l) = m.
Proof. destruct l as [|[]]; reflexivity. Qed.

Lemma shr_1_ok (y : R) (mrs : shr_record) :
  shr_ok y mrs -> shr_ok (y / 2) (shr_1 mrs).
Proof.
  destruct mrs as [m r s]. unfold shr_ok. cbn [shr_m].
  intros [Hm Hloc].
  destruct m as [|p|p]; [| |lia].
  - destruct r, s; cbn [shr_1 shr_m loc_of_shr_record located orb] in *;
      split; try lia; lra.
  - destruct p as [p|p|].
    + destruct r, s; cbn [shr_1 shr_m loc_of_shr_record located orb] in *;
        rewrite (IZR_xI p) in Hloc; split; try lia; lra.
    + destruct r, s; cbn [shr_1 shr_m loc_of_shr_record located orb] in *;
        rewrite (IZR_xO p) in Hloc; split; try lia; lra.
    + destruct r, s; cbn [shr_1 shr_m loc_of_shr_record located orb] in *;
        split; try lia; lra.
Qed.

Lemma iter_shr_1_ok (p : positive) :
  forall (y : R) (mrs : shr_record),
    shr_ok y mrs -> shr_ok (y / pow2 (Zpos p)) (iter_pos shr_1 p mrs).
Proof.
  induction p as [p IH|p IH|]; intros y mrs Hok; cbn [iter_pos].
  - apply shr_1_ok in Hok. apply IH in Hok. apply IH in Hok.
    replace (y / pow2 (Zpos p~1)) with (y / 2 / pow2 (Zpos p) / pow2 (Zpos p)); [assumption|].
    replace (Zpos p~1) with (1 + (Zpos p + Zpos p))%Z by lia.
    rewrite !pow2_add, pow2_1. assert (H := pow2_pos (Zpos p)). field. lra.
  - apply IH in Hok. apply IH in Hok.
    replace (y / pow2 (Zpos p~0)) with (y / pow2 (Zpos p) / pow2 (Zpos p)); [assumption|].
    replace (Zpos p~0) with (Zpos p + Zpos p)%Z by lia.
    rewrite !pow2_add. assert (H := pow2_pos (Zpos p)). field. lra.
  - apply shr_1_ok in Hok. now rewrite pow2_1.
Qed.

(** Shifting [m * 2^e], at location [l], so that the exponent is at least
    [e']: the real number [x] that was located at exponent [e] is located
    at the new exponent. *)
Lemma shr_ok_spec (x : R) (m e n : Z) (l : location) :
  (0 <= m)%Z ->
  located (x / pow2 e) m l ->
  shr_ok (x / pow2 (snd (shr (shr_record_of_loc m l) e n)))
         (fst (shr (shr_record_of_loc m l) e n)) /\
  snd (shr (shr_record_of_loc m l) e n) = (e + Z.max n 0)%Z.
Proof.
  intros Hm Hloc.
  assert (Hok : shr_ok (x / pow2 e) (shr_record_of_loc m l)).
  { split; [now rewrite shr_m_shr_record_of_loc|].
    now rewrite shr_m_shr_record_of_loc, loc_of_shr_record_of_loc. }
  destruct n as [|p|p]; cbn [shr fst snd].
  - split; [assumption | lia].
  - split; [|lia].
    apply (iter_shr_1_ok p) in Hok.
    rewrite pow2_add. assert (H1 := pow2_pos e). assert (H2 := pow2_pos (Zpos p)).
    replace (x / (pow2 e * pow2 (Zpos p))) with (x / pow2 e / pow2 (Zpos p)); [assumption|].
    field. lra.
  - split; [assumption | lia].
Qed.

(** ** Rounding to the nearest integer, ties to even *)

Lemma round_nearest_even_rne (y : R) (m : Z) (l : location) :
  located y m l -> is_rne y (round_nearest_even m l).
Proof.
  unfold is_rne. destruct l as [|[]]; cbn [located round_nearest_even]; intros H.
  - subst y. split; [lra|]. intros [H|H]; lra.
  - subst y. destruct (Z.even m) eqn:He.
    + split; [lra|]. intros _. exact He.
    + rewrite plus_IZR. split; [lra|]. intros _.
      rewrite Z.even_add, He. reflexivity.
  - split; [lra|]. intros [H'|H']; lra.
  - rewrite plus_IZR. split; [lra|]. intros [H'|H']; lra.
Qed.

Lemma round_nearest_even_nonneg (m : Z) (l : location) :
  (0 <= m)%Z -> (0 <= round_nearest_even m l)%Z.
Proof.
  intros Hm. destruct l as [|[]]; cbn; try lia. destruct (Z.even m); lia.
Qed.

Lemma is_rne_mono (y1 y2 : R) (z1 z2 : Z) :
  y1 <= y2 -> is_rne y1 z1 -> is_rne y2 z2 -> (z1 <= z2)%Z.
Proof.
  intros Hy [[Hl1 Hu1] He1] [[Hl2 Hu2] He2].
  destruct (Z.le_gt_cases z1 z2) as [H|H]; [assumption|exfalso].
  assert (Hz : IZR z2 + 1 <= IZR z1).
  { rewrite <- plus_IZR. apply IZR_le. lia. }
  assert (Hy1 : y1 = IZR z1 - / 2) by lra.
  assert (Hy2 : y2 = IZR z2 + / 2) by lra.
  assert (Hz' : IZR z1 = IZR (z2 + 1)) by (rewrite plus_IZR; lra).
  apply eq_IZR in Hz'. subst z1.
  specialize (He1 (or_introl Hy1)). specialize (He2 (or_intror Hy2)).
  rewrite Z.even_add, He2 in He1. discriminate.
Qed.

Lemma is_rne_unique (y : R) (z1 z2 : Z) :
  is_rne y z1 -> is_rne y z2 -> z1 = z2.
Proof.
  intros H1 H2.
  assert (z1 <= z2)%Z by (apply (is_rne_mono y y); [lra|assumption..]).
  assert (z2 <= z1)%Z by (apply (is_rne_mono y y); [lra|assumption..]).
  lia.
Qed.

Lemma is_rne_IZR (n : Z) : is_rne (IZR n) n.
Proof.
  split; [lra|]. intros [H|H]; lra.
Qed.

Lemma is_rne_le_int (y : R) (z n : Z) :
  y <= IZR n -> is_rne y z -> (z <= n)%Z.
Proof.
  intros Hy Hz. apply (is_rne_mono y (IZR n)); [assumption..|apply is_rne_IZR].
Qed.

Lemma is_rne_ge_int (y : R) (z n : Z) :
  IZR n <= y -> is_rne y z -> (n <= z)%Z.
Proof.
  intros Hy Hz. apply (is_rne_mono (IZR n) y); [assumption|apply is_rne_IZR|assumption].
Qed.

Lemma is_rne_opp (y : R) (z : Z) : is_rne y z -> is_rne (- y) (- z).
Proof.
  intros [[Hl Hu] He]. split.
  - rewrite opp_IZR. lra.
  - rewrite opp_IZR, Z.even_opp. intros [H|H]; apply He; lra.
Qed.

(** ** The binary64 format on real numbers *)

Lemma fexp64_eq (g : Z) : fexp prec emax g = fexp64 g.
Proof. reflexivity. Qed.

Lemma is_mag_unique (x : R) (g1 g2 : Z) : is_mag x g1 -> is_mag x g2 -> g1 = g2.
Proof.
  intros [Hl1 Hu1] [Hl2 Hu2].
  assert (g1 - 1 < g2)%Z by (apply pow2_lt_inv; lra).
  assert (g2 - 1 < g1)%Z by (apply pow2_lt_inv; lra).
  lia.
Qed.

Lemma is_mag_mono (x1 x2 : R) (g1 g2 : Z) :
  x1 <= x2 -> is_mag x1 g1 -> is_mag x2 g2 -> (g1 <= g2)%Z.
Proof.
  intros Hx [Hl1 Hu1] [Hl2 Hu2].
  assert (g1 - 1 < g2)%Z by (apply pow2_lt_inv; lra).
  lia.
Qed.

Lemma is_mag_pos (x : R) (g : Z) : is_mag x g -> 0 < x.
Proof.
  intros [Hl _]. assert (H := pow2_pos (g - 1)). lra.
Qed.

Lemma div_pow2_le (x y : R) (e : Z) : x <= y -> x / pow2 e <= y / pow2 e.
Proof.
  intros H. assert (Hp := pow2_pos e).
  unfold Rdiv. apply Rmult_le_compat_r; [|assumption].
  apply Rlt_le, Rinv_0_lt_compat, Hp.
Qed.

Lemma div_pow2_lt (x y : R) (e : Z) : x < y -> x / pow2 e < y / pow2 e.
Proof.
  intros H. assert (Hp := pow2_pos e).
  unfold Rdiv. apply Rmult_lt_compat_r; [|assumption].
  apply Rinv_0_lt_compat, Hp.
Qed.

Lemma div_pow2_cancel (x : R) (e : Z) : x / pow2 e * pow2 e = x.
Proof. assert (Hp := pow2_pos e). unfold Rdiv. rewrite Rmult_assoc, Rinv_l; lra. Qed.

Lemma lt_of_div_pow2_lt (x y : R) (e : Z) : x / pow2 e < y -> x < y * pow2 e.
Proof.
  intros H. rewrite <- (div_pow2_cancel x e).
  apply Rmult_lt_compat_r; [apply pow2_pos | assumption].
Qed.

Lemma le_of_le_div_pow2 (x y : R) (e : Z) : y <= x / pow2 e -> y * pow2 e <= x.
Proof.
  intros H. rewrite <- (div_pow2_cancel x e).
  apply Rmult_le_compat_r; [apply Rlt_le, pow2_pos | assumption].
Qed.

Lemma pow2_div (a b : Z) : pow2 a / pow2 b = pow2 (a - b).
Proof. now rewrite pow2_sub. Qed.

Lemma mul_pow2_div (y : R) (e : Z) : y * pow2 e / pow2 e = y.
Proof. assert (Hp := pow2_pos e). field. lra. Qed.

Lemma rounds_pos_nonneg (x r : R) : rounds_pos x r -> 0 <= r.
Proof.
  intros (g & z & Hmag & Hz & ->).
  assert (Hx := is_mag_pos _ _ Hmag).
  assert (Hp := pow2_pos (fexp64 g)).
  assert (0 <= z)%Z.
  { apply (is_rne_ge_int (x / pow2 (fexp64 g))); [|assumption].
    apply Rlt_le, Rdiv_lt_0_compat; assumption. }
  apply Rmult_le_pos; [now apply IZR_le | lra].
Qed.

Lemma fexp64_mono (g1 g2 : Z) : (g1 <= g2)%Z -> (fexp64 g1 <= fexp64 g2)%Z.
Proof. unfold fexp64. lia. Qed.

Lemma rounds_pos_mono (x1 x2 r1 r2 : R) :
  x1 <= x2 -> rounds_pos x1 r1 -> rounds_pos x2 r2 -> r1 <= r2.
Proof.
  intros Hx (g1 & z1 & Hm1 & Hz1 & ->) (g2 & z2 & Hm2 & Hz2 & ->).
  assert (Hg := is_mag_mono _ _ _ _ Hx Hm1 Hm2).
  assert (HE := fexp64_mono _ _ Hg).
  destruct (Z.eq_dec (fexp64 g1) (fexp64 g2)) as [Heq|Hne].
  - rewrite Heq in *.
    assert (z1 <= z2)%Z.
    { apply (is_rne_mono _ _ _ _ (div_pow2_le _ _ (fexp64 g2) Hx) Hz1 Hz2). }
    apply Rmult_le_compat_r; [apply Rlt_le, pow2_pos | now apply IZR_le].
  - assert (Hlt : (fexp64 g1 < fexp64 g2)%Z) by lia.
    assert (Hg2 : fexp64 g2 = (g2 - 53)%Z) by (unfold fexp64 in *; lia).
    assert (Hg12 : (g1 <= g2 - 1)%Z) by (unfold fexp64 in *; lia).
    destruct Hm1 as [Hl1 Hu1]. destruct Hm2 as [Hl2 Hu2].
    assert (Hb1 : x1 <= pow2 (g2 - 1)).
    { apply Rlt_le, (Rlt_le_trans _ _ _ Hu1), pow2_le. lia. }
    (* the boundary [2^(g2-1)] is a fixed point at both exponents *)
    assert (H1 : (z1 <= 2 ^ (g2 - 1 - fexp64 g1))%Z).
    { apply (is_rne_le_int (x1 / pow2 (fexp64 g1))); [|assumption].
      rewrite <- pow2_IZR by lia. rewrite <- pow2_div.
      now apply div_pow2_le. }
    assert (H2 : (2 ^ (g2 - 1 - fexp64 g2) <= z2)%Z).
    { apply (is_rne_ge_int (x2 / pow2 (fexp64 g2))); [|assumption].
      rewrite <- pow2_IZR by lia. rewrite <- pow2_div.
      now apply div_pow2_le. }
    apply IZR_le in H1, H2.
    rewrite <- pow2_IZR in H1, H2 by lia.
    assert (Hp1 := pow2_pos (fexp64 g1)). assert (Hp2 := pow2_pos (fexp64 g2)).
    apply Rle_trans with (pow2 (g2 - 1)).
    + replace (pow2 (g2 - 1)) with (pow2 (g2 - 1 - fexp64 g1) * pow2 (fexp64 g1)).
      * apply Rmult_le_compat_r; lra.
      * rewrite <- pow2_add. f_equal. lia.
    + replace (pow2 (g2 - 1)) with (pow2 (g2 - 1 - fexp64 g2) * pow2 (fexp64 g2)).
      * apply Rmult_le_compat_r; lra.
      * rewrite <- pow2_add. f_equal. lia.
Qed.

Lemma rounds_pos_unique (x r1 r2 : R) : rounds_pos x r1 -> rounds_pos x r2 -> r1 = r2.
Proof.
  intros H1 H2. apply Rle_antisym; eapply rounds_pos_mono; eauto; lra.
Qed.

Lemma rounds_mono (x1 x2 r1 r2 : R) :
  x1 <= x2 -> rounds x1 r1 -> rounds x2 r2 -> r1 <= r2.
Proof.
  intros Hx [[Hx1 ->]|[[Hx1 H1]|[Hx1 H1]]] [[Hx2 ->]|[[Hx2 H2]|[Hx2 H2]]];
    try lra.
  - apply rounds_pos_nonneg in H2. lra.
  - eapply rounds_pos_mono; eauto.
  - apply rounds_pos_nonneg in H1. lra.
  - apply rounds_pos_nonneg in H1, H2. lra.
  - assert (- r2 <= - r1); [|lra].
    eapply rounds_pos_mono; [| exact H2 | exact H1]. lra.
Qed.

Lemma rounds_unique (x r1 r2 : R) : rounds x r1 -> rounds x r2 -> r1 = r2.
Proof.
  intros H1 H2. apply Rle_antisym; eapply rounds_mono; eauto; lra.
Qed.

Lemma rounds_opp (x r : R) : rounds x r -> rounds (- x) (- r).
Proof.
  intros [[-> ->]|[[Hx H]|[Hx H]]].
  - left. split; lra.
  - right. right. split; [lra|]. now rewrite !Ropp_involutive.
  - right. left. split; [lra|assumption].
Qed.

(** ** Located mantissas *)

Lemma located_bounds (y : R) (m : Z) (l : location) :
  located y m l -> IZR m <= y < IZR m + 1.
Proof.
  destruct l as [|[]]; cbn [located]; lra.
Qed.

Lemma located_int (k m : Z) (l : location) : located (IZR k) m l -> m = k.
Proof.
  intros H.
  assert (Hb := located_bounds _ _ _ H).
  destruct Hb as [Hl Hu].
  apply le_IZR in Hl. rewrite <- plus_IZR in Hu. apply lt_IZR in Hu. lia.
Qed.

Lemma mag_of_located (x : R) (m e : Z) (l : location) :
  (0 < m)%Z -> located (x / pow2 e) m l -> is_mag x (Zdigits2 m + e).
Proof.
  intros Hm Hloc.
  destruct (located_bounds _ _ _ Hloc) as [Hl Hu].
  destruct (Zdigits2_bounds m Hm) as [Hdl Hdu].
  assert (Hd := Zdigits2_pos m Hm).
  assert (Hp := pow2_pos e).
  assert (Hu' : x / pow2 e < pow2 (Zdigits2 m)).
  { rewrite (pow2_IZR (Zdigits2 m)) by lia. eapply Rlt_le_trans; [exact Hu|].
    rewrite <- plus_IZR. apply IZR_le. lia. }
  assert (Hl' : pow2 (Zdigits2 m - 1) <= x / pow2 e).
  { rewrite (pow2_IZR (Zdigits2 m - 1)) by lia.
    eapply Rle_trans; [|exact Hl]. now apply IZR_le. }
  assert (Hx : x = x / pow2 e * pow2 e).
  { unfold Rdiv. rewrite Rmult_assoc, Rinv_l; lra. }
  split.
  - replace (Zdigits2 m + e - 1)%Z with ((Zdigits2 m - 1) + e)%Z by lia.
    rewrite pow2_add, Hx. apply Rmult_le_compat_r; lra.
  - rewrite pow2_add, Hx. apply Rmult_lt_compat_r; lra.
Qed.

(** ** Correctness of [binary_round_aux] *)

Lemma binary_round_aux_unfold (s : bool) (mx ex : Z) (lx : location) :
  binary_round_aux prec emax s mx ex lx =
  let p1 := shr_fexp prec emax mx ex lx in
  let z := round_nearest_even (shr_m (fst p1)) (loc_of_shr_record (fst p1)) in
  let p2 := shr_fexp prec emax z (snd p1) loc_Exact in
  match shr_m (fst p2) with
  | Z0 => S754_zero s
  | Zpos m =>
      if (snd p2 <=? emax - prec)%Z then S754_finite s m (snd p2)
      else S754_infinity s
  | Zneg _ => S754_nan
  end.
Proof.
  unfold binary_round_aux.
  destruct (shr_fexp prec emax mx ex lx) as [mrs' e']. cbn [fst snd].
  destruct (shr_fexp prec emax _ e' loc_Exact) as [mrs'' e'']. reflexivity.
Qed.

Lemma Zdigits2_mag (z : Z) : (0 < z)%Z -> is_mag (IZR z) (Zdigits2 z).
Proof.
  intros Hz. destruct (Zdigits2_bounds z Hz) as [Hl Hu].
  assert (Hd := Zdigits2_pos z Hz).
  split.
  - rewrite pow2_IZR by lia. now apply IZR_le.
  - rewrite pow2_IZR by lia. now apply IZR_lt.
Qed.

Lemma Zdigits2_of_mag (z d : Z) : (0 < z)%Z -> is_mag (IZR z) d -> Zdigits2 z = d.
Proof.
  intros Hz Hd. apply (is_mag_unique (IZR z)); [now apply Zdigits2_mag | assumption].
Qed.

(** A positive canonical mantissa gives a finite number below [2^1024], or
    overflows. *)
Lemma canonical_finish (s : bool) (k : positive) (e : Z) (r : R) :
  fexp64 (Zdigits2 (Zpos k) + e) = e ->
  r = IZR (Zpos k) * pow2 e ->
  SF_result s r
    (if (e <=? emax - prec)%Z then S754_finite s k e else S754_infinity s).
Proof.
  intros Hcan ->.
  destruct (Zdigits2_mag (Zpos k)) as [Hl Hu]; [lia|].
  assert (Hd := Zdigits2_pos (Zpos k) ltac:(lia)).
  assert (Hp := pow2_pos e).
  assert (Hk : 0 < IZR (Zpos k)) by (apply IZR_lt; lia).
  change (emax - prec)%Z with 971%Z.
  destruct (Z.leb_spec e 971) as [He|He].
  - right. left. split.
    + split; [apply Rmult_lt_0_compat; assumption|].
      apply Rlt_le_trans with (pow2 (Zdigits2 (Zpos k)) * pow2 e).
      * apply Rmult_lt_compat_r; assumption.
      * rewrite <- pow2_add. apply pow2_le. unfold fexp64 in Hcan. lia.
    + exists k, e. split; [reflexivity|]. split; [|reflexivity].
      unfold bounded, canonical_mantissa. rewrite fexp64_eq.
      change (Zpos (digits2_pos k)) with (Zdigits2 (Zpos k)).
      rewrite Hcan, Z.eqb_refl. cbn [andb].
      change (emax - prec)%Z with 971%Z. now apply Z.leb_le.
  - right. right. split; [|reflexivity].
    apply Rle_trans with (pow2 (Zdigits2 (Zpos k) - 1) * pow2 e).
    + rewrite <- pow2_add. apply pow2_le. unfold fexp64 in Hcan. lia.
    + apply Rmult_le_compat_r; lra.
Qed.

Theorem binary_round_aux_correct (s : bool) (mx ex : Z) (lx : location) (x : R) (g : Z) :
  (0 <= mx)%Z ->
  located (x / pow2 ex) mx lx ->
  is_mag x g ->
  (ex <= fexp64 g)%Z ->
  exists r, rounds_pos x r /\ SF_result s r (binary_round_aux prec emax s mx ex lx).
Proof.
  intros Hmx Hloc Hmag Hex.
  assert (Hx := is_mag_pos _ _ Hmag).
  assert (Hpex := pow2_pos ex).
  set (E := fexp64 g) in *.
  assert (HE : fexp64 (Zdigits2 mx + ex) = E).
  { destruct (Z.eq_dec mx 0) as [->|Hne].
    - destruct (located_bounds _ _ _ Hloc) as [_ Hu].
      assert (Hxe : x < pow2 ex).
      { replace (pow2 ex) with (1 * pow2 ex) by ring.
        apply lt_of_div_pow2_lt. lra. }
      destruct Hmag as [Hl _].
      assert (g - 1 < ex)%Z by (apply pow2_lt_inv; lra).
      cbn [Zdigits2]. unfold E, fexp64 in *. lia.
    - assert (Hm : is_mag x (Zdigits2 mx + ex))
        by (apply mag_of_located with lx; [lia|assumption]).
      now rewrite (is_mag_unique _ _ _ Hm Hmag). }
  rewrite binary_round_aux_unfold. cbv zeta.
  (* first shift *)
  destruct (shr_ok_spec x mx ex (E - ex) lx Hmx Hloc) as [Hok1 He1].
  replace (shr_fexp prec emax mx ex lx)
    with (shr (shr_record_of_loc mx lx) ex (E - ex))
    by (unfold shr_fexp; now rewrite fexp64_eq, HE).
  set (p1 := shr (shr_record_of_loc mx lx) ex (E - ex)) in *.
  replace (snd p1) with E in * by lia.
  destruct Hok1 as [Hm1 Hloc1].
  set (z := round_nearest_even (shr_m (fst p1)) (loc_of_shr_record (fst p1))).
  assert (Hz : is_rne (x / pow2 E) z) by now apply round_nearest_even_rne.
  assert (Hz0 : (0 <= z)%Z) by now apply round_nearest_even_nonneg.
  clearbody z.
  assert (HpE := pow2_pos E).
  exists (IZR z * pow2 E). split.
  { exists g, z. repeat split; try apply Hmag; try apply Hz. }
  (* second shift *)
  set (n2 := (fexp64 (Zdigits2 z + E) - E)%Z).
  assert (Hloc2 : located (IZR z * pow2 E / pow2 E) z loc_Exact)
    by (cbn [located]; apply mul_pow2_div).
  destruct (shr_ok_spec (IZR z * pow2 E) z E n2 loc_Exact Hz0 Hloc2) as [Hok2 He2].
  replace (shr_fexp prec emax z E loc_Exact)
    with (shr (shr_record_of_loc z loc_Exact) E n2)
    by (unfold shr_fexp; now rewrite fexp64_eq).
  set (p2 := shr (shr_record_of_loc z loc_Exact) E n2) in *.
  destruct Hok2 as [_ Hloc2'].
  destruct (Z.eq_dec z 0) as [Hz_eq|Hz_ne].
  { (* the mantissa rounds to zero *)
    assert (Hn2 : (n2 <= 0)%Z).
    { unfold n2. rewrite Hz_eq. cbn [Zdigits2]. unfold E, fexp64. lia. }
    rewrite He2 in Hloc2'. replace (E + Z.max n2 0)%Z with E in Hloc2' by lia.
    rewrite mul_pow2_div in Hloc2'. apply located_int in Hloc2'.
    rewrite Hloc2', Hz_eq. left. split; [cbn; ring | reflexivity]. }
  assert (Hzpos : (0 < z)%Z) by lia.
  (* the digits of the rounded mantissa *)
  assert (Hcases :
    (n2 = 0%Z) \/ (n2 = 1%Z /\ z = (2 ^ 53)%Z /\ E = (g - 53)%Z)).
  { destruct Hmag as [Hl Hu].
    assert (Hyl : pow2 (g - E - 1) <= x / pow2 E).
    { replace (g - E - 1)%Z with ((g - 1) - E)%Z by lia.
      rewrite <- pow2_div. now apply div_pow2_le. }
    assert (Hyu : x / pow2 E < pow2 (g - E)).
    { rewrite <- pow2_div. now apply div_pow2_lt. }
    destruct (Z.le_gt_cases 1 (g - E)) as [HG|HG].
    - assert (Hzl : (2 ^ (g - E - 1) <= z)%Z).
      { apply (is_rne_ge_int (x / pow2 E)); [|assumption].
        rewrite <- pow2_IZR by lia. assumption. }
      assert (Hzu : (z <= 2 ^ (g - E))%Z).
      { apply (is_rne_le_int (x / pow2 E)); [|assumption].
        rewrite <- pow2_IZR by lia. lra. }
      apply IZR_le in Hzl, Hzu. rewrite <- pow2_IZR in Hzl, Hzu by lia.
      destruct (Rle_lt_or_eq_dec _ _ Hzu) as [Hlt|Heq].
      + left. unfold n2.
        assert (Hd : Zdigits2 z = (g - E)%Z).
        { apply Zdigits2_of_mag; [assumption|]. split; assumption. }
        rewrite Hd.
        replace (g - E + E)%Z with g by lia. fold E. lia.
      + assert (Hd : Zdigits2 z = (g - E + 1)%Z).
        { apply Zdigits2_of_mag; [assumption|]. split.
          - replace (g - E + 1 - 1)%Z with (g - E)%Z by lia. lra.
          - rewrite Heq. apply pow2_lt. lia. }
        unfold n2. rewrite Hd.
        destruct (Z.le_gt_cases (-1074) (g - 53)) as [Hn|Hs].
        * right. assert (HEg : E = (g - 53)%Z) by (unfold E, fexp64; lia).
          split; [unfold fexp64; lia|]. split; [|assumption].
          apply eq_IZR. rewrite Heq, pow2_IZR by lia. do 2 f_equal. lia.
        * left. unfold E, fexp64. lia.
    - assert (Hz1 : (z <= 1)%Z).
      { apply (is_rne_le_int (x / pow2 E)); [|assumption].
        apply Rlt_le, (Rlt_le_trans _ _ _ Hyu).
        change 1 with (pow2 0). apply pow2_le. lia. }
      assert (Hz1eq : z = 1%Z) by lia. left. unfold n2. rewrite Hz1eq.
      cbn [Zdigits2 digits2_pos]. unfold E, fexp64 in *. lia. }
  destruct Hcases as [Hn2|(Hn2 & Hz53 & HEg)].
  - rewrite He2 in Hloc2'. replace (E + Z.max n2 0)%Z with E in * by lia.
    rewrite mul_pow2_div in Hloc2'. apply located_int in Hloc2'.
    rewrite Hloc2', He2.
    destruct z as [|k|k]; try lia.
    apply canonical_finish; [|reflexivity].
    unfold n2 in Hn2. lia.
  - rewrite He2 in Hloc2'. replace (E + Z.max n2 0)%Z with (E + 1)%Z in * by lia.
    assert (Hval : IZR z * pow2 E = IZR (2 ^ 52) * pow2 (E + 1)).
    { rewrite Hz53, pow2_succ.
      replace (IZR (2 ^ 53)) with (IZR (2 ^ 52) * 2); [ring|].
      rewrite <- mult_IZR. f_equal. }
    rewrite Hval, mul_pow2_div in Hloc2'. apply located_int in Hloc2'.
    rewrite Hloc2', He2, Hval.
    change (2 ^ 52)%Z with (Zpos (2 ^ 52)).
    apply canonical_finish; [|reflexivity].
    change (Zdigits2 (Zpos (2 ^ 52))) with 53%Z.
    unfold E, fexp64 in *. lia.
Qed.

(** ** Real values of binary64 numbers *)

Lemma bounded_canonical (m : positive) (e : Z) :
  bounded prec emax m e = true ->
  fexp64 (Zdigits2 (Zpos m) + e) = e /\ (e <= 971)%Z.
Proof.
  unfold bounded, canonical_mantissa. rewrite fexp64_eq.
  intros H. apply andb_prop in H. destruct H as [H1 H2].
  apply Z.eqb_eq in H1. apply Z.leb_le in H2. split; assumption.
Qed.

Lemma canonical_range (m : positive) (e : Z) :
  fexp64 (Zdigits2 (Zpos m) + e) = e -> (e <= 971)%Z ->
  pow2 (-1074) <= IZR (Zpos m) * pow2 e < pow2 1024.
Proof.
  intros Hcan He.
  destruct (Zdigits2_mag (Zpos m)) as [Hl Hu]; [lia|].
  assert (Hd := Zdigits2_pos (Zpos m) ltac:(lia)).
  assert (Hp := pow2_pos e). split.
  - apply Rle_trans with (1 * pow2 e).
    + rewrite Rmult_1_l. apply pow2_le. unfold fexp64 in Hcan. lia.
    + apply Rmult_le_compat_r; [lra|]. apply IZR_le. lia.
  - apply Rlt_le_trans with (pow2 (Zdigits2 (Zpos m)) * pow2 e).
    + apply Rmult_lt_compat_r; assumption.
    + rewrite <- pow2_add. apply pow2_le. unfold fexp64 in Hcan. lia.
Qed.

Lemma finite_range (s : bool) (m : positive) (e : Z) :
  valid_binary (S754_finite s m e) = true ->
  0 < IZR (Zpos m) * pow2 e < pow2 1024.
Proof.
  intros H. cbn [SpecFloat.valid_binary] in H. apply bounded_canonical in H.
  destruct H as [Hcan He].
  destruct (canonical_range m e Hcan He) as [Hl Hu].
  assert (Hp := pow2_pos (-1074)). lra.
Qed.

Lemma canonical_lt_exp (m1 m2 : positive) (e1 e2 : Z) :
  fexp64 (Zdigits2 (Zpos m1) + e1) = e1 ->
  fexp64 (Zdigits2 (Zpos m2) + e2) = e2 ->
  (e1 < e2)%Z ->
  IZR (Zpos m1) * pow2 e1 < IZR (Zpos m2) * pow2 e2.
Proof.
  intros H1 H2 He.
  destruct (Zdigits2_mag (Zpos m1)) as [Hl1 Hu1]; [lia|].
  destruct (Zdigits2_mag (Zpos m2)) as [Hl2 Hu2]; [lia|].
  assert (Hp1 := pow2_pos e1). assert (Hp2 := pow2_pos e2).
  apply Rlt_le_trans with (pow2 (Zdigits2 (Zpos m1)) * pow2 e1).
  { apply Rmult_lt_compat_r; assumption. }
  apply Rle_trans with (pow2 (Zdigits2 (Zpos m2) - 1) * pow2 e2).
  { rewrite <- !pow2_add. apply pow2_le. unfold fexp64 in *. lia. }
  apply Rmult_le_compat_r; lra.
Qed.

Lemma canonical_compare (m1 m2 : positive) (e1 e2 : Z) :
  fexp64 (Zdigits2 (Zpos m1) + e1) = e1 ->
  fexp64 (Zdigits2 (Zpos m2) + e2) = e2 ->
  Rcmp (IZR (Zpos m1) * pow2 e1) (IZR (Zpos m2) * pow2 e2)
       (match (e1 ?= e2)%Z with
        | Lt => Lt
        | Gt => Gt
        | Eq => Pos.compare_cont Eq m1 m2
        end).
Proof.
  intros H1 H2.
  destruct (Z.compare_spec e1 e2) as [He|He|He].
  - subst e2. change (Pos.compare_cont Eq m1 m2) with (m1 ?= m2)%positive.
    assert (Hp := pow2_pos e1).
    destruct (Pos.compare_spec m1 m2) as [Hm|Hm|Hm]; cbn [Rcmp].
    + now subst.
    + apply Rmult_lt_compat_r; [assumption|]. apply IZR_lt. lia.
    + apply Rmult_lt_compat_r; [assumption|]. apply IZR_lt. lia.
  - now apply canonical_lt_exp.
  - now apply canonical_lt_exp.
Qed.

Lemma Rcmp_opp (a b : R) (c : comparison) :
  Rcmp a b c -> Rcmp (- a) (- b) (CompOpp c).
Proof.
  destruct c; cbn; lra.
Qed.

Lemma SFcompare_Rcmp (x y : spec_float) (c : comparison) :
  valid_binary x = true -> valid_binary y = true ->
  SFcompare x y = Some c -> Rcmp (SFval x) (SFval y) c.
Proof.
  intros Hx Hy.
  assert (H1024 := pow2_pos 1024).
  destruct x as [sx|sx| |sx mx ex], y as [sy|sy| |sy my ey];
    cbn [SFcompare]; try discriminate; intros [= <-];
    try (assert (Hrx := finite_range _ _ _ Hx));
    try (assert (Hry := finite_range _ _ _ Hy)).
  9:{ cbn [SpecFloat.valid_binary] in Hx, Hy.
      apply bounded_canonical in Hx, Hy. destruct Hx as [Hx _], Hy as [Hy _].
      assert (Hc := canonical_compare mx my ex ey Hx Hy).
      destruct sx, sy; cbn [SFval B2R signed].
      - apply Rcmp_opp in Hc. destruct (ex ?= ey)%Z; exact Hc.
      - cbn [Rcmp]. lra.
      - cbn [Rcmp]. lra.
      - exact Hc. }
  all: cbn [SFval B2R]; try destruct sx; try destruct sy; cbn [signed Rcmp]; lra.
Qed.

Lemma SFcompare_some (x y : spec_float) :
  x <> S754_nan -> y <> S754_nan -> exists c, SFcompare x y = Some c.
Proof.
  intros Hx Hy.
  destruct x as [sx|sx| |sx mx ex], y as [sy|sy| |sy my ey];
    try congruence; cbn [SFcompare]; eexists; reflexivity.
Qed.

Lemma SFcompare_nan (x y : spec_float) :
  x = S754_nan \/ y = S754_nan -> SFcompare x y = None.
Proof.
  intros [->| ->]; [reflexivity|]. now destruct x.
Qed.

Lemma SFleb_SFle (x y : spec_float) :
  valid_binary x = true -> valid_binary y = true ->
  (SFleb x y = true <-> SFle x y).
Proof.
  intros Hx Hy. unfold SFleb, SFle. split.
  - destruct (SFcompare x y) as [c|] eqn:Hc; [|discriminate].
    intros H. assert (Hr := SFcompare_Rcmp x y c Hx Hy Hc).
    repeat split.
    + intros ->. discriminate.
    + intros ->. now destruct x.
    + destruct c; cbn [Rcmp] in Hr; try discriminate; lra.
  - intros (Hnx & Hny & Hle).
    destruct (SFcompare_some x y Hnx Hny) as [c Hc]. rewrite Hc.
    assert (Hr := SFcompare_Rcmp x y c Hx Hy Hc).
    destruct c; cbn [Rcmp] in Hr; try reflexivity; lra.
Qed.

Lemma SFltb_false_SFwle (x y : spec_float) :
  valid_binary x = true -> valid_binary y = true ->
  (SFltb y x = false <-> SFwle x y).
Proof.
  intros Hx Hy. unfold SFltb, SFwle. split.
  - destruct (SFcompare y x) as [c|] eqn:Hc.
    + intros H. assert (Hr := SFcompare_Rcmp y x c Hy Hx Hc).
      right. right. destruct c; cbn [Rcmp] in Hr; try discriminate; lra.
    + intros _.
      destruct x; try (now left); destruct y; try (now right; left); discriminate.
  - intros [->|[->|Hle]].
    + now rewrite SFcompare_nan by now right.
    + now rewrite SFcompare_nan by now left.
    + destruct (SFcompare y x) as [c|] eqn:Hc; [|reflexivity].
      assert (Hr := SFcompare_Rcmp y x c Hy Hx Hc).
      destruct c; cbn [Rcmp] in Hr; try reflexivity; lra.
Qed.

Lemma SFltb_SFval (x y : spec_float) :
  valid_binary x = true -> valid_binary y = true ->
  (SFltb x y = true <->
   x <> S754_nan /\ y <> S754_nan /\ SFval x < SFval y).
Proof.
  intros Hx Hy. unfold SFltb. split.
  - destruct (SFcompare x y) as [c|] eqn:Hc; [|discriminate].
    intros H. assert (Hr := SFcompare_Rcmp x y c Hx Hy Hc).
    repeat split.
    + intros ->. discriminate.
    + intros ->. now destruct x.
    + destruct c; cbn [Rcmp] in Hr; try discriminate; lra.
  - intros (Hnx & Hny & Hlt).
    destruct (SFcompare_some x y Hnx Hny) as [c Hc]. rewrite Hc.
    assert (Hr := SFcompare_Rcmp x y c Hx Hy Hc).
    destruct c; cbn [Rcmp] in Hr; try reflexivity; lra.
Qed.

(** ** Values in range *)

Lemma SFval_range (f : spec_float) :
  valid_binary f = true -> - pow2 1024 <= SFval f <= pow2 1024.
Proof.
  intros Hf. assert (H := pow2_pos 1024).
  destruct f as [s|s| |s m e]; cbn [SFval B2R]; try lra.
  - destruct s; cbn [signed]; lra.
  - apply finite_range in Hf. destruct s; cbn [signed]; lra.
Qed.

Lemma clamp_mono (a b : R) : a <= b -> clamp a <= clamp b.
Proof.
  intros H. unfold clamp.
  apply Rmax_case_strong; apply Rmax_case_strong;
    apply Rmin_case_strong; apply Rmin_case_strong; intros; lra.
Qed.

Lemma clamp_id (r : R) : - pow2 1024 <= r <= pow2 1024 -> clamp r = r.
Proof.
  intros H. unfold clamp.
  apply Rmax_case_strong; apply Rmin_case_strong; intros; lra.
Qed.

Lemma clamp_0 : clamp 0 = 0.
Proof. apply clamp_id. assert (H := pow2_pos 1024). lra. Qed.

Lemma clamp_high (r : R) : pow2 1024 <= r -> clamp r = pow2 1024.
Proof.
  intros H. assert (Hp := pow2_pos 1024). unfold clamp.
  apply Rmax_case_strong; apply Rmin_case_strong; intros; lra.
Qed.

Lemma clamp_low (r : R) : r <= - pow2 1024 -> clamp r = - pow2 1024.
Proof.
  intros H. assert (Hp := pow2_pos 1024). unfold clamp.
  apply Rmax_case_strong; apply Rmin_case_strong; intros; lra.
Qed.

(** What [SF_result] says in terms of values. *)
Lemma SF_result_val (s : bool) (r : R) (f : spec_float) :
  SF_result s r f ->
  valid_binary f = true /\ f <> S754_nan /\ SFval f = clamp (signed s r) /\
  (r < pow2 1024 -> SFfinite f = true /\ B2R f = signed s r).
Proof.
  assert (Hp := pow2_pos 1024).
  intros [[-> ->]|[[Hr (m & e & -> & Hb & Hv)]|[Hr ->]]].
  - repeat split; try discriminate.
    + cbn [SFval B2R]. destruct s; cbn [signed]; rewrite ?Ropp_0, clamp_0; reflexivity.
    + destruct s; cbn [signed B2R]; lra.
  - repeat split; try discriminate; try assumption.
    + cbn [SFval B2R]. rewrite <- Hv. symmetry. apply clamp_id.
      destruct s; cbn [signed]; lra.
    + cbn [B2R]. now rewrite Hv.
  - repeat split; try discriminate.
    + cbn [SFval]. destruct s; cbn [signed].
      * symmetry. apply clamp_low. lra.
      * symmetry. now apply clamp_high.
    + lra.
    + lra.
Qed.

Lemma rounds_signed (s : bool) (x r : R) :
  0 < x -> rounds_pos x r -> rounds (signed s x) (signed s r).
Proof.
  intros Hx H. destruct s; cbn [signed].
  - right. right. split; [lra|]. now rewrite !Ropp_involutive.
  - right. left. now split.
Qed.

Lemma signed_xorb (a b : bool) (x y : R) :
  signed a x * signed b y = signed (xorb a b) (x * y).
Proof. destruct a, b; cbn; ring. Qed.

(** ** The operations on finite numbers *)

Lemma SF_result_op (s : bool) (r : R) (f : spec_float) :
  0 <= r -> SF_result s r f -> op_result (signed s r) f.
Proof.
  intros Hr H. destruct (SF_result_val s r f H) as (Hv & Hn & Hval & Hfin).
  repeat split; try assumption.
  - apply Hfin. destruct s; cbn [signed] in *.
    + rewrite Rabs_Ropp, Rabs_pos_eq in H0; assumption.
    + rewrite Rabs_pos_eq in H0; assumption.
  - apply Hfin. destruct s; cbn [signed] in *.
    + rewrite Rabs_Ropp, Rabs_pos_eq in H0; assumption.
    + rewrite Rabs_pos_eq in H0; assumption.
Qed.

Lemma op_result_zero (s : bool) : op_result 0 (S754_zero s).
Proof.
  repeat split; try discriminate. cbn [SFval B2R]. now rewrite clamp_0.
Qed.

Lemma rounds_0 : rounds 0 0.
Proof. left. split; reflexivity. Qed.

Lemma fin_value_pos (m : positive) (e : Z) : 0 < IZR (Zpos m) * pow2 e.
Proof.
  apply Rmult_lt_0_compat; [apply IZR_lt; lia | apply pow2_pos].
Qed.

Lemma located_exact (m e : Z) : located (IZR m * pow2 e / pow2 e) m loc_Exact.
Proof. cbn [located]. apply mul_pow2_div. Qed.

Lemma fin_value_mag (m : positive) (e : Z) :
  is_mag (IZR (Zpos m) * pow2 e) (Zdigits2 (Zpos m) + e).
Proof.
  apply mag_of_located with loc_Exact; [lia | apply located_exact].
Qed.

Lemma rounds_pos_canonical (m : positive) (e : Z) :
  fexp64 (Zdigits2 (Zpos m) + e) = e ->
  rounds_pos (IZR (Zpos m) * pow2 e) (IZR (Zpos m) * pow2 e).
Proof.
  intros Hcan. exists (Zdigits2 (Zpos m) + e)%Z, (Zpos m).
  split; [apply fin_value_mag|]. rewrite Hcan, mul_pow2_div.
  split; [apply is_rne_IZR | reflexivity].
Qed.

Lemma rounds_B2R (f : spec_float) :
  valid_binary f = true -> rounds (B2R f) (B2R f).
Proof.
  destruct f as [s|s| |s m e]; try (intros _; apply rounds_0).
  intros Hv. cbn [SpecFloat.valid_binary] in Hv. apply bounded_canonical in Hv.
  cbn [B2R]. apply rounds_signed; [apply fin_value_pos|].
  now apply rounds_pos_canonical.
Qed.

Lemma op_result_B2R (f : spec_float) :
  valid_binary f = true -> SFfinite f = true -> op_result (B2R f) f.
Proof.
  intros Hv Hf. assert (Hr := SFval_range f Hv).
  destruct f as [s|s| |s m e]; try discriminate.
  - apply op_result_zero.
  - repeat split; try assumption; try discriminate.
    cbn [SFval] in *. symmetry. now apply clamp_id.
Qed.

(** *** Multiplication *)

Lemma Zdigits2_mul_lower (mx my : positive) :
  (Zdigits2 (Zpos mx) + Zdigits2 (Zpos my) - 1 <= Zdigits2 (Zpos (mx * my)))%Z.
Proof.
  destruct (Zdigits2_mag (Zpos mx)) as [Hlx _]; [lia|].
  destruct (Zdigits2_mag (Zpos my)) as [Hly _]; [lia|].
  destruct (Zdigits2_mag (Zpos (mx * my))) as [_ Hu]; [lia|].
  rewrite Pos2Z.inj_mul, mult_IZR in Hu.
  assert (Hpx := pow2_pos (Zdigits2 (Zpos mx) - 1)).
  assert (Hpy := pow2_pos (Zdigits2 (Zpos my) - 1)).
  assert (H : pow2 (Zdigits2 (Zpos mx) - 1 + (Zdigits2 (Zpos my) - 1))
              < pow2 (Zdigits2 (Zpos (mx * my)))).
  { rewrite pow2_add. eapply Rle_lt_trans; [|exact Hu].
    apply Rmult_le_compat; lra. }
  apply pow2_lt_inv in H. lia.
Qed.

Lemma SFmul_finite_spec (sx sy : bool) (mx my : positive) (ex ey : Z) :
  valid_binary (S754_finite sx mx ex) = true ->
  valid_binary (S754_finite sy my ey) = true ->
  exists r,
    rounds_pos (IZR (Zpos mx) * pow2 ex * (IZR (Zpos my) * pow2 ey)) r /\
    SF_result (xorb sx sy) r
      (SFmul prec emax (S754_finite sx mx ex) (S754_finite sy my ey)).
Proof.
  intros Hx Hy. cbn [SpecFloat.valid_binary] in Hx, Hy.
  apply bounded_canonical in Hx, Hy. destruct Hx as [Hx _], Hy as [Hy _].
  cbn [SFmul].
  assert (Hval : IZR (Zpos mx) * pow2 ex * (IZR (Zpos my) * pow2 ey)
                 = IZR (Zpos (mx * my)) * pow2 (ex + ey)).
  { rewrite Pos2Z.inj_mul, mult_IZR, pow2_add. ring. }
  rewrite Hval.
  apply binary_round_aux_correct with (g := (Zdigits2 (Zpos (mx * my)) + (ex + ey))%Z).
  - lia.
  - apply located_exact.
  - apply fin_value_mag.
  - assert (Hd := Zdigits2_mul_lower mx my).
    assert (Hdx := Zdigits2_pos (Zpos mx) ltac:(lia)).
    assert (Hdy := Zdigits2_pos (Zpos my) ltac:(lia)).
    unfold fexp64 in *. lia.
Qed.

Theorem SFmul_spec (x y : spec_float) :
  valid_binary x = true -> valid_binary y = true ->
  SFfinite x = true -> SFfinite y = true ->
  exists r, rounds (B2R x * B2R y) r /\ op_result r (SFmul prec emax x y).
Proof.
  intros Hx Hy Hfx Hfy.
  destruct x as [sx|sx| |sx mx ex]; try discriminate;
    destruct y as [sy|sy| |sy my ey]; try discriminate.
  - exists 0. cbn [B2R SFmul]. rewrite Rmult_0_l.
    split; [apply rounds_0 | apply op_result_zero].
  - exists 0. cbn [B2R SFmul]. rewrite Rmult_0_l.
    split; [apply rounds_0 | apply op_result_zero].
  - exists 0. cbn [B2R SFmul]. rewrite Rmult_0_r.
    split; [apply rounds_0 | apply op_result_zero].
  - destruct (SFmul_finite_spec sx sy mx my ex ey Hx Hy) as (r & Hr & Hres).
    exists (signed (xorb sx sy) r). cbn [B2R]. rewrite signed_xorb. split.
    + apply rounds_signed; [|assumption].
      apply Rmult_lt_0_compat; apply fin_value_pos.
    + apply SF_result_op; [|assumption]. now apply rounds_pos_nonneg in Hr.
Qed.

(** *** Normalisation of an integer mantissa *)

Lemma Pos_iter_xO (d : positive) (m : positive) :
  Zpos (Pos.iter xO m d) = (Zpos m * 2 ^ Zpos d)%Z.
Proof.
  induction d as [|d IH] using Pos.peano_ind.
  - cbn [Pos.iter]. rewrite Pos2Z.inj_xO. lia.
  - rewrite Pos.iter_succ, Pos2Z.inj_xO, IH, Pos2Z.inj_succ, Z.pow_succ_r by lia.
    ring.
Qed.

Lemma shl_align_spec (m : positive) (e e0 : Z) :
  let p := shl_align m e e0 in
  IZR (Zpos (fst p)) * pow2 (snd p) = IZR (Zpos m) * pow2 e /\
  snd p = Z.min e e0.
Proof.
  unfold shl_align. destruct (e0 - e)%Z as [|d|d] eqn:Hd; cbn [fst snd].
  - split; [reflexivity | lia].
  - split; [reflexivity | lia].
  - split; [|lia].
    rewrite Pos_iter_xO, mult_IZR, <- pow2_IZR by lia.
    rewrite Rmult_assoc, <- pow2_add. do 2 f_equal. lia.
Qed.

Lemma shl_align_fst (m : positive) (e e0 : Z) :
  (e0 <= e)%Z ->
  Zpos (fst (shl_align m e e0)) = (Zpos m * 2 ^ (e - e0))%Z.
Proof.
  intros He. unfold shl_align. destruct (e0 - e)%Z as [|d|d] eqn:Hd; cbn [fst]; try lia.
  - replace (e - e0)%Z with 0%Z by lia. cbn. lia.
  - rewrite Pos_iter_xO. do 2 f_equal. lia.
Qed.

Lemma binary_round_spec (s : bool) (m : positive) (e : Z) :
  exists r,
    rounds_pos (IZR (Zpos m) * pow2 e) r /\
    SF_result s r (binary_round prec emax s m e).
Proof.
  unfold binary_round. rewrite fexp64_eq.
  change (Zpos (digits2_pos m)) with (Zdigits2 (Zpos m)).
  set (g := (Zdigits2 (Zpos m) + e)%Z).
  destruct (shl_align_spec m e (fexp64 g)) as [Hv He].
  destruct (shl_align m e (fexp64 g)) as [mz ez]. cbn [fst snd] in *.
  rewrite <- Hv.
  apply binary_round_aux_correct with (g := g).
  - lia.
  - apply located_exact.
  - rewrite Hv. apply fin_value_mag.
  - lia.
Qed.

Theorem binary_normalize_spec (m e : Z) (sz : bool) :
  exists r,
    rounds (IZR m * pow2 e) r /\ op_result r (binary_normalize prec emax m e sz).
Proof.
  destruct m as [|p|p]; cbn [binary_normalize].
  - exists 0. rewrite Rmult_0_l. split; [apply rounds_0 | apply op_result_zero].
  - destruct (binary_round_spec false p e) as (r & Hr & Hres).
    exists (signed false r). split.
    + apply (rounds_signed false); [apply fin_value_pos | assumption].
    + apply SF_result_op; [|assumption]. now apply rounds_pos_nonneg in Hr.
  - destruct (binary_round_spec true p e) as (r & Hr & Hres).
    exists (signed true r). split.
    + replace (IZR (Zneg p) * pow2 e) with (signed true (IZR (Zpos p) * pow2 e)).
      * apply rounds_signed; [apply fin_value_pos | assumption].
      * cbn [signed]. change (Zneg p) with (- Zpos p)%Z. rewrite opp_IZR. ring.
    + apply SF_result_op; [|assumption]. now apply rounds_pos_nonneg in Hr.
Qed.

(** *** Division *)

Lemma new_location_located (nb k q : Z) :
  (0 <= k < nb)%Z ->
  located (IZR q + IZR k / IZR nb) q (new_location nb k).
Proof.
  intros [Hk Hnb].
  assert (Hnb' : 0 < IZR nb) by (apply IZR_lt; lia).
  set (rho := IZR k / IZR nb).
  assert (Hrho : rho * IZR nb = IZR k) by (unfold rho; field; lra).
  assert (Hk' : 0 <= IZR k) by (apply IZR_le; lia).
  assert (Hkn : IZR k < IZR nb) by (apply IZR_lt; lia).
  unfold new_location.
  destruct (Z.even nb) eqn:Hev.
  - unfold new_location_even. destruct (Z.eqb_spec k 0) as [->|Hne].
    + cbn [located]. unfold rho. rewrite Rdiv_0_l. ring.
    + assert (0 < IZR k) by (apply IZR_lt; lia).
      destruct (Z.compare_spec (2 * k) nb) as [Hc|Hc|Hc]; cbn [located].
      * apply (f_equal IZR) in Hc. rewrite mult_IZR in Hc. nra.
      * apply IZR_lt in Hc. rewrite mult_IZR in Hc. nra.
      * apply IZR_lt in Hc. rewrite mult_IZR in Hc. nra.
  - unfold new_location_odd. destruct (Z.eqb_spec k 0) as [->|Hne].
    + cbn [located]. unfold rho. rewrite Rdiv_0_l. ring.
    + assert (0 < IZR k) by (apply IZR_lt; lia).
      assert (Hodd : (2 * k <> nb)%Z).
      { intros <-. rewrite Z.even_mul in Hev. discriminate. }
      destruct (Z.compare_spec (2 * k + 1) nb) as [Hc|Hc|Hc]; cbn [located].
      * assert (Hc' : (2 * k < nb)%Z) by lia.
        apply IZR_lt in Hc'. rewrite mult_IZR in Hc'. nra.
      * assert (Hc' : (2 * k < nb)%Z) by lia.
        apply IZR_lt in Hc'. rewrite mult_IZR in Hc'. nra.
      * assert (Hc' : (nb < 2 * k)%Z) by lia.
        apply IZR_lt in Hc'. rewrite mult_IZR in Hc'. nra.
Qed.

Lemma SFdiv_finite_spec (sx sy : bool) (mx my : positive) (ex ey : Z) :
  valid_binary (S754_finite sx mx ex) = true ->
  valid_binary (S754_finite sy my ey) = true ->
  exists r,
    rounds_pos (IZR (Zpos mx) * pow2 ex / (IZR (Zpos my) * pow2 ey)) r /\
    SF_result (xorb sx sy) r
      (SFdiv prec emax (S754_finite sx mx ex) (S754_finite sy my ey)).
Proof.
  intros Hx Hy. cbn [SpecFloat.valid_binary] in Hx, Hy.
  apply bounded_canonical in Hx, Hy. destruct Hx as [Hx _], Hy as [Hy _].
  cbn [SFdiv]. unfold SFdiv_core_binary. rewrite fexp64_eq.
  set (d1 := Zdigits2 (Zpos mx)) in *. set (d2 := Zdigits2 (Zpos my)) in *.
  set (D := (d1 + ex - (d2 + ey))%Z).
  set (e' := Z.min (fexp64 D) (ex - ey)).
  set (s := (ex - ey - e')%Z).
  assert (Hs : (0 <= s)%Z) by (unfold s, e'; lia).
  set (m' := match s with
             | 0%Z => Zpos mx
             | Zpos _ => Z.shiftl (Zpos mx) s
             | Zneg _ => 0%Z
             end).
  assert (Hm' : m' = (Zpos mx * 2 ^ s)%Z).
  { unfold m'. destruct s as [|p|p] eqn:Hsp; try lia.
    apply Z.shiftl_mul_pow2. lia. }
  clearbody m'.
  assert (Hpow : (0 < 2 ^ s)%Z) by (apply Z.pow_pos_nonneg; lia).
  assert (Hm'0 : (0 <= m')%Z) by (rewrite Hm'; lia).
  assert (Hdiv := Z_div_mod m' (Zpos my) ltac:(lia)).
  destruct (Z.div_eucl m' (Zpos my)) as [q r]. destruct Hdiv as [Hqr Hr].
  assert (Hq : (0 <= q)%Z) by nia.
  assert (Hp1 := pow2_pos ex). assert (Hp2 := pow2_pos ey).
  assert (Hpe := pow2_pos e').
  assert (Hmx : 0 < IZR (Zpos mx)) by (apply IZR_lt; lia).
  assert (Hmy : 0 < IZR (Zpos my)) by (apply IZR_lt; lia).
  set (x := IZR (Zpos mx) * pow2 ex / (IZR (Zpos my) * pow2 ey)).
  assert (Hxq : x / pow2 e' = IZR q + IZR r / IZR (Zpos my)).
  { assert (Hs' : pow2 ex = pow2 s * pow2 e' * pow2 ey).
    { rewrite <- !pow2_add. f_equal. unfold s. lia. }
    assert (HIm : IZR m' = IZR q * IZR (Zpos my) + IZR r).
    { rewrite Hqr, plus_IZR, mult_IZR. ring. }
    rewrite Hm', mult_IZR, <- pow2_IZR in HIm by lia.
    unfold x. rewrite Hs'. field_simplify; try lra.
    rewrite HIm. field. lra. }
  assert (Hloc : located (x / pow2 e') q (new_location (Zpos my) r)).
  { rewrite Hxq. now apply new_location_located. }
  (* the magnitude of the quotient is [D] or [D + 1] *)
  destruct (Zdigits2_mag (Zpos mx)) as [Hl1 Hu1]; [lia|].
  destruct (Zdigits2_mag (Zpos my)) as [Hl2 Hu2]; [lia|].
  fold d1 in Hl1, Hu1. fold d2 in Hl2, Hu2.
  assert (Hxpos : 0 < x).
  { unfold x. apply Rdiv_lt_0_compat; apply Rmult_lt_0_compat; assumption. }
  assert (Hxden : x * (IZR (Zpos my) * pow2 ey) = IZR (Zpos mx) * pow2 ex).
  { unfold x. field. split; lra. }
  assert (Hxl : pow2 (D - 1) < x).
  { assert (Hk : pow2 (D - 1) * pow2 (d2 + ey) = pow2 (d1 - 1) * pow2 ex).
    { rewrite <- !pow2_add. f_equal. unfold D. lia. }
    assert (Hden : IZR (Zpos my) * pow2 ey < pow2 (d2 + ey)).
    { rewrite pow2_add. apply Rmult_lt_compat_r; assumption. }
    assert (Hpd := pow2_pos (D - 1)). assert (Hpd1 := pow2_pos (d1 - 1)).
    assert (Hnum : pow2 (d1 - 1) * pow2 ex <= IZR (Zpos mx) * pow2 ex).
    { apply Rmult_le_compat_r; lra. }
    assert (Hden0 : 0 < IZR (Zpos my) * pow2 ey) by (apply Rmult_lt_0_compat; assumption).
    destruct (Rlt_le_dec (pow2 (D - 1)) x) as [H|H]; [assumption|exfalso].
    assert (x * (IZR (Zpos my) * pow2 ey) < pow2 (D - 1) * pow2 (d2 + ey)).
    { apply Rle_lt_trans with (pow2 (D - 1) * (IZR (Zpos my) * pow2 ey)).
      - apply Rmult_le_compat_r; lra.
      - apply Rmult_lt_compat_l; assumption. }
    lra. }
  assert (Hxu : x < pow2 (D + 1)).
  { assert (Hk : pow2 (D + 1) * pow2 (d2 - 1 + ey) = pow2 d1 * pow2 ex).
    { rewrite <- !pow2_add. f_equal. unfold D. lia. }
    assert (Hden : pow2 (d2 - 1 + ey) <= IZR (Zpos my) * pow2 ey).
    { rewrite pow2_add. apply Rmult_le_compat_r; lra. }
    assert (Hpd := pow2_pos (D + 1)). assert (Hpd2 := pow2_pos (d2 - 1 + ey)).
    assert (Hnum : IZR (Zpos mx) * pow2 ex < pow2 d1 * pow2 ex).
    { apply Rmult_lt_compat_r; assumption. }
    destruct (Rlt_le_dec x (pow2 (D + 1))) as [H|H]; [assumption|exfalso].
    assert (pow2 (D + 1) * pow2 (d2 - 1 + ey) <= x * (IZR (Zpos my) * pow2 ey)).
    { apply Rle_trans with (pow2 (D + 1) * (IZR (Zpos my) * pow2 ey)).
      - apply Rmult_le_compat_l; lra.
      - apply Rmult_le_compat_r; [|assumption].
        apply Rlt_le, Rmult_lt_0_compat; assumption. }
    lra. }
  assert (Hg : exists g, is_mag x g /\ (D <= g)%Z).
  { destruct (Rlt_le_dec x (pow2 D)) as [H|H].
    - exists D. split; [|lia]. split; lra.
    - exists (D + 1)%Z. split; [|lia]. split; [|assumption].
      now replace (D + 1 - 1)%Z with D by lia. }
  destruct Hg as (g & Hmag & HDg).
  apply binary_round_aux_correct with (g := g); try assumption.
  assert (H := fexp64_mono D g HDg). unfold e'. lia.
Qed.

Theorem SFdiv_spec (x y : spec_float) :
  valid_binary x = true -> valid_binary y = true ->
  SFfinite x = true -> SFfinite y = true -> B2R y <> 0 ->
  exists r, rounds (B2R x / B2R y) r /\ op_result r (SFdiv prec emax x y).
Proof.
  intros Hx Hy Hfx Hfy Hy0.
  destruct y as [sy|sy| |sy my ey]; try discriminate.
  { exfalso. apply Hy0. reflexivity. }
  destruct x as [sx|sx| |sx mx ex]; try discriminate.
  - exists 0. cbn [B2R SFdiv]. unfold Rdiv. rewrite Rmult_0_l.
    split; [apply rounds_0 | apply op_result_zero].
  - destruct (SFdiv_finite_spec sx sy mx my ex ey Hx Hy) as (r & Hr & Hres).
    exists (signed (xorb sx sy) r).
    assert (Hpx := fin_value_pos mx ex). assert (Hpy := fin_value_pos my ey).
    replace (B2R (S754_finite sx mx ex) / B2R (S754_finite sy my ey))
      with (signed (xorb sx sy) (IZR (Zpos mx) * pow2 ex / (IZR (Zpos my) * pow2 ey))).
    + split.
      * apply rounds_signed; [|assumption]. now apply Rdiv_lt_0_compat.
      * apply SF_result_op; [|assumption]. now apply rounds_pos_nonneg in Hr.
    + assert (Hp2 := pow2_pos ey).
      assert (Hmy : 0 < IZR (Zpos my)) by (apply IZR_lt; lia).
      cbn [B2R]. destruct sx, sy; cbn [signed xorb]; field; repeat split; lra.
Qed.

(** *** Addition and subtraction *)

Lemma cond_Zopp_signed (s : bool) (m : Z) : IZR (cond_Zopp s m) = signed s (IZR m).
Proof. destruct s; cbn [cond_Zopp signed]; [apply opp_IZR | reflexivity]. Qed.

Lemma aligned_value (s : bool) (m : positive) (e ez : Z) :
  (ez <= e)%Z ->
  IZR (cond_Zopp s (Zpos (fst (shl_align m e ez)))) * pow2 ez
  = signed s (IZR (Zpos m) * pow2 e).
Proof.
  intros He. rewrite cond_Zopp_signed, shl_align_fst, mult_IZR, <- pow2_IZR by lia.
  replace (pow2 e) with (pow2 (e - ez) * pow2 ez).
  - destruct s; cbn [signed]; ring.
  - rewrite <- pow2_add. f_equal. lia.
Qed.

Theorem SFadd_spec (x y : spec_float) :
  valid_binary x = true -> valid_binary y = true ->
  SFfinite x = true -> SFfinite y = true ->
  exists r, rounds (B2R x + B2R y) r /\ op_result r (SFadd prec emax x y).
Proof.
  intros Hx Hy Hfx Hfy.
  destruct x as [sx|sx| |sx mx ex]; try discriminate;
    destruct y as [sy|sy| |sy my ey]; try discriminate.
  - exists 0. cbn [B2R]. rewrite Rplus_0_l. split; [apply rounds_0|].
    cbn [SFadd]. destruct sx, sy; apply op_result_zero.
  - exists (B2R (S754_finite sy my ey)). cbn [B2R SFadd]. rewrite Rplus_0_l.
    split; [now apply (rounds_B2R (S754_finite sy my ey))|].
    now apply (op_result_B2R (S754_finite sy my ey)).
  - exists (B2R (S754_finite sx mx ex)). cbn [B2R SFadd]. rewrite Rplus_0_r.
    split; [now apply (rounds_B2R (S754_finite sx mx ex))|].
    now apply (op_result_B2R (S754_finite sx mx ex)).
  - cbn [SFadd B2R].
    set (ez := Z.min ex ey).
    set (M := (cond_Zopp sx (Zpos (fst (shl_align mx ex ez)))
               + cond_Zopp sy (Zpos (fst (shl_align my ey ez))))%Z).
    destruct (binary_normalize_spec M ez false) as (r & Hr & Hres).
    exists r. split; [|assumption].
    replace (signed sx (IZR (Zpos mx) * pow2 ex) + signed sy (IZR (Zpos my) * pow2 ey))
      with (IZR M * pow2 ez); [assumption|].
    unfold M. rewrite plus_IZR, Rmult_plus_distr_r.
    rewrite !aligned_value by (unfold ez; lia). reflexivity.
Qed.

Theorem SFsub_spec (x y : spec_float) :
  valid_binary x = true -> valid_binary y = true ->
  SFfinite x = true -> SFfinite y = true ->
  exists r, rounds (B2R x - B2R y) r /\ op_result r (SFsub prec emax x y).
Proof.
  intros Hx Hy Hfx Hfy.
  destruct x as [sx|sx| |sx mx ex]; try discriminate;
    destruct y as [sy|sy| |sy my ey]; try discriminate.
  - exists 0. cbn [B2R]. rewrite Rminus_0_r. split; [apply rounds_0|].
    cbn [SFsub]. destruct sx, sy; apply op_result_zero.
  - exists (B2R (S754_finite (negb sy) my ey)). cbn [SFsub].
    assert (Hy' : valid_binary (S754_finite (negb sy) my ey) = true) by exact Hy.
    replace (B2R (S754_zero sx) - B2R (S754_finite sy my ey))
      with (B2R (S754_finite (negb sy) my ey))
      by (cbn [B2R]; destruct sy; cbn [negb signed]; ring).
    split; [now apply rounds_B2R | now apply op_result_B2R].
  - exists (B2R (S754_finite sx mx ex)). cbn [B2R SFsub]. rewrite Rminus_0_r.
    split; [now apply (rounds_B2R (S754_finite sx mx ex))|].
    now apply (op_result_B2R (S754_finite sx mx ex)).
  - cbn [SFsub B2R].
    set (ez := Z.min ex ey).
    set (M := (cond_Zopp sx (Zpos (fst (shl_align mx ex ez)))
               - cond_Zopp sy (Zpos (fst (shl_align my ey ez))))%Z).
    destruct (binary_normalize_spec M ez false) as (r & Hr & Hres).
    exists r. split; [|assumption].
    replace (signed sx (IZR (Zpos mx) * pow2 ex) - signed sy (IZR (Zpos my) * pow2 ey))
      with (IZR M * pow2 ez); [assumption|].
    unfold M. rewrite minus_IZR, Rmult_minus_distr_r.
    rewrite !aligned_value by (unfold ez; lia). reflexivity.
Qed.

(** ** Monotonicity of the operations *)

Lemma SFval_finite (f : spec_float) : SFfinite f = true -> SFval f = B2R f.
Proof. destruct f; try discriminate; reflexivity. Qed.

Lemma SFfinite_range (f : spec_float) :
  valid_binary f = true -> SFfinite f = true ->
  - pow2 1024 < B2R f < pow2 1024.
Proof.
  intros Hv Hf. assert (Hp := pow2_pos 1024).
  destruct f as [s|s| |s m e]; try discriminate; cbn [B2R]; [lra|].
  apply finite_range in Hv. destruct s; cbn [signed]; lra.
Qed.

Lemma SFcases (f : spec_float) :
  f = S754_nan \/ f = S754_infinity true \/ f = S754_infinity false \/
  SFfinite f = true.
Proof.
  destruct f as [s|[|]| |s m e]; auto.
Qed.

Lemma SFle_refl (f : spec_float) : f <> S754_nan -> SFle f f.
Proof. intros H. repeat split; try assumption. lra. Qed.

Lemma SFle_SFwle (x y : spec_float) : SFle x y -> SFwle x y.
Proof. intros (_ & _ & H). right. now right. Qed.

Lemma SFwle_SFle (x y : spec_float) :
  x <> S754_nan -> y <> S754_nan -> SFwle x y -> SFle x y.
Proof.
  intros Hx Hy [H|[H|H]]; try contradiction. repeat split; assumption.
Qed.

Lemma op_result_le (r1 r2 : R) (f1 f2 : spec_float) :
  r1 <= r2 -> op_result r1 f1 -> op_result r2 f2 -> SFle f1 f2.
Proof.
  intros Hr (_ & Hn1 & Hv1 & _) (_ & Hn2 & Hv2 & _).
  repeat split; try assumption. rewrite Hv1, Hv2. now apply clamp_mono.
Qed.

Section Lifting.

(** An operation [op] of one argument that computes, on finite numbers, a
    result related by [P] to the real value of its argument. *)
Variable op : spec_float -> spec_float.
Variable P : R -> R -> Prop.

Hypothesis op_spec :
  forall x, valid_binary x = true -> SFfinite x = true ->
            exists r, P (B2R x) r /\ op_result r (op x).

Lemma lift_valid_inc (x : spec_float) :
  (forall s, op (S754_infinity s) = S754_infinity s) ->
  valid_binary x = true -> x <> S754_nan ->
  valid_binary (op x) = true /\ op x <> S754_nan.
Proof.
  intros Hinf Hv Hn.
  destruct (SFcases x) as [->|[->|[->|Hf]]]; try contradiction;
    rewrite ?Hinf; try (split; [reflexivity|discriminate]).
  destruct (op_spec x Hv Hf) as (r & _ & Hres). split; apply Hres.
Qed.

Lemma lift_increasing :
  (forall v1 v2 r1 r2, v1 <= v2 -> P v1 r1 -> P v2 r2 -> r1 <= r2) ->
  (forall s, op (S754_infinity s) = S754_infinity s) ->
  forall x y,
    valid_binary x = true -> valid_binary y = true ->
    SFle x y -> SFle (op x) (op y).
Proof.
  intros Hmono Hinf x y Hvx Hvy (Hnx & Hny & Hle).
  assert (Hp := pow2_pos 1024).
  destruct (lift_valid_inc x Hinf Hvx Hnx) as [Hvox Hnox].
  destruct (lift_valid_inc y Hinf Hvy Hny) as [Hvoy Hnoy].
  assert (Hrx := SFval_range _ Hvox). assert (Hry := SFval_range _ Hvoy).
  destruct (SFcases x) as [->|[->|[->|Hfx]]]; try contradiction;
    destruct (SFcases y) as [->|[->|[->|Hfy]]]; try contradiction;
    rewrite ?Hinf in *; repeat split; try assumption; try discriminate;
    cbn [SFval signed] in *; try lra.
  - assert (H := SFfinite_range y Hvy Hfy). rewrite SFval_finite in Hle by assumption. lra.
  - assert (H := SFfinite_range x Hvx Hfx). rewrite SFval_finite in Hle by assumption. lra.
  - rewrite !SFval_finite in Hle by assumption.
    destruct (op_spec x Hvx Hfx) as (r1 & HP1 & Hres1).
    destruct (op_spec y Hvy Hfy) as (r2 & HP2 & Hres2).
    apply (op_result_le r1 r2); try assumption. eapply Hmono; eauto.
Qed.

Lemma lift_valid_dec (x : spec_float) :
  (forall s, op (S754_infinity s) = S754_infinity (negb s)) ->
  valid_binary x = true -> x <> S754_nan ->
  valid_binary (op x) = true /\ op x <> S754_nan.
Proof.
  intros Hinf Hv Hn.
  destruct (SFcases x) as [->|[->|[->|Hf]]]; try contradiction;
    rewrite ?Hinf; try (split; [reflexivity|discriminate]).
  destruct (op_spec x Hv Hf) as (r & _ & Hres). split; apply Hres.
Qed.

Lemma lift_decreasing :
  (forall v1 v2 r1 r2, v1 <= v2 -> P v1 r1 -> P v2 r2 -> r2 <= r1) ->
  (forall s, op (S754_infinity s) = S754_infinity (negb s)) ->
  forall x y,
    valid_binary x = true -> valid_binary y = true ->
    SFle x y -> SFle (op y) (op x).
Proof.
  intros Hmono Hinf x y Hvx Hvy (Hnx & Hny & Hle).
  assert (Hp := pow2_pos 1024).
  destruct (lift_valid_dec x Hinf Hvx Hnx) as [Hvox Hnox].
  destruct (lift_valid_dec y Hinf Hvy Hny) as [Hvoy Hnoy].
  assert (Hrx := SFval_range _ Hvox). assert (Hry := SFval_range _ Hvoy).
  destruct (SFcases x) as [->|[->|[->|Hfx]]]; try contradiction;
    destruct (SFcases y) as [->|[->|[->|Hfy]]]; try contradiction;
    rewrite ?Hinf in *; repeat split; try assumption; try discriminate;
    cbn [SFval signed negb] in *; try lra.
  - assert (H := SFfinite_range y Hvy Hfy). rewrite SFval_finite in Hle by assumption. lra.
  - assert (H := SFfinite_range x Hvx Hfx). rewrite SFval_finite in Hle by assumption. lra.
  - rewrite !SFval_finite in Hle by assumption.
    destruct (op_spec x Hvx Hfx) as (r1 & HP1 & Hres1).
    destruct (op_spec y Hvy Hfy) as (r2 & HP2 & Hres2).
    apply (op_result_le r2 r1); try assumption. eapply Hmono; eauto.
Qed.

End Lifting.

Lemma SFpositive_B2R (c : spec_float) : SFpositive c -> 0 < B2R c.
Proof. intros (m & e & ->). cbn [B2R signed]. apply fin_value_pos. Qed.

Lemma SFpositive_finite (c : spec_float) : SFpositive c -> SFfinite c = true.
Proof. now intros (m & e & ->). Qed.

Lemma SFmul_le_pos_r (c x y : spec_float) :
  valid_binary c = true -> SFpositive c ->
  valid_binary x = true -> valid_binary y = true ->
  SFle x y -> SFle (SFmul prec emax x c) (SFmul prec emax y c).
Proof.
  intros Hvc Hc. assert (HC := SFpositive_B2R c Hc).
  assert (Hfc := SFpositive_finite c Hc).
  apply (lift_increasing (fun x => SFmul prec emax x c)
           (fun v r => rounds (v * B2R c) r)).
  - intros x0 Hv Hf. now apply SFmul_spec.
  - intros v1 v2 r1 r2 Hv H1 H2. eapply rounds_mono; [|exact H1|exact H2]. nra.
  - intros s. destruct Hc as (m & e & ->). cbn. now destruct s.
Qed.

Lemma SFmul_le_pos_l (c x y : spec_float) :
  valid_binary c = true -> SFpositive c ->
  valid_binary x = true -> valid_binary y = true ->
  SFle x y -> SFle (SFmul prec emax c x) (SFmul prec emax c y).
Proof.
  intros Hvc Hc. assert (HC := SFpositive_B2R c Hc).
  assert (Hfc := SFpositive_finite c Hc).
  apply (lift_increasing (fun x => SFmul prec emax c x)
           (fun v r => rounds (B2R c * v) r)).
  - intros x0 Hv Hf. now apply SFmul_spec.
  - intros v1 v2 r1 r2 Hv H1 H2. eapply rounds_mono; [|exact H1|exact H2]. nra.
  - intros s. destruct Hc as (m & e & ->). cbn. now destruct s.
Qed.

Lemma SFdiv_le_pos_r (c x y : spec_float) :
  valid_binary c = true -> SFpositive c ->
  valid_binary x = true -> valid_binary y = true ->
  SFle x y -> SFle (SFdiv prec emax x c) (SFdiv prec emax y c).
Proof.
  intros Hvc Hc. assert (HC := SFpositive_B2R c Hc).
  assert (Hfc := SFpositive_finite c Hc).
  apply (lift_increasing (fun x => SFdiv prec emax x c)
           (fun v r => rounds (v / B2R c) r)).
  - intros x0 Hv Hf. apply SFdiv_spec; try assumption. lra.
  - intros v1 v2 r1 r2 Hv H1 H2.
    assert (v1 / B2R c <= v2 / B2R c).
    { unfold Rdiv. apply Rmult_le_compat_r; [|assumption].
      apply Rlt_le, Rinv_0_lt_compat, HC. }
    apply (rounds_mono _ _ _ _ H H1 H2).
  - intros s. destruct Hc as (m & e & ->). cbn. now destruct s.
Qed.

Lemma SFadd_le_r (c x y : spec_float) :
  valid_binary c = true -> SFfinite c = true ->
  valid_binary x = true -> valid_binary y = true ->
  SFle x y -> SFle (SFadd prec emax x c) (SFadd prec emax y c).
Proof.
  intros Hvc Hfc.
  apply (lift_increasing (fun x => SFadd prec emax x c)
           (fun v r => rounds (v + B2R c) r)).
  - intros x0 Hv Hf. now apply SFadd_spec.
  - intros v1 v2 r1 r2 Hv H1 H2. eapply rounds_mono; [|exact H1|exact H2]. lra.
  - intros s. destruct c; try discriminate; reflexivity.
Qed.

Lemma SFadd_le_l (c x y : spec_float) :
  valid_binary c = true -> SFfinite c = true ->
  valid_binary x = true -> valid_binary y = true ->
  SFle x y -> SFle (SFadd prec emax c x) (SFadd prec emax c y).
Proof.
  intros Hvc Hfc.
  apply (lift_increasing (fun x => SFadd prec emax c x)
           (fun v r => rounds (B2R c + v) r)).
  - intros x0 Hv Hf. now apply SFadd_spec.
  - intros v1 v2 r1 r2 Hv H1 H2. eapply rounds_mono; [|exact H1|exact H2]. lra.
  - intros s. destruct c; try discriminate; reflexivity.
Qed.

Lemma SFsub_le_anti (c x y : spec_float) :
  valid_binary c = true -> SFfinite c = true ->
  valid_binary x = true -> valid_binary y = true ->
  SFle x y -> SFle (SFsub prec emax c y) (SFsub prec emax c x).
Proof.
  intros Hvc Hfc.
  apply (lift_decreasing (fun x => SFsub prec emax c x)
           (fun v r => rounds (B2R c - v) r)).
  - intros x0 Hv Hf. now apply SFsub_spec.
  - intros v1 v2 r1 r2 Hv H1 H2. eapply rounds_mono; [|exact H2|exact H1]. lra.
  - intros s. destruct c; try discriminate; reflexivity.
Qed.

(** ** Integers and [Math.round] *)

Lemma is_floor_mono (y1 y2 : R) (n1 n2 : Z) :
  y1 <= y2 -> is_floor y1 n1 -> is_floor y2 n2 -> (n1 <= n2)%Z.
Proof.
  intros Hy [Hl1 Hu1] [Hl2 Hu2].
  assert (H : IZR n1 < IZR (n2 + 1)) by (rewrite plus_IZR; lra).
  apply lt_IZR in H. lia.
Qed.

Lemma js_rounds_mono (v1 v2 r1 r2 : R) :
  v1 <= v2 -> js_rounds v1 r1 -> js_rounds v2 r2 -> r1 <= r2.
Proof.
  intros Hv (n1 & H1 & ->) (n2 & H2 & ->).
  apply IZR_le. apply (is_floor_mono (v1 + / 2) (v2 + / 2)); [lra|assumption..].
Qed.

Lemma js_rounds_int (n : Z) : js_rounds (IZR n) (IZR n).
Proof.
  exists n. split; [|reflexivity]. split; lra.
Qed.

Lemma js_rounds_error (v r : R) : js_rounds v r -> v - / 2 < r <= v + / 2.
Proof.
  intros (n & [Hl Hu] & ->). lra.
Qed.

Lemma rounds_pos_int (n : Z) :
  (0 < n < 2 ^ 53)%Z -> rounds_pos (IZR n) (IZR n).
Proof.
  intros [Hn0 Hn].
  assert (Hmag := Zdigits2_mag n Hn0).
  assert (Hd := Zdigits2_pos n Hn0).
  set (d := Zdigits2 n) in *.
  assert (Hd53 : (d <= 53)%Z).
  { destruct Hmag as [Hl _]. apply IZR_lt in Hn. rewrite <- pow2_IZR in Hn by lia.
    assert (d - 1 < 53)%Z by (apply pow2_lt_inv; lra). lia. }
  exists d, (n * 2 ^ (53 - d))%Z. split; [assumption|].
  replace (fexp64 d) with (d - 53)%Z by (unfold fexp64; lia).
  assert (Hp := pow2_pos (d - 53)).
  assert (Hk : pow2 (53 - d) * pow2 (d - 53) = 1).
  { rewrite <- pow2_add. now replace (53 - d + (d - 53))%Z with 0%Z by lia. }
  rewrite mult_IZR, <- pow2_IZR by lia. split.
  - replace (IZR n / pow2 (d - 53)) with (IZR n * pow2 (53 - d)).
    + rewrite (pow2_IZR (53 - d)), <- mult_IZR by lia. apply is_rne_IZR.
    + field_simplify_eq; [|lra]. rewrite Rmult_assoc, Hk. ring.
  - rewrite Rmult_assoc, Hk. ring.
Qed.

Lemma rounds_int (n : Z) : (Z.abs n < 2 ^ 53)%Z -> rounds (IZR n) (IZR n).
Proof.
  intros Hn. destruct (Z.lt_trichotomy n 0) as [H|[->|H]].
  - right. right. split; [apply IZR_lt; lia|].
    rewrite <- opp_IZR. apply rounds_pos_int. lia.
  - apply rounds_0.
  - right. left. split; [apply IZR_lt; lia|]. apply rounds_pos_int. lia.
Qed.

Lemma binary_normalize_int (n : Z) (s : bool) :
  (Z.abs n < 2 ^ 53)%Z -> op_result (IZR n) (binary_normalize prec emax n 0 s).
Proof.
  intros Hn. destruct (binary_normalize_spec n 0 s) as (r & Hr & Hres).
  rewrite pow2_0, Rmult_1_r in Hr.
  now rewrite (rounds_unique _ _ _ (rounds_int n Hn) Hr).
Qed.

Theorem SFround_spec (x : spec_float) :
  valid_binary x = true -> SFfinite x = true ->
  exists r, js_rounds (B2R x) r /\ op_result r (SFround x).
Proof.
  intros Hv Hf. destruct x as [s|s| |s m e]; try discriminate.
  - exists 0. split; [apply (js_rounds_int 0) | apply op_result_zero].
  - cbn [SFround]. destruct (Z.leb_spec 0 e) as [He|He].
    + exists (B2R (S754_finite s m e)). split; [|now apply op_result_B2R].
      cbn [B2R]. rewrite pow2_IZR, <- mult_IZR by lia.
      destruct s; cbn [signed]; [rewrite <- opp_IZR|]; apply js_rounds_int.
    + cbv zeta.
      set (M := cond_Zopp s (Zpos m)).
      set (q := (2 ^ (1 - e))%Z). set (a := (2 * M + 2 ^ (- e))%Z).
      assert (Hq : (0 < q)%Z) by (apply Z.pow_pos_nonneg; lia).
      assert (Hdiv := Z_div_mod a q ltac:(lia)).
      assert (Hn : (a / q)%Z = fst (Z.div_eucl a q)) by reflexivity.
      destruct (Z.div_eucl a q) as [n k]. cbn [fst] in Hn. rewrite Hn.
      destruct Hdiv as [Hak Hk].
      assert (Hpe := pow2_pos e). assert (Hpne := pow2_pos (- e)).
      assert (Hinv : pow2 e * pow2 (- e) = 1).
      { rewrite <- pow2_add. now replace (e + - e)%Z with 0%Z by lia. }
      assert (HIq : IZR q = 2 * pow2 (- e)).
      { unfold q. rewrite <- pow2_IZR by lia.
        replace (1 - e)%Z with (- e + 1)%Z by lia. apply pow2_succ. }
      assert (HIa : IZR a = 2 * IZR M + pow2 (- e)).
      { unfold a. rewrite plus_IZR, mult_IZR, <- pow2_IZR by lia. reflexivity. }
      assert (HB : B2R (S754_finite s m e) = IZR M * pow2 e).
      { cbn [B2R]. unfold M. rewrite cond_Zopp_signed.
        destruct s; cbn [signed]; ring. }
      assert (Hval : (B2R (S754_finite s m e) + / 2) * IZR q = IZR a).
      { rewrite HB, HIq, HIa.
        replace ((IZR M * pow2 e + / 2) * (2 * pow2 (- e)))
          with (2 * IZR M * (pow2 e * pow2 (- e)) + pow2 (- e)) by field.
        rewrite Hinv. ring. }
      assert (HIak : IZR a = IZR q * IZR n + IZR k).
      { rewrite Hak, plus_IZR, mult_IZR. reflexivity. }
      assert (Hk0 : 0 <= IZR k) by (apply IZR_le; lia).
      assert (Hkq : IZR k < IZR q) by (apply IZR_lt; lia).
      assert (HIq0 : 0 < IZR q) by (apply IZR_lt; lia).
      assert (Hfloor : is_floor (B2R (S754_finite s m e) + / 2) n).
      { split.
        - destruct (Rle_lt_dec (IZR n) (B2R (S754_finite s m e) + / 2)); [assumption|].
          exfalso. nra.
        - destruct (Rlt_le_dec (B2R (S754_finite s m e) + / 2) (IZR n + 1)); [assumption|].
          exfalso. nra. }
      exists (IZR n). split; [now exists n|].
      apply binary_normalize_int.
      (* the argument is below [2^52] in magnitude *)
      assert (Hm : IZR (Zpos m) * pow2 e < pow2 52).
      { cbn [SpecFloat.valid_binary] in Hv. apply bounded_canonical in Hv.
        destruct Hv as [Hcan _].
        destruct (Zdigits2_mag (Zpos m)) as [_ Hu]; [lia|].
        apply Rlt_le_trans with (pow2 (Zdigits2 (Zpos m)) * pow2 e).
        - apply Rmult_lt_compat_r; assumption.
        - rewrite <- pow2_add. apply pow2_le. unfold fexp64 in Hcan. lia. }
      assert (Habs : - pow2 52 < B2R (S754_finite s m e) < pow2 52).
      { assert (Hpos := fin_value_pos m e).
        cbn [B2R]. destruct s; cbn [signed]; lra. }
      destruct Hfloor as [Hfl Hfu].
      rewrite (pow2_IZR 52) in Habs by lia.
      assert (H1 : IZR n < IZR (2 ^ 52 + 1)) by (rewrite plus_IZR; lra).
      assert (H2 : IZR (- 2 ^ 52 - 1) < IZR n).
      { rewrite minus_IZR, opp_IZR. lra. }
      apply lt_IZR in H1, H2.
      change (2 ^ 52)%Z with 4503599627370496%Z in *.
      change (2 ^ 53)%Z with 9007199254740992%Z. lia.
Qed.

Lemma SFround_le (x y : spec_float) :
  valid_binary x = true -> valid_binary y = true ->
  SFle x y -> SFle (SFround x) (SFround y).
Proof.
  apply (lift_increasing SFround js_rounds).
  - apply SFround_spec.
  - apply js_rounds_mono.
  - reflexivity.
Qed.

Lemma SFround_valid (x : spec_float) :
  valid_binary x = true -> valid_binary (SFround x) = true.
Proof.
  intros Hv. destruct (SFcases x) as [->|[->|[->|Hf]]]; try reflexivity.
  destruct (SFround_spec x Hv Hf) as (r & _ & Hres). apply Hres.
Qed.

(** ** Monotonicity up to NaN *)

Lemma SFwle_lift (op : spec_float -> spec_float) :
  op S754_nan = S754_nan ->
  (forall x y, valid_binary x = true -> valid_binary y = true ->
               SFle x y -> SFle (op x) (op y)) ->
  forall x y, valid_binary x = true -> valid_binary y = true ->
              SFwle x y -> SFwle (op x) (op y).
Proof.
  intros Hnan Hle x y Hvx Hvy [->|[->|H]].
  - left. assumption.
  - right. left. assumption.
  - destruct (SFcases x) as [->|Hx]; [now left|].
    destruct (SFcases y) as [->|Hy]; [now right; left|].
    apply SFle_SFwle, Hle; try assumption.
    repeat split; try assumption.
    + intros ->. destruct Hx as [|[|]]; discriminate.
    + intros ->. destruct Hy as [|[|]]; discriminate.
Qed.

Lemma SFwle_lift_anti (op : spec_float -> spec_float) :
  op S754_nan = S754_nan ->
  (forall x y, valid_binary x = true -> valid_binary y = true ->
               SFle x y -> SFle (op y) (op x)) ->
  forall x y, valid_binary x = true -> valid_binary y = true ->
              SFwle x y -> SFwle (op y) (op x).
Proof.
  intros Hnan Hle x y Hvx Hvy [->|[->|H]].
  - right. left. assumption.
  - left. assumption.
  - destruct (SFcases x) as [->|Hx]; [now right; left|].
    destruct (SFcases y) as [->|Hy]; [now left|].
    apply SFle_SFwle, Hle; try assumption.
    repeat split; try assumption.
    + intros ->. destruct Hx as [|[|]]; discriminate.
    + intros ->. destruct Hy as [|[|]]; discriminate.
Qed.

Lemma SFmul_nan_r (x : spec_float) : SFmul prec emax x S754_nan = S754_nan.
Proof. now destruct x. Qed.

Lemma SFadd_nan_r (x : spec_float) : SFadd prec emax x S754_nan = S754_nan.
Proof. now destruct x. Qed.

Lemma SFsub_nan_r (x : spec_float) : SFsub prec emax x S754_nan = S754_nan.
Proof. now destruct x. Qed.

Lemma SFmul_comm (x y : spec_float) : SFmul prec emax x y = SFmul prec emax y x.
Proof.
  destruct x as [sx|sx| |sx mx ex], y as [sy|sy| |sy my ey]; cbn [SFmul];
    rewrite ?(xorb_comm sx sy); try reflexivity.
  now rewrite Pos.mul_comm, Z.add_comm.
Qed.

Lemma SFwle_mul_pos_r (c x y : spec_float) :
  valid_binary c = true -> SFpositive c ->
  valid_binary x = true -> valid_binary y = true ->
  SFwle x y -> SFwle (SFmul prec emax x c) (SFmul prec emax y c).
Proof.
  intros Hvc Hc.
  apply (SFwle_lift (fun x => SFmul prec emax x c)); [reflexivity|].
  intros x0 y0. now apply SFmul_le_pos_r.
Qed.

Lemma SFwle_div_pos_r (c x y : spec_float) :
  valid_binary c = true -> SFpositive c ->
  valid_binary x = true -> valid_binary y = true ->
  SFwle x y -> SFwle (SFdiv prec emax x c) (SFdiv prec emax y c).
Proof.
  intros Hvc Hc.
  apply (SFwle_lift (fun x => SFdiv prec emax x c)); [reflexivity|].
  intros x0 y0. now apply SFdiv_le_pos_r.
Qed.

Lemma SFwle_round (x y : spec_float) :
  valid_binary x = true -> valid_binary y = true ->
  SFwle x y -> SFwle (SFround x) (SFround y).
Proof.
  apply (SFwle_lift SFround); [reflexivity|]. apply SFround_le.
Qed.

Lemma SFwle_sub_anti (c x y : spec_float) :
  valid_binary c = true -> SFfinite c = true ->
  valid_binary x = true -> valid_binary y = true ->
  SFwle x y -> SFwle (SFsub prec emax c y) (SFsub prec emax c x).
Proof.
  intros Hvc Hfc.
  apply (SFwle_lift_anti (fun x => SFsub prec emax c x)); [apply SFsub_nan_r|].
  intros x0 y0. now apply SFsub_le_anti.
Qed.

(** A result that is NaN or sits at one fixed place is ordered with any
    other such result. *)
Lemma SFwle_const (v : R) (a b : spec_float) :
  (a = S754_nan \/ SFval a = v) -> (b = S754_nan \/ SFval b = v) -> SFwle a b.
Proof.
  intros [->|Ha] [->|Hb]; [now left | now left | now right; left |].
  right. right. lra.
Qed.

Lemma SFwle_add_r (c x y : spec_float) :
  valid_binary c = true ->
  valid_binary x = true -> valid_binary y = true ->
  SFwle x y -> SFwle (SFadd prec emax x c) (SFadd prec emax y c).
Proof.
  intros Hvc Hvx Hvy Hxy.
  destruct (SFcases c) as [->|[->|[->|Hfc]]].
  - left. apply SFadd_nan_r.
  - apply (SFwle_const (- pow2 1024)).
    + destruct x as [s|[|]| |s m e]; cbn; auto.
    + destruct y as [s|[|]| |s m e]; cbn; auto.
  - apply (SFwle_const (pow2 1024)).
    + destruct x as [s|[|]| |s m e]; cbn; auto.
    + destruct y as [s|[|]| |s m e]; cbn; auto.
  - revert Hvx Hvy Hxy.
    apply (SFwle_lift (fun x => SFadd prec emax x c)); [reflexivity|].
    intros x0 y0. now apply SFadd_le_r.
Qed.

Lemma SFwle_add_l (c x y : spec_float) :
  valid_binary c = true ->
  valid_binary x = true -> valid_binary y = true ->
  SFwle x y -> SFwle (SFadd prec emax c x) (SFadd prec emax c y).
Proof.
  intros Hvc Hvx Hvy Hxy.
  destruct (SFcases c) as [->|[->|[->|Hfc]]].
  - now left.
  - apply (SFwle_const (- pow2 1024)).
    + destruct x as [s|[|]| |s m e]; cbn; auto.
    + destruct y as [s|[|]| |s m e]; cbn; auto.
  - apply (SFwle_const (pow2 1024)).
    + destruct x as [s|[|]| |s m e]; cbn; auto.
    + destruct y as [s|[|]| |s m e]; cbn; auto.
  - revert Hvx Hvy Hxy.
    apply (SFwle_lift (fun x => SFadd prec emax c x)); [apply SFadd_nan_r|].
    intros x0 y0. now apply SFadd_le_l.
Qed.

(** Multiplication by a factor that is not negative: zero, a positive
    number or [+infinity] (or NaN). *)
Lemma SFwle_mul_nonneg_r (c x y : spec_float) :
  valid_binary c = true ->
  valid_binary x = true -> valid_binary y = true ->
  c = S754_nan \/ 0 <= SFval c ->
  SFwle x y -> SFwle (SFmul prec emax x c) (SFmul prec emax y c).
Proof.
  intros Hvc Hvx Hvy Hc Hxy.
  assert (Hp := pow2_pos 1024).
  destruct c as [sc|sc| |sc mc ec].
  - (* zero *)
    apply (SFwle_const 0).
    + destruct x as [s|s| |s m e]; cbn; auto.
    + destruct y as [s|s| |s m e]; cbn; auto.
  - (* infinity *)
    destruct Hc as [Hc|Hc]; [discriminate|].
    destruct sc; [cbn [SFval signed] in Hc; lra|].
    destruct Hxy as [->|[->|Hxy]]; [now left | now right; left |].
    destruct x as [sx|sx| |sx mx ex]; try (now left);
      destruct y as [sy|sy| |sy my ey]; try (now right; left);
      cbn [SFmul]; rewrite !xorb_false_r; right; right;
      try (apply finite_range in Hvx); try (apply finite_range in Hvy);
      destruct sx, sy; cbn [SFval B2R signed] in *; lra.
  - left. apply SFmul_nan_r.
  - destruct Hc as [Hc|Hc]; [discriminate|].
    destruct sc.
    { apply finite_range in Hvc. cbn [SFval B2R signed] in Hc. lra. }
    apply SFwle_mul_pos_r; try assumption. now exists mc, ec.
Qed.

Lemma SFwle_mul_nonneg_l (c x y : spec_float) :
  valid_binary c = true ->
  valid_binary x = true -> valid_binary y = true ->
  c = S754_nan \/ 0 <= SFval c ->
  SFwle x y -> SFwle (SFmul prec emax c x) (SFmul prec emax c y).
Proof.
  intros. rewrite (SFmul_comm c x), (SFmul_comm c y).
  now apply SFwle_mul_nonneg_r.
Qed.

Local Open Scope float_scope.

(** ** The order on JavaScript numbers *)

Lemma Prim2SF_round (x : float) : Prim2SF (Math.round x) = SFround (Prim2SF x).
Proof.
  unfold Math.round. apply Prim2SF_SF2Prim, SFround_valid, Prim2SF_valid.
Qed.

Lemma fle_SFle (x y : float) : fle x y <-> SFle (Prim2SF x) (Prim2SF y).
Proof.
  unfold fle. rewrite leb_spec. apply SFleb_SFle; apply Prim2SF_valid.
Qed.

Lemma fwle_SFwle (x y : float) : fwle x y <-> SFwle (Prim2SF x) (Prim2SF y).
Proof.
  unfold fwle. rewrite ltb_spec. apply SFltb_false_SFwle; apply Prim2SF_valid.
Qed.

Lemma fle_fwle (x y : float) : fle x y -> fwle x y.
Proof.
  rewrite fle_SFle, fwle_SFwle. apply SFle_SFwle.
Qed.

Lemma fle_0_SFval (c : float) : fle 0 c -> (0 <= SFval (Prim2SF c))%R.
Proof.
  rewrite fle_SFle. intros (_ & _ & H). exact H.
Qed.

Ltac to_SF :=
  rewrite ?fle_SFle, ?fwle_SFwle in *;
  rewrite ?mul_spec, ?div_spec, ?add_spec, ?sub_spec, ?Prim2SF_round in *;
  unfold SF64mul, SF64div, SF64add, SF64sub in *.

Ltac valid_SF := try assumption; try apply Prim2SF_valid.

Lemma fwle_mul_pos_r (c x y : float) :
  fpositive c -> fwle x y -> fwle (x * c) (y * c).
Proof.
  intros Hc H. to_SF. apply SFwle_mul_pos_r; valid_SF.
Qed.

Lemma fwle_div_pos_r (c x y : float) :
  fpositive c -> fwle x y -> fwle (x / c) (y / c).
Proof.
  intros Hc H. to_SF. apply SFwle_div_pos_r; valid_SF.
Qed.

Lemma fwle_round (x y : float) : fwle x y -> fwle (Math.round x) (Math.round y).
Proof.
  intros H. to_SF. apply SFwle_round; valid_SF.
Qed.

Lemma fwle_add_r (c x y : float) : fwle x y -> fwle (x + c) (y + c).
Proof.
  intros H. to_SF. apply SFwle_add_r; valid_SF.
Qed.

Lemma fwle_add_l (c x y : float) : fwle x y -> fwle (c + x) (c + y).
Proof.
  intros H. to_SF. apply SFwle_add_l; valid_SF.
Qed.

Lemma fwle_sub_anti (c x y : float) :
  ffinite c -> fwle x y -> fwle (c - y) (c - x).
Proof.
  intros Hc H. unfold ffinite in Hc. to_SF. apply SFwle_sub_anti; valid_SF.
Qed.

Lemma fwle_mul_nonneg_r (c x y : float) :
  fle 0 c -> fwle x y -> fwle (x * c) (y * c).
Proof.
  intros Hc H. apply fle_0_SFval in Hc. to_SF.
  apply SFwle_mul_nonneg_r; valid_SF. now right.
Qed.

Lemma fwle_mul_nonneg_l (c x y : float) :
  fle 0 c -> fwle x y -> fwle (c * x) (c * y).
Proof.
  intros Hc H. apply fle_0_SFval in Hc. to_SF.
  apply SFwle_mul_nonneg_l; valid_SF. now right.
Qed.

Lemma fle_mul_pos_r (c x y : float) :
  fpositive c -> fle x y -> fle (x * c) (y * c).
Proof.
  intros Hc H. to_SF. apply SFmul_le_pos_r; valid_SF.
Qed.

Lemma fle_div_pos_r (c x y : float) :
  fpositive c -> fle x y -> fle (x / c) (y / c).
Proof.
  intros Hc H. to_SF. apply SFdiv_le_pos_r; valid_SF.
Qed.

Lemma fle_sub_anti (c x y : float) :
  ffinite c -> fle x y -> fle (c - y) (c - x).
Proof.
  intros Hc H. unfold ffinite in Hc. to_SF. apply SFsub_le_anti; valid_SF.
Qed.

Lemma fpositive_const (c : float) (m : positive) (e : Z) :
  Prim2SF c = S754_finite false m e -> fpositive c.
Proof. intros H. now exists m, e. Qed.

Lemma fpositive_10000 : fpositive 10000.
Proof. eapply fpositive_const. vm_compute. reflexivity. Qed.

Lemma fpositive_100 : fpositive 100.
Proof. eapply fpositive_const. vm_compute. reflexivity. Qed.

Lemma ffinite_100 : ffinite 100.
Proof. vm_compute. reflexivity. Qed.

Lemma fpositive_SEQUESTRATION_FACTORS (e : EcosystemType) :
  fpositive (SEQUESTRATION_FACTORS e).
Proof.
  destruct e; eapply fpositive_const; vm_compute; reflexivity.
Qed.

(** ** Forward mode, step by step *)

Lemma annual_absorption_forward (p : CalculationParams.t) :
  annual_absorption (calculateCarbonSequestration p)
  = round2 (net_annual (CalculationParams.area_m2 p)
              (CalculationParams.ecosystem_type p)
              (default (CalculationParams.buffers p) DEFAULT_BUFFERS)).
Proof. reflexivity. Qed.

Lemma fwle_round2 (x y : float) : fwle x y -> fwle (round2 x) (round2 y).
Proof.
  intros H. unfold round2.
  apply fwle_div_pos_r; [apply fpositive_100|].
  apply fwle_round. apply fwle_mul_pos_r; [apply fpositive_100 | assumption].
Qed.

Lemma buffer_factor_nonneg (b : Buffers) :
  fle (buffer_sum b) 100 -> fle 0 (buffer_factor b).
Proof.
  intros H. unfold buffer_factor.
  apply (fle_sub_anti 100) in H; [|apply ffinite_100].
  apply (fle_div_pos_r 100) in H; [|apply fpositive_100].
  exact H.
Qed.

Lemma gross_nonneg (area : float) (e : EcosystemType) :
  fle 0 area -> fle 0 (area / 10000 * SEQUESTRATION_FACTORS e).
Proof.
  intros H.
  apply (fle_div_pos_r 10000) in H; [|apply fpositive_10000].
  apply (fle_mul_pos_r (SEQUESTRATION_FACTORS e)) in H;
    [|apply fpositive_SEQUESTRATION_FACTORS].
  destruct e; exact H.
Qed.

Lemma fwle_buffer_sum (b b' : Buffers) :
  one_buffer_raised b b' -> fwle (buffer_sum b) (buffer_sum b').
Proof.
  unfold buffer_sum.
  intros [(H & -> & ->)|[(-> & H & ->)|(-> & -> & H)]]; apply fle_fwle in H.
  - apply fwle_add_r. now apply fwle_add_r.
  - apply fwle_add_r. now apply fwle_add_l.
  - now apply fwle_add_l.
Qed.

Theorem net_annual_area_monotone (a a' : float) (e : EcosystemType) (b : Buffers) :
  fle a a' -> fle (buffer_sum b) 100 ->
  fwle (net_annual a e b) (net_annual a' e b).
Proof.
  intros Ha Hb. unfold net_annual.
  apply fwle_mul_nonneg_r; [now apply buffer_factor_nonneg|].
  apply fwle_mul_pos_r; [apply fpositive_SEQUESTRATION_FACTORS|].
  apply fwle_div_pos_r; [apply fpositive_10000|].
  now apply fle_fwle.
Qed.

Theorem net_annual_buffer_antitone (a : float) (e : EcosystemType) (b b' : Buffers) :
  fle 0 a -> one_buffer_raised b b' ->
  fwle (net_annual a e b') (net_annual a e b).
Proof.
  intros Ha Hb. unfold net_annual.
  apply fwle_mul_nonneg_l; [now apply gross_nonneg|].
  unfold buffer_factor.
  apply fwle_div_pos_r; [apply fpositive_100|].
  apply fwle_sub_anti; [apply ffinite_100|].
  now apply fwle_buffer_sum.
Qed.

Local Open Scope R_scope.

(** ** Rounding errors *)

Lemma u64_val : u64 = / 9007199254740992.
Proof. reflexivity. Qed.

Lemma eta64_small : 0 < eta64 <= / 1267650600228229401496703205376.
Proof.
  split; [apply pow2_pos|].
  change (/ 1267650600228229401496703205376) with (pow2 (-100)).
  apply pow2_le. lia.
Qed.

Lemma Rabs_le_bounds (a b : R) : Rabs a <= b -> - b <= a <= b.
Proof.
  unfold Rabs. destruct (Rcase_abs a); lra.
Qed.

Lemma rounds_pos_error (x r : R) :
  rounds_pos x r -> Rabs (r - x) <= u64 * x + eta64.
Proof.
  intros (g & z & Hmag & [[Hl Hu] _] & ->).
  assert (Hx := is_mag_pos _ _ Hmag).
  set (E := fexp64 g) in *. assert (HpE := pow2_pos E).
  assert (Hy : x = x / pow2 E * pow2 E) by (now rewrite div_pow2_cancel).
  assert (Herr : Rabs (IZR z * pow2 E - x) <= pow2 (E - 1)).
  { replace (pow2 (E - 1)) with (/ 2 * pow2 E).
    - rewrite Hy at 1. rewrite <- Rmult_minus_distr_r, Rabs_mult.
      rewrite (Rabs_pos_eq (pow2 E)) by lra.
      apply Rmult_le_compat_r; [lra|]. apply Rabs_le. lra.
    - replace E with ((E - 1) + 1)%Z at 1 by lia. rewrite pow2_succ. field. }
  eapply Rle_trans; [exact Herr|].
  assert (Hu64 := pow2_pos (-53)). assert (Heta := pow2_pos (-1075)).
  destruct (Z.le_gt_cases (-1074) (g - 53)) as [Hn|Hs].
  - replace (E - 1)%Z with (-53 + (g - 1))%Z by (unfold E, fexp64; lia).
    rewrite pow2_add. fold u64.
    destruct Hmag as [Hlo _].
    assert (u64 * pow2 (g - 1) <= u64 * x).
    { apply Rmult_le_compat_l; [unfold u64; lra | assumption]. }
    unfold eta64. lra.
  - replace (E - 1)%Z with (-1075)%Z by (unfold E, fexp64; lia).
    fold eta64. assert (0 <= u64 * x); [|lra].
    apply Rmult_le_pos; unfold u64; lra.
Qed.

Lemma rounds_error (x r : R) :
  rounds x r -> Rabs (r - x) <= u64 * Rabs x + eta64.
Proof.
  assert (Heta := pow2_pos (-1075)). fold eta64 in Heta.
  intros [[-> ->]|[[Hx H]|[Hx H]]].
  - rewrite Rminus_0_r, Rabs_R0. lra.
  - rewrite (Rabs_pos_eq x) by lra. now apply rounds_pos_error.
  - rewrite (Rabs_left x) by lra.
    replace (r - x) with (- (- r - - x)) by ring. rewrite Rabs_Ropp.
    now apply rounds_pos_error.
Qed.

Lemma rounds_nonneg (x r : R) : 0 <= x -> rounds x r -> 0 <= r.
Proof.
  intros Hx H. apply (rounds_mono 0 x 0 r Hx rounds_0 H).
Qed.

(** For a result that is not negative: the error as two inequalities. *)
Lemma rounds_error_nonneg (x r : R) :
  0 <= x -> rounds x r ->
  0 <= r /\ x - (u64 * x + eta64) <= r <= x + (u64 * x + eta64).
Proof.
  intros Hx H. split; [now apply (rounds_nonneg x)|].
  assert (He := rounds_error x r H). rewrite (Rabs_pos_eq x) in He by assumption.
  apply Rabs_le_bounds in He. lra.
Qed.

(** ** Finite results have finite arguments *)

Lemma op_result_finite (r : R) (f : spec_float) :
  op_result r f -> SFfinite f = true -> B2R f = r.
Proof.
  intros (Hv & Hn & Hval & Hfin) Hf.
  assert (Hr := SFfinite_range f Hv Hf).
  rewrite SFval_finite in Hval by assumption.
  apply Hfin. unfold clamp in Hval.
  revert Hval. apply Rmax_case_strong; apply Rmin_case_strong; intros;
    apply Rabs_def1; lra.
Qed.

Lemma SFmul_finite_inv (x y : spec_float) :
  valid_binary x = true -> valid_binary y = true ->
  SFfinite (SFmul prec emax x y) = true ->
  SFfinite x = true /\ SFfinite y = true /\
  rounds (B2R x * B2R y) (B2R (SFmul prec emax x y)).
Proof.
  intros Hvx Hvy Hf.
  assert (Hfx : SFfinite x = true).
  { destruct x as [sx|sx| |sx mx ex], y as [sy|sy| |sy my ey]; try discriminate; reflexivity. }
  assert (Hfy : SFfinite y = true).
  { destruct x as [sx|sx| |sx mx ex], y as [sy|sy| |sy my ey]; try discriminate; reflexivity. }
  repeat split; try assumption.
  destruct (SFmul_spec x y Hvx Hvy Hfx Hfy) as (r & Hr & Hres).
  now rewrite (op_result_finite r _ Hres Hf).
Qed.

Lemma SFdiv_finite_inv (x c : spec_float) :
  valid_binary x = true -> valid_binary c = true -> SFpositive c ->
  SFfinite (SFdiv prec emax x c) = true ->
  SFfinite x = true /\ rounds (B2R x / B2R c) (B2R (SFdiv prec emax x c)).
Proof.
  intros Hvx Hvc Hc Hf.
  assert (HC := SFpositive_B2R c Hc). assert (Hfc := SFpositive_finite c Hc).
  assert (Hfx : SFfinite x = true).
  { destruct Hc as (m & e & ->).
    destruct x as [sx|sx| |sx mx ex]; try discriminate; reflexivity. }
  split; [assumption|].
  assert (HC0 : B2R c <> 0) by lra.
  destruct (SFdiv_spec x c Hvx Hvc Hfx Hfc HC0) as (r & Hr & Hres).
  now rewrite (op_result_finite r _ Hres Hf).
Qed.

Lemma SFround_finite_inv (x : spec_float) :
  valid_binary x = true -> SFfinite (SFround x) = true ->
  SFfinite x = true /\ js_rounds (B2R x) (B2R (SFround x)).
Proof.
  intros Hvx Hf.
  assert (Hfx : SFfinite x = true).
  { destruct x as [sx|sx| |sx mx ex]; try discriminate; reflexivity. }
  split; [assumption|].
  destruct (SFround_spec x Hvx Hfx) as (r & Hr & Hres).
  now rewrite (op_result_finite r _ Hres Hf).
Qed.

Lemma fmul_finite_inv (x y : float) :
  ffinite (x * y) ->
  ffinite x /\ ffinite y /\ rounds (F2R x * F2R y) (F2R (x * y)).
Proof.
  unfold ffinite, F2R. rewrite mul_spec. apply SFmul_finite_inv; apply Prim2SF_valid.
Qed.

Lemma fdiv_finite_inv (x c : float) :
  fpositive c -> ffinite (x / c) ->
  ffinite x /\ rounds (F2R x / F2R c) (F2R (x / c)).
Proof.
  unfold ffinite, F2R, fpositive. rewrite div_spec. intros Hc.
  apply SFdiv_finite_inv; try apply Prim2SF_valid. assumption.
Qed.

Lemma fround_finite_inv (x : float) :
  ffinite (Math.round x) ->
  ffinite x /\ js_rounds (F2R x) (F2R (Math.round x)).
Proof.
  unfold ffinite, F2R. rewrite Prim2SF_round.
  apply SFround_finite_inv, Prim2SF_valid.
Qed.

Lemma F2R_100 : F2R 100 = 100.
Proof.
  unfold F2R. replace (Prim2SF 100) with (S754_finite false 7036874417766400 (-46))
    by (vm_compute; reflexivity).
  cbn [B2R signed]. change (pow2 (-46)) with (/ 70368744177664). lra.
Qed.

Lemma F2R_nonneg (x : float) : fle 0%float x -> 0 <= F2R x.
Proof.
  intros H. assert (H0 := fle_0_SFval x H). unfold F2R.
  apply fle_SFle in H. destruct H as (_ & Hn & _).
  destruct (Prim2SF x) as [s|s| |s m e]; cbn [B2R SFval] in *; try lra.
Qed.

Lemma F2R_pos (x : float) : (0 <? x)%float = true -> ffinite x -> 0 < F2R x.
Proof.
  unfold ffinite, F2R. rewrite ltb_spec. intros H Hf.
  apply SFltb_SFval in H; try apply Prim2SF_valid.
  destruct H as (_ & _ & H).
  change (Prim2SF 0%float) with (S754_zero false) in H. cbn [SFval B2R] in H.
  now rewrite SFval_finite in H.
Qed.

(** ** The error of rounding to two decimals *)

(** A non-negative number and its rounding to two decimals, when that is
    finite. *)
Lemma round2_error (v : float) :
  0 <= F2R v -> ffinite (round2 v) ->
  ffinite v /\ 0 <= F2R (round2 v) /\
  Rabs (F2R (round2 v) - F2R v) <= / 200 + pow2 (-51) * (F2R v + 1).
Proof.
  intros Hv Hf. unfold round2 in *.
  destruct (fdiv_finite_inv _ 100%float fpositive_100 Hf) as (Hfk & Hr3).
  destruct (fround_finite_inv _ Hfk) as (Hfw & Hr2).
  destruct (fmul_finite_inv _ _ Hfw) as (Hfv & _ & Hr1).
  rewrite F2R_100 in *.
  set (V := F2R v) in *. set (W := F2R (v * 100)%float) in *.
  set (K := F2R (Math.round (v * 100)%float)) in *.
  set (Q := F2R (Math.round (v * 100)%float / 100)%float) in *.
  split; [assumption|].
  assert (HV100 : 0 <= V * 100) by lra.
  destruct (rounds_error_nonneg _ _ HV100 Hr1) as (HW0 & HW).
  assert (HK := js_rounds_error _ _ Hr2).
  assert (HK0 : 0 <= K).
  { apply (js_rounds_mono 0 W 0 K HW0 (js_rounds_int 0) Hr2). }
  assert (HK100 : 0 <= K / 100) by lra.
  destruct (rounds_error_nonneg (K / 100) Q HK100 Hr3) as (HQ0 & HQ).
  split; [assumption|].
  assert (Hu := u64_val). assert (He := eta64_small).
  change (pow2 (-51)) with (/ 2251799813685248).
  apply Rabs_le. rewrite Hu in *. lra.
Qed.

Lemma flt_fle (x y : float) : (x <? y)%float = true -> fle x y.
Proof.
  rewrite ltb_spec. intros H.
  apply SFltb_SFval in H; try apply Prim2SF_valid.
  destruct H as (Hx & Hy & H). apply fle_SFle. repeat split; try assumption. lra.
Qed.

Lemma F2R_mul_nonneg (x y : float) :
  0 <= F2R x -> 0 <= F2R y -> 0 <= F2R (x * y).
Proof.
  intros Hx Hy.
  destruct (SFfinite (Prim2SF (x * y))) eqn:Hf.
  - destruct (fmul_finite_inv x y Hf) as (_ & _ & Hr).
    apply (rounds_nonneg (F2R x * F2R y)); [|assumption].
    now apply Rmult_le_pos.
  - unfold F2R. destruct (Prim2SF (x * y)); try discriminate; cbn [B2R]; lra.
Qed.

Lemma net_annual_nonneg (area : float) (e : EcosystemType) (b : Buffers) :
  fle 0%float area -> fle (buffer_sum b) 100%float ->
  0 <= F2R (net_annual area e b).
Proof.
  intros Ha Hb. unfold net_annual.
  apply F2R_mul_nonneg.
  - apply F2R_nonneg. now apply gross_nonneg.
  - apply F2R_nonneg. now apply buffer_factor_nonneg.
Qed.

(** The returned cumulative absorption against the returned annual
    absorption times the horizon. *)
Theorem cumulative_vs_annual (area : float) (e : EcosystemType) (years : float)
    (b : Buffers) :
  let r := calculateCarbonSequestration (forward_input area e years b) in
  fle 0%float area -> fle 0%float years -> fle (buffer_sum b) 100%float ->
  ffinite (annual_absorption r) -> ffinite (cumulative_absorption r) ->
  Rabs (F2R (cumulative_absorption r) - F2R (annual_absorption r) * F2R years)
  <= (F2R years + 1) / 200
     + pow2 (-48) * (F2R (cumulative_absorption r) + F2R years + 1).
Proof.
  intros r Ha Hy Hb Hfa Hfc.
  change (annual_absorption r) with (round2 (net_annual area e b)) in *.
  change (cumulative_absorption r)
    with (round2 (net_annual area e b * years)%float) in *.
  clear r.
  set (n := net_annual area e b) in *.
  assert (HN0 : 0 <= F2R n) by now apply net_annual_nonneg.
  assert (HY0 : 0 <= F2R years) by now apply F2R_nonneg.
  assert (HC0 : 0 <= F2R (n * years)%float) by now apply F2R_mul_nonneg.
  destruct (round2_error n HN0 Hfa) as (Hfn & HAR0 & HAR).
  destruct (round2_error _ HC0 Hfc) as (Hfcu & HCR0 & HCR).
  destruct (fmul_finite_inv n years Hfcu) as (_ & Hfy & Hr).
  set (N := F2R n) in *. set (Y := F2R years) in *.
  set (C := F2R (n * years)%float) in *.
  set (AR := F2R (round2 n)) in *.
  set (CR := F2R (round2 (n * years)%float)) in *.
  assert (HP0 : 0 <= N * Y) by now apply Rmult_le_pos.
  destruct (rounds_error_nonneg _ _ HP0 Hr) as (_ & HC).
  apply Rabs_le_bounds in HAR, HCR.
  set (P := N * Y) in *.
  change (pow2 (-51)) with (/ 2251799813685248) in *.
  assert (H1 : (N - (/ 200 + / 2251799813685248 * (N + 1))) * Y <= AR * Y).
  { apply Rmult_le_compat_r; lra. }
  assert (H2 : AR * Y <= (N + (/ 200 + / 2251799813685248 * (N + 1))) * Y).
  { apply Rmult_le_compat_r; lra. }
  replace ((N - (/ 200 + / 2251799813685248 * (N + 1))) * Y)
    with (P - (Y / 200 + / 2251799813685248 * (P + Y))) in H1
    by (unfold P; field).
  replace ((N + (/ 200 + / 2251799813685248 * (N + 1))) * Y)
    with (P + (Y / 200 + / 2251799813685248 * (P + Y))) in H2
    by (unfold P; field).
  assert (Hu := u64_val). assert (He := eta64_small).
  change (pow2 (-48)) with (/ 281474976710656).
  rewrite Hu in *. clearbody P.
  generalize dependent (AR * Y). intros ARY H1 H2.
  apply Rabs_le. lra.
Qed.

Local Open Scope float_scope.

(** ** Degenerate inputs *)

Lemma SFmul_nonpos (x c : spec_float) :
  valid_binary x = true -> valid_binary c = true ->
  x = S754_nan \/ (SFval x <= 0)%R ->
  c = S754_nan \/ (0 <= SFval c)%R ->
  SFwle (SFmul prec emax x c) (S754_zero false).
Proof.
  intros Hvx Hvc Hx Hc.
  assert (Hw : SFwle x (S754_zero false)).
  { destruct Hx as [->|Hx]; [now left|]. right. right. exact Hx. }
  assert (Hp := pow2_pos 1024).
  destruct c as [sc|sc| |sc mc ec].
  - apply (SFwle_const 0%R); [|now right].
    destruct x as [s|s| |s m e]; cbn; auto.
  - destruct Hc as [Hc|Hc]; [discriminate|].
    destruct sc; [cbn [SFval signed] in Hc; lra|].
    destruct Hx as [->|Hx]; [now left|].
    destruct x as [sx|sx| |sx mx ex]; try (now left);
      cbn [SFmul]; rewrite xorb_false_r; right; right;
      try (apply finite_range in Hvx);
      destruct sx; cbn [SFval B2R signed] in *; lra.
  - left. apply SFmul_nan_r.
  - destruct Hc as [Hc|Hc]; [discriminate|].
    destruct sc.
    { apply finite_range in Hvc. cbn [SFval B2R signed] in Hc. lra. }
    assert (H := SFwle_mul_pos_r (S754_finite false mc ec) x (S754_zero false)
                   Hvc ltac:(now exists mc, ec) Hvx eq_refl Hw).
    exact H.
Qed.

Lemma fmul_nonpos (x c : float) : fwle x 0 -> fle 0 c -> fwle (x * c) 0.
Proof.
  intros Hx Hc. apply fle_0_SFval in Hc. apply fwle_SFwle in Hx.
  apply fwle_SFwle. rewrite mul_spec.
  change (Prim2SF 0) with (S754_zero false) in *.
  apply SFmul_nonpos; try apply Prim2SF_valid.
  - destruct Hx as [Hx|[Hx|Hx]]; [now left | discriminate | now right].
  - now right.
Qed.

Theorem net_annual_nonpos (area : float) (e : EcosystemType) (b : Buffers) :
  fle area 0 -> fle (buffer_sum b) 100 -> fwle (round2 (net_annual area e b)) 0.
Proof.
  intros Ha Hb.
  apply (fwle_round2 _ 0). unfold net_annual.
  apply fmul_nonpos; [|now apply buffer_factor_nonneg].
  apply fle_fwle in Ha.
  apply (fwle_div_pos_r 10000) in Ha; [|apply fpositive_10000].
  apply (fwle_mul_pos_r (SEQUESTRATION_FACTORS e)) in Ha;
    [|apply fpositive_SEQUESTRATION_FACTORS].
  destruct e; exact Ha.
Qed.

Lemma feqb_positive_eq (x c : float) : fpositive c -> (x =? c) = true -> x = c.
Proof.
  intros (m & e & Hc). rewrite eqb_spec. unfold SFeqb. rewrite Hc.
  intros H. apply Prim2SF_inj. rewrite Hc.
  destruct (Prim2SF x) as [s|s| |s mx ex]; cbn [SFcompare] in H;
    try discriminate.
  - destruct s; discriminate.
  - destruct s; [discriminate|].
    destruct (Z.compare_spec ex e) as [He|He|He]; try discriminate.
    destruct (Pos.compare_cont Eq mx m) eqn:Hm; try discriminate.
    change (Pos.compare_cont Eq mx m) with (mx ?= m)%positive in Hm.
    apply Pos.compare_eq in Hm. now subst.
Qed.

Lemma fpositive_of_bounds (y : float) :
  (0 <? y) = true -> (y <? infinity) = true -> fpositive y.
Proof.
  rewrite !ltb_spec. change (Prim2SF 0) with (S754_zero false).
  change (Prim2SF infinity) with (S754_infinity false).
  unfold fpositive, SFltb.
  destruct (Prim2SF y) as [s|s| |s m e]; cbn [SFcompare]; try discriminate.
  - destruct s; discriminate.
  - destruct s; try discriminate. intros _ _. now exists m, e.
Qed.

Lemma fmul_0_positive (y : float) : fpositive y -> 0 * y = 0.
Proof.
  intros (m & e & Hy). apply Prim2SF_inj. rewrite mul_spec, Hy. reflexivity.
Qed.

Lemma fdiv_positive_0 (t : float) : (0 <? t) = true -> t / 0 = infinity.
Proof.
  rewrite ltb_spec. change (Prim2SF 0) with (S754_zero false). unfold SFltb.
  intros H. apply Prim2SF_inj. rewrite div_spec.
  change (Prim2SF 0) with (S754_zero false).
  change (Prim2SF infinity) with (S754_infinity false).
  destruct (Prim2SF t) as [s|s| |s m e]; cbn [SFcompare] in H; try discriminate;
    destruct s; try discriminate; reflexivity.
Qed.

Theorem required_area_infinite (target : float) (e : EcosystemType)
    (years : float) (b : Buffers) :
  (buffer_sum b =? 100) = true ->
  (0 <? target) = true ->
  (0 <? years) = true -> (years <? infinity) = true ->
  policy_area_needed (calculateRequiredArea (policy_input target e years b))
  = Some infinity.
Proof.
  intros Hb Ht Hy Hy'.
  apply (feqb_positive_eq _ 100 fpositive_100) in Hb.
  assert (Hpos := fpositive_of_bounds years Hy Hy').
  unfold calculateRequiredArea, policy_input. cbn [default
    PolicyCalculationParams.target_co2_reduction PolicyCalculationParams.ecosystem_type
    PolicyCalculationParams.years PolicyCalculationParams.buffers policy_area_needed].
  fold (buffer_sum b). rewrite Hb.
  replace (SEQUESTRATION_FACTORS e * ((100 - 100) / 100)) with 0
    by (destruct e; vm_compute; reflexivity).
  rewrite (fmul_0_positive years Hpos), (fdiv_positive_0 target Ht).
  vm_compute. reflexivity.
Qed.

Local Open Scope R_scope.

(** ** Relative errors *)

Lemma u64_bounds : 0 < u64 < / 2.
Proof. rewrite u64_val. lra. Qed.

Lemma pow_1mu_bounds (n : nat) : 0 < (1 - u64) ^ n <= 1.
Proof.
  assert (Hu := u64_bounds).
  induction n as [|n IH]; cbn [pow]; [lra|]. nra.
Qed.

Lemma pow_1pu_bounds (n : nat) : 1 <= (1 + u64) ^ n.
Proof.
  assert (Hu := u64_bounds).
  induction n as [|n IH]; cbn [pow]; [lra|]. nra.
Qed.

Lemma pow_1pu_linear (n : nat) :
  INR n * u64 <= / 2 -> (1 + u64) ^ n <= 1 + 2 * INR n * u64.
Proof.
  assert (Hu := u64_bounds).
  induction n as [|n IH]; intros Hn.
  - cbn [pow INR]. lra.
  - rewrite S_INR in *. cbn [pow].
    assert (Hn' : INR n * u64 <= / 2) by nra.
    specialize (IH Hn'). assert (H0 := pos_INR n).
    assert (H1 := pow_1pu_bounds n). nra.
Qed.

Lemma pow_1mu_linear (n : nat) : 1 - INR n * u64 <= (1 - u64) ^ n.
Proof.
  assert (Hu := u64_bounds).
  induction n as [|n IH].
  - cbn [pow INR]. lra.
  - rewrite S_INR. cbn [pow]. assert (H0 := pos_INR n).
    assert (H1 := pow_1mu_bounds n). nra.
Qed.

Lemma approx_nonneg (n : nat) (xh x : R) : 0 <= x -> approx n xh x -> 0 <= xh.
Proof.
  intros Hx [Hl _]. assert (H := pow_1mu_bounds n).
  eapply Rle_trans; [|exact Hl]. apply Rmult_le_pos; lra.
Qed.

Lemma approx_refl (x : R) : approx 0 x x.
Proof. unfold approx. cbn [pow]. lra. Qed.

Lemma approx_mul (n m : nat) (xh x yh y : R) :
  0 <= x -> 0 <= y -> approx n xh x -> approx m yh y ->
  approx (n + m) (xh * yh) (x * y).
Proof.
  intros Hx Hy Hax Hay.
  assert (Hxh := approx_nonneg _ _ _ Hx Hax).
  assert (Hyh := approx_nonneg _ _ _ Hy Hay).
  destruct Hax as [Hlx Hux], Hay as [Hly Huy].
  assert (Hn := pow_1mu_bounds n). assert (Hm := pow_1mu_bounds m).
  unfold approx. rewrite !pow_add. split.
  - replace (x * y * ((1 - u64) ^ n * (1 - u64) ^ m))
      with (x * (1 - u64) ^ n * (y * (1 - u64) ^ m)) by ring.
    apply Rmult_le_compat; try assumption; apply Rmult_le_pos; lra.
  - replace (x * y * ((1 + u64) ^ n * (1 + u64) ^ m))
      with (x * (1 + u64) ^ n * (y * (1 + u64) ^ m)) by ring.
    apply Rmult_le_compat; assumption.
Qed.

Lemma approx_trans (n m : nat) (a b c : R) :
  0 <= c -> approx n a b -> approx m b c -> approx (n + m) a c.
Proof.
  intros Hc [Hl1 Hu1] [Hl2 Hu2].
  assert (Hn := pow_1mu_bounds n). assert (Hn' := pow_1pu_bounds n).
  unfold approx. rewrite !pow_add. split.
  - apply Rle_trans with (b * (1 - u64) ^ n); [|assumption].
    replace (c * ((1 - u64) ^ n * (1 - u64) ^ m))
      with (c * (1 - u64) ^ m * (1 - u64) ^ n) by ring.
    apply Rmult_le_compat_r; lra.
  - apply Rle_trans with (b * (1 + u64) ^ n); [assumption|].
    replace (c * ((1 + u64) ^ n * (1 + u64) ^ m))
      with (c * (1 + u64) ^ m * (1 + u64) ^ n) by ring.
    apply Rmult_le_compat_r; lra.
Qed.

Lemma approx_linear (n : nat) (xh x : R) :
  0 <= x -> INR n * u64 <= / 2 -> approx n xh x ->
  x * (1 - INR n * u64) <= xh <= x * (1 + 2 * INR n * u64).
Proof.
  intros Hx Hn [Hl Hu].
  assert (H1 := pow_1pu_linear n Hn). assert (H2 := pow_1mu_linear n).
  split.
  - eapply Rle_trans; [|exact Hl]. apply Rmult_le_compat_l; assumption.
  - eapply Rle_trans; [exact Hu|]. apply Rmult_le_compat_l; assumption.
Qed.

(** A rounding outside the subnormal range has a relative error of [u64]. *)
Lemma rounds_pos_normal (x r : R) :
  pow2 (-1022) <= x -> rounds_pos x r -> Rabs (r - x) <= u64 * x.
Proof.
  intros Hx (g & z & Hmag & [[Hl Hu] _] & ->).
  assert (Hx0 := is_mag_pos _ _ Hmag).
  set (E := fexp64 g) in *. assert (HpE := pow2_pos E).
  assert (Hy : x = x / pow2 E * pow2 E) by (now rewrite div_pow2_cancel).
  assert (Herr : Rabs (IZR z * pow2 E - x) <= pow2 (E - 1)).
  { replace (pow2 (E - 1)) with (/ 2 * pow2 E).
    - rewrite Hy at 1. rewrite <- Rmult_minus_distr_r, Rabs_mult.
      rewrite (Rabs_pos_eq (pow2 E)) by lra.
      apply Rmult_le_compat_r; [lra|]. apply Rabs_le. lra.
    - replace E with ((E - 1) + 1)%Z at 1 by lia. rewrite pow2_succ. field. }
  eapply Rle_trans; [exact Herr|].
  destruct Hmag as [Hlo Hhi].
  assert (Hg : (-1022 < g)%Z) by (apply pow2_lt_inv; lra).
  replace (E - 1)%Z with (-53 + (g - 1))%Z by (unfold E, fexp64; lia).
  rewrite pow2_add. fold u64.
  apply Rmult_le_compat_l; [|assumption]. apply Rlt_le, u64_bounds.
Qed.

Lemma approx_rounds (x r : R) :
  pow2 (-1022) <= x -> rounds x r -> approx 1 r x.
Proof.
  intros Hx Hr. assert (Hp := pow2_pos (-1022)).
  destruct Hr as [[-> _]|[[_ H]|[Hneg _]]]; try lra.
  apply (rounds_pos_normal x r Hx) in H. apply Rabs_le_bounds in H.
  unfold approx. cbn [pow]. lra.
Qed.

(** ** Operations that do not overflow *)

Lemma rounds_below (x r : R) :
  rounds x r -> Rabs x < pow2 1023 -> Rabs r < pow2 1024.
Proof.
  intros Hr Hx. assert (He := rounds_error x r Hr).
  assert (Hu := u64_bounds). assert (Heta := eta64_small).
  assert (H1023 : 1 <= pow2 1023) by (apply pow2_ge_1; lia).
  replace 1024%Z with (1023 + 1)%Z by lia. rewrite pow2_succ.
  assert (H0 := Rabs_pos x).
  assert (Hr' : Rabs r <= Rabs x + Rabs (r - x)).
  { replace r with (x + (r - x)) at 1 by ring. apply Rabs_triang. }
  assert (u64 * Rabs x <= / 2 * Rabs x) by (apply Rmult_le_compat_r; lra).
  lra.
Qed.

Lemma op_result_below (r : R) (f : spec_float) :
  op_result r f -> Rabs r < pow2 1024 -> SFfinite f = true /\ B2R f = r.
Proof. intros (_ & _ & _ & H). exact H. Qed.

Lemma fmul_fin (x y : float) :
  ffinite x -> ffinite y -> Rabs (F2R x * F2R y) < pow2 1023 ->
  ffinite (x * y) /\ rounds (F2R x * F2R y) (F2R (x * y)).
Proof.
  unfold ffinite, F2R. rewrite mul_spec. intros Hx Hy Hb.
  destruct (SFmul_spec _ _ (Prim2SF_valid x) (Prim2SF_valid y) Hx Hy)
    as (r & Hr & Hres).
  destruct (op_result_below r _ Hres (rounds_below _ _ Hr Hb)) as [Hf Hv].
  unfold SF64mul. rewrite Hv. now split.
Qed.

Lemma fdiv_fin (x c : float) :
  ffinite x -> ffinite c -> F2R c <> 0 -> Rabs (F2R x / F2R c) < pow2 1023 ->
  ffinite (x / c) /\ rounds (F2R x / F2R c) (F2R (x / c)).
Proof.
  unfold ffinite, F2R. rewrite div_spec. intros Hx Hc Hc0 Hb.
  destruct (SFdiv_spec _ _ (Prim2SF_valid x) (Prim2SF_valid c) Hx Hc Hc0)
    as (r & Hr & Hres).
  destruct (op_result_below r _ Hres (rounds_below _ _ Hr Hb)) as [Hf Hv].
  unfold SF64div. rewrite Hv. now split.
Qed.

Lemma SFround_finite (x : spec_float) :
  valid_binary x = true -> SFfinite x = true -> SFfinite (SFround x) = true.
Proof.
  intros Hv Hf. destruct x as [s|s| |s m e]; try discriminate; [reflexivity|].
  cbn [SFround]. destruct (Z.leb_spec 0 e) as [He|He]; [reflexivity|].
  cbv zeta.
  match goal with
  | |- SFfinite (binary_normalize prec emax ?n 0 s) = true =>
      destruct (binary_normalize_spec n 0 s) as (r & Hr & Hres);
      destruct (SFround_spec (S754_finite s m e) Hv Hf) as (r' & Hj & Hres')
  end.
  cbn [SFround] in Hres'.
  destruct (Z.leb_spec 0 e) as [He'|_]; [lia|]. cbv zeta in Hres'.
  destruct Hres as (Hv1 & Hn1 & Hval1 & _). destruct Hres' as (_ & _ & Hval2 & Hfin2).
  apply Hfin2.
  (* the rounded value is within 1/2 of a number below 2^52 *)
  apply js_rounds_error in Hj.
  assert (Hm : IZR (Zpos m) * pow2 e < pow2 52).
  { cbn [SpecFloat.valid_binary] in Hv. apply bounded_canonical in Hv.
    destruct Hv as [Hcan _].
    destruct (Zdigits2_mag (Zpos m)) as [_ Hu]; [lia|].
    assert (Hpe := pow2_pos e).
    apply Rlt_le_trans with (pow2 (Zdigits2 (Zpos m)) * pow2 e).
    - apply Rmult_lt_compat_r; assumption.
    - rewrite <- pow2_add. apply pow2_le. unfold fexp64 in Hcan. lia. }
  assert (Hpos := fin_value_pos m e).
  assert (H52 : pow2 52 + 1 <= pow2 1024).
  { apply Rle_trans with (pow2 53).
    - replace 53%Z with (52 + 1)%Z by lia. rewrite pow2_succ.
      assert (1 <= pow2 52) by (apply pow2_ge_1; lia). lra.
    - apply pow2_le. lia. }
  cbn [B2R] in Hj. apply Rabs_def1; destruct s; cbn [signed] in Hj; lra.
Qed.

Lemma fround_fin (x : float) :
  ffinite x -> ffinite (Math.round x) /\ js_rounds (F2R x) (F2R (Math.round x)).
Proof.
  intros Hx. assert (Hf : ffinite (Math.round x)).
  { unfold ffinite in *. rewrite Prim2SF_round.
    apply SFround_finite; [apply Prim2SF_valid | assumption]. }
  split; [assumption|]. now apply fround_finite_inv.
Qed.

(** ** Ordered finite numbers *)

Lemma fle_F2R (x y : float) : fle x y -> ffinite x -> ffinite y -> F2R x <= F2R y.
Proof.
  unfold ffinite, F2R. intros H Hx Hy. apply fle_SFle in H.
  destruct H as (_ & _ & H). now rewrite !SFval_finite in H.
Qed.

Lemma ffinite_between (a x b : float) :
  fle a x -> fle x b -> ffinite a -> ffinite b -> ffinite x.
Proof.
  unfold ffinite. intros Ha Hb Hfa Hfb.
  apply fle_SFle in Ha, Hb.
  destruct Ha as (_ & Hnx & Ha), Hb as (_ & _ & Hb).
  assert (Hra := SFfinite_range _ (Prim2SF_valid a) Hfa).
  assert (Hrb := SFfinite_range _ (Prim2SF_valid b) Hfb).
  rewrite (SFval_finite (Prim2SF a)) in Ha by assumption.
  rewrite (SFval_finite (Prim2SF b)) in Hb by assumption.
  destruct (Prim2SF x) as [s|[|]| |s m e]; try reflexivity; try contradiction;
    cbn [SFval signed] in *; lra.
Qed.

(** ** The values of the constants *)

Ltac pow2_literals :=
  repeat match goal with
  | |- context [pow2 (Zneg ?p)] =>
      let q := eval vm_compute in (2 ^ Zpos p)%Z in
      change (pow2 (Zneg p)) with (/ IZR q)
  | |- context [pow2 (Zpos ?p)] =>
      let q := eval vm_compute in (2 ^ Zpos p)%Z in
      change (pow2 (Zpos p)) with (IZR q)
  | |- context [pow2 0] => change (pow2 0) with 1
  end.

Ltac F2R_literal c :=
  unfold F2R;
  let v := eval vm_compute in (Prim2SF c) in
  change (Prim2SF c) with v;
  cbn [B2R signed]; pow2_literals.

Lemma F2R_1 : F2R 1 = 1.
Proof. F2R_literal 1%float. lra. Qed.

Lemma F2R_1000 : F2R 1000 = 1000.
Proof. F2R_literal 1000%float. lra. Qed.

Lemma F2R_10000 : F2R 10000 = 10000.
Proof. F2R_literal 10000%float. lra. Qed.

Lemma F2R_1e12 : F2R 1000000000000 = 1000000000000.
Proof. F2R_literal 1000000000000%float. lra. Qed.

Lemma F2R_one_percent : 99 / 10000 <= F2R ((100 - 99) / 100).
Proof. F2R_literal ((100 - 99) / 100)%float. lra. Qed.

Lemma F2R_SEQUESTRATION_FACTORS (e : EcosystemType) :
  6 <= F2R (SEQUESTRATION_FACTORS e) <= 13.
Proof.
  destruct e; cbn [SEQUESTRATION_FACTORS].
  - F2R_literal 10.15%float. lra.
  - F2R_literal 8.7%float. lra.
  - F2R_literal 6.8%float. lra.
  - F2R_literal 12.3%float. lra.
Qed.

Lemma ffinite_SEQUESTRATION_FACTORS (e : EcosystemType) :
  ffinite (SEQUESTRATION_FACTORS e).
Proof. apply SFpositive_finite, fpositive_SEQUESTRATION_FACTORS. Qed.

Lemma ffinite_10000 : ffinite 10000.
Proof. vm_compute. reflexivity. Qed.

Lemma pow2_1023_large : 1000000000000000000000000000000 <= pow2 1023.
Proof.
  apply Rle_trans with (pow2 100); [|apply pow2_le; lia].
  pow2_literals. lra.
Qed.

Lemma pow2_1022_small : pow2 (-1022) <= / 1000000000000000000000000000000.
Proof.
  apply Rle_trans with (pow2 (-100)); [apply pow2_le; lia|].
  pow2_literals. lra.
Qed.

(** ** One step of a computation on positive numbers *)

Lemma mul_bounds (x y lx ux ly uy : R) :
  0 <= lx -> lx <= x <= ux -> 0 <= ly -> ly <= y <= uy ->
  lx * ly <= x * y <= ux * uy.
Proof.
  intros Hlx [Hx1 Hx2] Hly [Hy1 Hy2]. split.
  - apply Rmult_le_compat; assumption.
  - apply Rmult_le_compat; lra.
Qed.

Lemma INR_1000_u64 (n : nat) : (n <= 1000)%nat -> INR n * u64 <= / 1000000000000.
Proof.
  intros Hn. apply le_INR in Hn.
  replace (INR 1000) with 1000 in Hn by (cbn; lra).
  assert (H0 := pos_INR n). rewrite u64_val. nra.
Qed.

Lemma approx_crude (n : nat) (xh x : R) :
  0 <= x -> (n <= 1000)%nat -> approx n xh x -> x / 2 <= xh <= 2 * x.
Proof.
  intros Hx Hn Ha. assert (Hu := INR_1000_u64 n Hn).
  assert (Hu' : INR n * u64 <= / 2) by lra.
  destruct (approx_linear n xh x Hx Hu' Ha) as [Hl Hh].
  assert (H0 := pos_INR n). assert (Hu0 := u64_bounds).
  assert (0 <= INR n * u64) by (apply Rmult_le_pos; lra).
  split.
  - apply Rle_trans with (x * (1 - INR n * u64)); [|assumption]. nra.
  - apply Rle_trans with (x * (1 + 2 * INR n * u64)); [assumption|]. nra.
Qed.

(** A product of two approximated positive numbers, of moderate size. *)
Lemma step_mul (x y : float) (n m : nat) (x0 y0 : R) :
  ffinite x -> ffinite y -> 0 <= x0 -> 0 <= y0 ->
  approx n (F2R x) x0 -> approx m (F2R y) y0 ->
  (n + m <= 1000)%nat ->
  / 100000000000000000000 <= x0 * y0 <= 100000000000000000000 ->
  ffinite (x * y) /\ approx (S (n + m)) (F2R (x * y)) (x0 * y0).
Proof.
  intros Hfx Hfy Hx0 Hy0 Hax Hay Hnm [Hlo Hhi].
  assert (Ha := approx_mul n m _ _ _ _ Hx0 Hy0 Hax Hay).
  assert (Hxy0 : 0 <= x0 * y0) by now apply Rmult_le_pos.
  destruct (approx_crude _ _ _ Hxy0 Hnm Ha) as [Hl Hh].
  assert (Hbig := pow2_1023_large). assert (Hsmall := pow2_1022_small).
  destruct (fmul_fin x y Hfx Hfy) as [Hf Hr].
  { rewrite Rabs_pos_eq by lra. lra. }
  split; [assumption|].
  change (S (n + m)) with (1 + (n + m))%nat.
  apply approx_trans with (F2R x * F2R y); try assumption.
  apply approx_rounds; [lra | assumption].
Qed.

(** ** Ranges of the inputs *)

Lemma buffer_factor_range (b : Buffers) :
  fle 0%float (buffer_sum b) -> fle (buffer_sum b) 99%float ->
  ffinite (buffer_factor b) /\ 99 / 10000 <= F2R (buffer_factor b) <= 1.
Proof.
  intros H0 H99. unfold buffer_factor.
  apply (fle_sub_anti 100) in H0, H99; try apply ffinite_100.
  apply (fle_div_pos_r 100) in H0, H99; try apply fpositive_100.
  assert (Hf : ffinite ((100 - buffer_sum b) / 100)).
  { apply (ffinite_between _ _ _ H99 H0); vm_compute; reflexivity. }
  split; [assumption|]. split.
  - eapply Rle_trans; [apply F2R_one_percent|].
    apply fle_F2R; [assumption | vm_compute; reflexivity | assumption].
  - replace 1 with (F2R ((100 - 0) / 100)).
    + apply fle_F2R; [assumption | assumption | vm_compute; reflexivity].
    + change ((100 - 0) / 100)%float with 1%float. apply F2R_1.
Qed.

Lemma input_range (x lo hi : float) (l h : R) :
  fle lo x -> fle x hi -> ffinite lo -> ffinite hi ->
  F2R lo = l -> F2R hi = h ->
  ffinite x /\ l <= F2R x <= h.
Proof.
  intros Hlo Hhi Hfl Hfh <- <-.
  assert (Hf := ffinite_between _ _ _ Hlo Hhi Hfl Hfh).
  split; [assumption|]. split; apply fle_F2R; assumption.
Qed.

(** ** Forward mode, then policy mode *)

Lemma round_trip_formula (area : float) (e : EcosystemType) (years : float)
    (b : Buffers) :
  round_trip area e years b
  = Math.round
      (round2 (net_annual area e b * years)
       / (SEQUESTRATION_FACTORS e * buffer_factor b * years) * 10000)%float.
Proof. reflexivity. Qed.

Lemma ffinite_1 : ffinite 1.
Proof. vm_compute. reflexivity. Qed.

Lemma ffinite_1000 : ffinite 1000.
Proof. vm_compute. reflexivity. Qed.

Lemma ffinite_1e12 : ffinite 1000000000000.
Proof. vm_compute. reflexivity. Qed.

Lemma Rinv_bounds (d lo hi : R) :
  0 < lo -> lo <= d <= hi -> / hi <= / d <= / lo.
Proof.
  intros Hlo [H1 H2]. split; apply Rinv_le_contravar; lra.
Qed.

Theorem round_trip_bound (area : float) (e : EcosystemType) (years : float)
    (b : Buffers) :
  moderate_input area years b ->
  ffinite (round_trip area e years b) /\
  Rabs (F2R (round_trip area e years b) - F2R area)
  <= / 2
     + 50 * (1 + pow2 (-45))
       / (F2R (SEQUESTRATION_FACTORS e) * F2R (buffer_factor b) * F2R years)
     + pow2 (-45) * F2R area.
Proof.
  intros (Ha1 & Ha2 & Hy1 & Hy2 & Hb1 & Hb2).
  rewrite round_trip_formula.
  destruct (input_range area _ _ 1 1000000000000 Ha1 Ha2
              ffinite_1 ffinite_1e12 F2R_1 F2R_1e12) as [Hfa HA].
  destruct (input_range years _ _ 1 1000 Hy1 Hy2
              ffinite_1 ffinite_1000 F2R_1 F2R_1000) as [Hfy HY].
  destruct (buffer_factor_range b Hb1 Hb2) as [Hfbf HF].
  assert (HB := F2R_SEQUESTRATION_FACTORS e).
  assert (Hfbase := ffinite_SEQUESTRATION_FACTORS e).
  set (base := SEQUESTRATION_FACTORS e) in *. set (bf := buffer_factor b) in *.
  set (A := F2R area) in *. set (Y := F2R years) in *.
  set (B := F2R base) in *. set (F := F2R bf) in *.
  assert (Hbig := pow2_1023_large). assert (Hsmall := pow2_1022_small).
  (* forward mode *)
  assert (Hh : ffinite (area / 10000)%float /\
               approx 1 (F2R (area / 10000)%float) (A / 10000)).
  { destruct (fdiv_fin area 10000%float Hfa ffinite_10000) as [Hf Hr].
    - rewrite F2R_10000. lra.
    - rewrite F2R_10000. fold A. rewrite Rabs_pos_eq by lra. lra.
    - split; [assumption|]. rewrite F2R_10000 in Hr. fold A in Hr.
      apply approx_rounds; [lra | assumption]. }
  destruct Hh as [Hfh Hah].
  assert (HP1 : / 10000 <= A / 10000 <= 100000000) by lra.
  assert (HP2 := mul_bounds (A / 10000) B (/ 10000) 100000000 6 13 ltac:(lra) HP1 ltac:(lra) HB).
  destruct (step_mul (area / 10000)%float base 1 0 (A / 10000) B)
    as [Hfg Hag]; try assumption; try lra; try lia; try apply approx_refl.
  assert (HP3 := mul_bounds (A / 10000 * B) F (/ 10000 * 6) (100000000 * 13) (99 / 10000) 1
                   ltac:(lra) HP2 ltac:(lra) HF).
  destruct (step_mul (area / 10000 * base)%float bf 2 0 (A / 10000 * B) F)
    as [Hfn Han]; try assumption; try lra; try lia; try apply approx_refl.
  assert (HP4 := mul_bounds (A / 10000 * B * F) Y (/ 10000 * 6 * (99 / 10000))
                   (100000000 * 13 * 1) 1 1000 ltac:(lra) HP3 ltac:(lra) HY).
  destruct (step_mul (area / 10000 * base * bf)%float years 3 0 (A / 10000 * B * F) Y)
    as [Hfc Hac]; try assumption; try lra; try lia; try apply approx_refl.
  change (area / 10000 * base * bf)%float with (net_annual area e b) in *.
  set (c := (net_annual area e b * years)%float) in *.
  set (C0 := A / 10000 * B * F * Y) in *.
  assert (HC0 : 0 <= C0) by lra.
  destruct (step_mul c 100%float 4 0 C0 100)
    as [Hfw Haw]; try assumption; try lra; try lia.
  { apply ffinite_100. }
  { rewrite F2R_100. apply approx_refl. }
  destruct (fround_fin _ Hfw) as [Hfk Hk].
  set (W := F2R (c * 100)%float) in *.
  set (K := F2R (Math.round (c * 100)%float)) in *.
  assert (HW100 : 0 <= C0 * 100) by lra.
  assert (H5 : (5 <= 1000)%nat) by lia.
  destruct (approx_crude _ _ _ HW100 H5 Haw) as [HWl HWh].
  destruct (approx_linear 5 W (C0 * 100) HW100) as [HWl' HWh'];
    [apply Rlt_le, Rle_lt_trans with (/ 1000000000000);
       [apply INR_1000_u64; lia | lra] | assumption |].
  replace (INR 5) with 5 in HWl', HWh' by (cbn; lra).
  assert (HKe := js_rounds_error _ _ Hk).
  assert (HK0 : 0 <= K).
  { assert (HW0 : 0 <= W) by lra.
    apply (js_rounds_mono 0 W 0 K HW0 (js_rounds_int 0) Hk). }
  destruct (fdiv_fin (Math.round (c * 100)%float) 100%float Hfk ffinite_100)
    as [Hft Ht].
  { rewrite F2R_100. lra. }
  { rewrite F2R_100. fold K. rewrite Rabs_pos_eq by lra. lra. }
  rewrite F2R_100 in Ht. fold K in Ht.
  change (Math.round (c * 100) / 100)%float with (round2 c) in *.
  set (T := F2R (round2 c)) in *.
  assert (HK100 : 0 <= K / 100) by lra.
  destruct (rounds_error_nonneg _ _ HK100 Ht) as [HT0 HT].
  (* policy mode *)
  assert (HQ1 := mul_bounds B F 6 13 (99 / 10000) 1 ltac:(lra) HB ltac:(lra) HF).
  destruct (step_mul base bf 0 0 B F)
    as [Hfe Hae]; try assumption; try lra; try lia; try apply approx_refl.
  assert (HQ2 := mul_bounds (B * F) Y (6 * (99 / 10000)) (13 * 1) 1 1000
                   ltac:(lra) HQ1 ltac:(lra) HY).
  destruct (step_mul (base * bf)%float years 1 0 (B * F) Y)
    as [Hfd Had]; try assumption; try lra; try lia; try apply approx_refl.
  set (d := (base * bf * years)%float) in *. set (D0 := B * F * Y) in *.
  set (D := F2R d) in *.
  assert (HD0 : 0 <= D0) by lra.
  assert (H2n : (2 <= 1000)%nat) by lia.
  destruct (approx_crude _ _ _ HD0 H2n Had) as [HDl HDh].
  destruct (approx_linear 2 D D0 HD0) as [HDl' HDh'];
    [apply Rlt_le, Rle_lt_trans with (/ 1000000000000);
       [apply INR_1000_u64; lia | lra] | assumption |].
  replace (INR 2) with 2 in HDl', HDh' by (cbn; lra).
  assert (Hu := u64_val). assert (He := eta64_small).
  assert (HDpos : 0 < D) by lra.
  (* the quotient *)
  set (J := / D). set (I := / D0).
  assert (HIpos : 0 < I) by (apply Rinv_0_lt_compat; lra).
  assert (HI : I <= 20) by (unfold I; apply Rle_trans with (/ (6 * (99 / 10000) * 1));
    [apply Rinv_le_contravar; lra | lra]).
  assert (HID : I * D0 = 1) by (unfold I; field; lra).
  assert (HJ : I * / (1 + 4 * u64) <= J <= I * / (1 - 2 * u64)).
  { unfold J, I. rewrite <- !Rinv_mult. rewrite Hu in *.
    apply Rinv_bounds; [nra|]. split; lra. }
  assert (HJpos : 0 < J) by (apply Rinv_0_lt_compat; lra).
  assert (HCI : C0 * I = A / 10000).
  { unfold C0. replace (A / 10000 * B * F * Y) with (A / 10000 * D0) by (unfold D0; ring).
    rewrite Rmult_assoc, (Rmult_comm D0), HID. ring. }
  set (q := T / D).
  assert (Hq : q = T * J) by reflexivity.
  rewrite Hu in *.
  set (ku := / (1 - 2 * / 9007199254740992)) in *.
  set (kl := / (1 + 4 * / 9007199254740992)) in *.
  assert (Hku : 1 <= ku <= 1 + / 1000000000000000).
  { unfold ku. split.
    - apply Rle_trans with (/ 1); [rewrite Rinv_1; lra | apply Rinv_le_contravar; lra].
    - apply Rle_trans with (/ (/ (1 + / 1000000000000000))); [|rewrite Rinv_inv; lra].
      apply Rinv_le_contravar; [apply Rinv_0_lt_compat; lra|].
      apply Rmult_le_reg_r with (1 + / 1000000000000000); [lra|].
      rewrite Rinv_l by lra. lra. }
  assert (Hkl : 1 - / 1000000000000000 <= kl <= 1).
  { unfold kl. split.
    - apply Rmult_le_reg_r with (1 + 4 * / 9007199254740992); [lra|].
      rewrite Rinv_l by lra. lra.
    - apply Rle_trans with (/ 1); [apply Rinv_le_contravar; lra | rewrite Rinv_1; lra]. }
  clearbody ku kl.
  (* upper and lower bounds of the target *)
  set (Tu := C0 * (1 + / 500000000000000) + / 200 * (1 + / 500000000000000)).
  set (c2 := / 200 * (1 + / 500000000000000)).
  assert (HTu : T <= Tu) by (unfold Tu; lra).
  assert (HTl : C0 * (1 - / 500000000000000) - c2 <= T) by (unfold c2; lra).
  assert (HTu0 : 0 <= Tu) by (unfold Tu; lra).
  assert (Hqu : q <= (1 + / 500000000000000) * ku * (A / 10000)
                     + / 200 * (1 + / 500000000000000) * ku * I).
  { rewrite Hq.
    apply Rle_trans with (Tu * (I * ku)).
    - apply Rmult_le_compat; lra.
    - unfold Tu. rewrite <- HCI. ring_simplify. lra. }
  assert (Hql : (1 - / 500000000000000) * kl * (A / 10000) - c2 * ku * I <= q).
  { rewrite Hq.
    apply Rle_trans with ((C0 * (1 - / 500000000000000) - c2) * J).
    - assert (H1 : C0 * (1 - / 500000000000000) * (I * kl)
                   <= C0 * (1 - / 500000000000000) * J).
      { apply Rmult_le_compat_l; [|lra]. apply Rmult_le_pos; lra. }
      assert (H2 : c2 * J <= c2 * (I * ku)).
      { apply Rmult_le_compat_l; [unfold c2; lra | lra]. }
      replace (C0 * (1 - / 500000000000000) * (I * kl))
        with ((1 - / 500000000000000) * kl * (C0 * I)) in H1 by ring.
      rewrite HCI in H1. lra.
    - apply Rmult_le_compat_r; lra. }
  assert (Hq0 : 0 <= q) by (rewrite Hq; apply Rmult_le_pos; lra).
  (* the two last roundings *)
  assert (HAI1 : (1 + / 500000000000000) * ku * (A / 10000) <= A / 5000).
  { apply Rle_trans with (2 * (A / 10000)); [|lra].
    apply Rmult_le_compat_r; lra. }
  assert (HAI2 : / 200 * (1 + / 500000000000000) * ku * I <= I).
  { apply Rle_trans with (1 * I); [|lra].
    apply Rmult_le_compat_r; lra. }
  destruct (fdiv_fin (round2 c) d Hft Hfd) as [Hfrh Hrh].
  { fold D. lra. }
  { fold T D q. rewrite Rabs_pos_eq by lra. lra. }
  fold T D q in Hrh.
  destruct (rounds_error_nonneg _ _ Hq0 Hrh) as [HRH0 HRH].
  rewrite u64_val in HRH.
  set (RH := F2R (round2 c / d)%float) in *.
  destruct (fmul_fin (round2 c / d)%float 10000%float Hfrh ffinite_10000)
    as [Hfrm Hrm].
  { rewrite F2R_10000. fold RH. rewrite Rabs_pos_eq by lra. lra. }
  rewrite F2R_10000 in Hrm. fold RH in Hrm.
  assert (HRH1 : 0 <= RH * 10000) by lra.
  destruct (rounds_error_nonneg _ _ HRH1 Hrm) as [HRM0 HRM].
  rewrite u64_val in HRM.
  set (RM := F2R (round2 c / d * 10000)%float) in *.
  destruct (fround_fin _ Hfrm) as [Hfout Hout].
  fold RM in Hout. apply js_rounds_error in Hout.
  split; [assumption|].
  set (OUT := F2R (Math.round (round2 c / d * 10000)%float)) in *.
  fold D0. fold I. change (50 * (1 + pow2 (-45)) / D0) with (50 * (1 + pow2 (-45)) * I).
  change (pow2 (-45)) with (/ 35184372088832).
  assert (HkA : ku * A <= A + A / 1000000000000000).
  { apply Rle_trans with ((1 + / 1000000000000000) * A); [|lra].
    apply Rmult_le_compat_r; lra. }
  assert (HkI : ku * I <= I + I / 1000000000000000).
  { apply Rle_trans with ((1 + / 1000000000000000) * I); [|lra].
    apply Rmult_le_compat_r; lra. }
  assert (HlA : A - A / 1000000000000000 <= kl * A).
  { apply Rle_trans with ((1 - / 1000000000000000) * A); [lra|].
    apply Rmult_le_compat_r; lra. }
  replace ((1 - / 500000000000000) * kl * (A / 10000))
    with ((1 - / 500000000000000) / 10000 * (kl * A)) in Hql by field.
  replace (c2 * ku * I) with (c2 * (ku * I)) in Hql by ring.
  replace ((1 + / 500000000000000) * ku * (A / 10000))
    with ((1 + / 500000000000000) / 10000 * (ku * A)) in Hqu by field.
  replace (/ 200 * (1 + / 500000000000000) * ku * I)
    with (/ 200 * (1 + / 500000000000000) * (ku * I)) in Hqu by ring.
  unfold c2 in *. clear HAI1 HAI2.
  apply Rabs_le. split; lra.
Qed.

Local Open Scope float_scope.

(** ** Signs of the forward-mode results *)

Lemma forward_fields (area : float) (e : EcosystemType) (years : float) (b : Buffers) :
  let r := calculateCarbonSequestration (forward_input area e years b) in
  let n := net_annual area e b in
  annual_absorption r = round2 n /\
  cumulative_absorption r = round2 (n * years) /\
  cars_removed (equivalences r)
  = Math.round (n * IMPACT_EQUIVALENCES.cars_removed_per_year) /\
  homes_powered (equivalences r)
  = Math.round (n * IMPACT_EQUIVALENCES.homes_powered_per_year) /\
  trees_planted (equivalences r)
  = Math.round (n * years * IMPACT_EQUIVALENCES.trees_planted) /\
  policy_area_needed r = None.
Proof. repeat split. Qed.

Lemma SFmul_nonneg (x c : spec_float) :
  valid_binary x = true -> valid_binary c = true ->
  x = S754_nan \/ (0 <= SFval x)%R ->
  c = S754_nan \/ (0 <= SFval c)%R ->
  SFwle (S754_zero false) (SFmul prec emax x c).
Proof.
  intros Hvx Hvc Hx Hc.
  assert (Hw : SFwle (S754_zero false) x).
  { destruct Hx as [->|Hx]; [now right; left|]. right. right. exact Hx. }
  assert (Hp := pow2_pos 1024).
  destruct c as [sc|sc| |sc mc ec].
  - apply (SFwle_const 0%R); [now right|].
    destruct x as [s|s| |s m e]; cbn; auto.
  - destruct Hc as [Hc|Hc]; [discriminate|].
    destruct sc; [cbn [SFval signed] in Hc; lra|].
    destruct Hx as [->|Hx]; [now right; left|].
    destruct x as [sx|sx| |sx mx ex]; try (now right; left);
      cbn [SFmul]; rewrite xorb_false_r; right; right;
      try (apply finite_range in Hvx);
      destruct sx; cbn [SFval B2R signed] in *; lra.
  - right. left. apply SFmul_nan_r.
  - destruct Hc as [Hc|Hc]; [discriminate|].
    destruct sc.
    { apply finite_range in Hvc. cbn [SFval B2R signed] in Hc. lra. }
    assert (H := SFwle_mul_pos_r (S754_finite false mc ec) (S754_zero false) x
                   Hvc ltac:(now exists mc, ec) eq_refl Hvx Hw).
    exact H.
Qed.

Lemma fwle_0_cases (x : float) :
  fwle 0 x -> Prim2SF x = S754_nan \/ (0 <= SFval (Prim2SF x))%R.
Proof.
  intros H. apply fwle_SFwle in H.
  change (Prim2SF 0) with (S754_zero false) in H.
  destruct H as [H|[H|H]]; [discriminate | now left | now right].
Qed.

Lemma fmul_nonneg (x c : float) : fwle 0 x -> fwle 0 c -> fwle 0 (x * c).
Proof.
  intros Hx Hc. apply fwle_0_cases in Hx, Hc.
  apply fwle_SFwle. rewrite mul_spec.
  change (Prim2SF 0) with (S754_zero false).
  apply SFmul_nonneg; try apply Prim2SF_valid; assumption.
Qed.

Lemma round2_0 : round2 0 = 0.
Proof. vm_compute. reflexivity. Qed.

Lemma round_0 : Math.round 0 = 0.
Proof. vm_compute. reflexivity. Qed.

Lemma fwle_0_round2 (x : float) : fwle 0 x -> fwle 0 (round2 x).
Proof. intros H. rewrite <- round2_0. now apply fwle_round2. Qed.

Lemma fwle_0_round (x : float) : fwle 0 x -> fwle 0 (Math.round x).
Proof. intros H. rewrite <- round_0. now apply fwle_round. Qed.

Lemma net_annual_not_negative (area : float) (e : EcosystemType) (b : Buffers) :
  fle 0 area -> fle (buffer_sum b) 100 -> fwle 0 (net_annual area e b).
Proof.
  intros Ha Hb. unfold net_annual.
  apply fmul_nonneg; apply fle_fwle;
    [now apply gross_nonneg | now apply buffer_factor_nonneg].
Qed.

Lemma fwle_0_const (c : float) : fle 0 c -> fwle 0 c.
Proof. apply fle_fwle. Qed.

(** ** A factor of at least one *)

Lemma SFmul_ge_1 (x y : spec_float) :
  valid_binary x = true -> valid_binary y = true ->
  x = S754_nan \/ (0 <= SFval x)%R ->
  y <> S754_nan -> (1 <= SFval y)%R ->
  SFwle x (SFmul prec emax x y).
Proof.
  intros Hvx Hvy Hx Hny Hy.
  assert (Hp := pow2_pos 1024).
  destruct Hx as [->|Hx]; [now left|].
  destruct (SFcases x) as [->|[->|[->|Hfx]]]; [now left | | |].
  - cbn [SFval signed] in Hx. lra.
  - destruct y as [sy|sy| |sy my ey]; try contradiction.
    + cbn [SFval B2R] in Hy. lra.
    + destruct sy; [cbn [SFval signed] in Hy; lra|].
      right. right. cbn. lra.
    + destruct sy.
      { apply finite_range in Hvy. cbn [SFval B2R signed] in Hy. lra. }
      right. right. cbn. lra.
  - destruct (SFcases y) as [->|[->|[->|Hfy]]]; [contradiction | | |].
    + cbn [SFval signed] in Hy. lra.
    + destruct x as [sx|sx| |sx mx ex]; try discriminate.
      * right. left. reflexivity.
      * destruct sx.
        { apply finite_range in Hvx. cbn [SFval B2R signed] in Hx. lra. }
        right. right. cbn [SFmul xorb SFval B2R signed].
        apply finite_range in Hvx. lra.
    + destruct (SFmul_spec x y Hvx Hvy Hfx Hfy) as (r & Hr & Hres).
      apply SFle_SFwle.
      apply (op_result_le (B2R x) r); [|now apply op_result_B2R|assumption].
      rewrite !SFval_finite in * by assumption.
      apply (rounds_mono (B2R x) (B2R x * B2R y)); [nra| |assumption].
      now apply rounds_B2R.
Qed.

Lemma fmul_ge_1 (x y : float) : fwle 0 x -> fle 1 y -> fwle x (x * y).
Proof.
  intros Hx Hy. apply fwle_0_cases in Hx. apply fle_SFle in Hy.
  destruct Hy as (_ & Hny & Hy).
  change (SFval (Prim2SF 1)) with (B2R (Prim2SF 1)) in Hy.
  fold (F2R 1) in Hy. rewrite F2R_1 in Hy.
  apply fwle_SFwle. rewrite mul_spec.
  apply SFmul_ge_1; try apply Prim2SF_valid; assumption.
Qed.

(** [fwle] on the left of a product whose left factor is not negative. *)
Lemma fwle_mul_weak_l (c x y : float) :
  fwle 0 c -> fwle x y -> fwle (c * x) (c * y).
Proof.
  intros Hc H. apply fwle_0_cases in Hc. to_SF.
  apply SFwle_mul_nonneg_l; valid_SF.
Qed.

Lemma fwle_mul_weak_r (c x y : float) :
  fwle 0 c -> fwle x y -> fwle (x * c) (y * c).
Proof.
  intros Hc H. apply fwle_0_cases in Hc. to_SF.
  apply SFwle_mul_nonneg_r; valid_SF.
Qed.

(** ** Whole numbers *)

Lemma fround_whole (x : float) :
  ffinite (Math.round x) -> exists n : Z, F2R (Math.round x) = IZR n.
Proof.
  intros H. apply fround_finite_inv in H. destruct H as (_ & n & _ & Hn).
  now exists n.
Qed.

Local Open Scope R_scope.

(** ** Sign bits *)

Lemma SF_result_plus (r : R) (f : spec_float) : SF_result false r f -> SFplus f.
Proof.
  intros [[_ ->]|[[_ (m & e & -> & _)]|[_ ->]]]; reflexivity.
Qed.

Lemma SFplus_mul (x y : spec_float) :
  valid_binary x = true -> valid_binary y = true ->
  SFplus x -> SFplus y -> SFplus (SFmul prec emax x y).
Proof.
  intros Hvx Hvy Hx Hy.
  destruct x as [sx|sx| |sx mx ex], y as [sy|sy| |sy my ey];
    cbn [SFplus] in Hx, Hy; subst; try exact I; try reflexivity.
  destruct (SFmul_finite_spec false false mx my ex ey Hvx Hvy) as (r & _ & Hres).
  exact (SF_result_plus r _ Hres).
Qed.

Lemma SFplus_div (x y : spec_float) :
  valid_binary x = true -> valid_binary y = true ->
  SFplus x -> SFplus y -> SFplus (SFdiv prec emax x y).
Proof.
  intros Hvx Hvy Hx Hy.
  destruct x as [sx|sx| |sx mx ex], y as [sy|sy| |sy my ey];
    cbn [SFplus] in Hx, Hy; subst; try exact I; try reflexivity.
  destruct (SFdiv_finite_spec false false mx my ex ey Hvx Hvy) as (r & _ & Hres).
  exact (SF_result_plus r _ Hres).
Qed.

Lemma binary_normalize_plus (m e : Z) :
  (0 <= m)%Z -> SFplus (binary_normalize prec emax m e false).
Proof.
  intros Hm. destruct m as [|p|p]; [reflexivity | | lia].
  cbn [binary_normalize].
  destruct (binary_round_spec false p e) as (r & _ & Hres).
  exact (SF_result_plus r _ Hres).
Qed.

(** A positive number minus a number that is not larger. *)
Lemma SFplus_sub (x y : spec_float) :
  valid_binary x = true -> valid_binary y = true ->
  SFpositive x -> SFle y x -> SFplus (SFsub prec emax x y).
Proof.
  intros Hvx Hvy (mx & ex & ->) (Hny & _ & Hle).
  assert (Hp := pow2_pos 1024).
  assert (Hrx := finite_range _ _ _ Hvx).
  destruct y as [sy|sy| |sy my ey]; try contradiction.
  - reflexivity.
  - destruct sy; [reflexivity|]. cbn [SFval B2R signed] in Hle. lra.
  - cbn [SFsub].
    apply binary_normalize_plus.
    set (ez := Z.min ex ey).
    set (M := (cond_Zopp false (Zpos (fst (shl_align mx ex ez)))
               - cond_Zopp sy (Zpos (fst (shl_align my ey ez))))%Z).
    assert (Hval : IZR M * pow2 ez
                   = IZR (Zpos mx) * pow2 ex - signed sy (IZR (Zpos my) * pow2 ey)).
    { unfold M. rewrite minus_IZR, Rmult_minus_distr_r.
      rewrite !aligned_value by (unfold ez; lia). reflexivity. }
    cbn [SFval B2R signed] in Hle.
    assert (Hpe := pow2_pos ez).
    apply le_IZR.
    destruct (Rle_lt_dec 0 (IZR M)) as [H|H]; [exact H|].
    exfalso.
    assert (IZR M * pow2 ez < 0).
    { apply Ropp_lt_cancel. rewrite Ropp_0, Ropp_mult_distr_l.
      apply Rmult_lt_0_compat; lra. }
    destruct sy; cbn [signed] in *; lra.
Qed.

(** What a number with a clear sign bit can be. *)
Lemma SFplus_cases (c : spec_float) :
  SFplus c ->
  c = S754_nan \/ c = S754_zero false \/ c = S754_infinity false \/ SFpositive c.
Proof.
  destruct c as [s|s| |s m e]; cbn [SFplus]; intros H; subst; auto.
  right. right. right. now exists m, e.
Qed.

Lemma SFplus_nonneg (c : spec_float) :
  valid_binary c = true -> SFplus c -> c = S754_nan \/ 0 <= SFval c.
Proof.
  intros Hv H. assert (Hp := pow2_pos 1024).
  destruct (SFplus_cases c H) as [->|[->|[->|(m & e & ->)]]]; auto; right;
    cbn [SFval B2R signed]; try lra.
  apply finite_range in Hv. lra.
Qed.

(** A number above zero has a clear sign bit. *)
Lemma SFplus_of_pos (c : spec_float) :
  valid_binary c = true -> c <> S754_nan -> 0 < SFval c -> SFplus c.
Proof.
  intros Hv Hn H. assert (Hp := pow2_pos 1024).
  destruct c as [s|s| |s m e]; try contradiction; cbn [SFval B2R SFplus] in *.
  - lra.
  - destruct s; [cbn [signed] in H; lra | reflexivity].
  - apply finite_range in Hv. destruct s; [cbn [signed] in H; lra | reflexivity].
Qed.

(** ** Division by a number with a clear sign bit *)

Lemma SFwle_div_plus_r (c x y : spec_float) :
  valid_binary c = true -> SFplus c ->
  valid_binary x = true -> valid_binary y = true ->
  SFwle x y -> SFwle (SFdiv prec emax x c) (SFdiv prec emax y c).
Proof.
  intros Hvc Hc Hvx Hvy Hxy.
  assert (Hp := pow2_pos 1024).
  destruct (SFplus_cases c Hc) as [->|[->|[->|Hpos]]].
  - left. now destruct x.
  - destruct Hxy as [->|[->|Hxy]]; [now left | now right; left |].
    destruct x as [sx|sx| |sx mx ex]; try (now left);
      destruct y as [sy|sy| |sy my ey]; try (now right; left);
      cbn [SFdiv]; rewrite ?xorb_false_r; right; right;
      try (apply finite_range in Hvx); try (apply finite_range in Hvy);
      destruct sx, sy; cbn [SFval B2R signed] in *; lra.
  - apply (SFwle_const 0).
    + destruct x as [s|s| |s m e]; cbn; auto.
    + destruct y as [s|s| |s m e]; cbn; auto.
  - now apply SFwle_div_pos_r.
Qed.

Lemma SFdiv_nonneg (t c : spec_float) :
  valid_binary t = true -> valid_binary c = true ->
  t = S754_nan \/ 0 <= SFval t -> SFplus c ->
  SFwle (S754_zero false) (SFdiv prec emax t c).
Proof.
  intros Hvt Hvc Ht Hc.
  destruct Ht as [->|Ht]; [now right; left|].
  assert (H := SFwle_div_plus_r c (S754_zero false) t Hvc Hc eq_refl Hvt
                 ltac:(now right; right)).
  destruct (SFplus_cases c Hc) as [->|[->|[->|(m & e & ->)]]].
  - right. left. now destruct t.
  - assert (Hp := pow2_pos 1024).
    destruct t as [s|s| |s m e]; try (now right; left); cbn [SFdiv];
      rewrite ?xorb_false_r; right; right.
    + destruct s; cbn [SFval B2R signed] in *; lra.
    + apply finite_range in Hvt. destruct s; cbn [SFval B2R signed] in *; lra.
  - exact H.
  - exact H.
Qed.

(** A quotient with a numerator that is not negative shrinks when the
    denominator grows. *)
Lemma SFwle_div_anti (t c c' : spec_float) :
  valid_binary t = true -> valid_binary c = true -> valid_binary c' = true ->
  t = S754_nan \/ 0 <= SFval t ->
  SFplus c -> SFplus c' -> SFwle c c' ->
  SFwle (SFdiv prec emax t c') (SFdiv prec emax t c).
Proof.
  intros Hvt Hvc Hvc' Ht Hc Hc' Hcc.
  assert (Hp := pow2_pos 1024).
  destruct Ht as [->|Ht]; [now left|].
  assert (H0 := SFdiv_nonneg t c Hvt Hvc (or_intror Ht) Hc).
  assert (H0' := SFdiv_nonneg t c' Hvt Hvc' (or_intror Ht) Hc').
  destruct (SFplus_cases c Hc) as [->|[->|[->|Hpos]]].
  - right. left. now destruct t.
  - (* c = +0: the quotient is +infinity or NaN *)
    destruct t as [s|s| |s m e]; try (now right; left).
    + destruct s; [cbn [SFval signed] in Ht; lra|].
      destruct c' as [s'|s'| |s' m' e']; cbn [SFplus] in Hc'; subst;
        try (now left); right; right; cbn [SFdiv xorb SFval signed]; try lra.
    + destruct s.
      { apply finite_range in Hvt. cbn [SFval B2R signed] in Ht. lra. }
      change (SFdiv prec emax (S754_finite false m e) (S754_zero false))
        with (S754_infinity false).
      destruct (SFcases (SFdiv prec emax (S754_finite false m e) c'))
        as [->|Hq]; [now left|].
      right. right. cbn [SFval signed].
      assert (Hq' : valid_binary (SFdiv prec emax (S754_finite false m e) c') = true).
      { destruct c' as [s'|s'| |s' m' e']; try reflexivity.
        destruct (SFdiv_finite_spec false s' m m' e e' Hvt Hvc') as (r & _ & Hres).
        apply SF_result_val in Hres. apply Hres. }
      apply SFval_range in Hq'. lra.
  - (* c = +infinity, so c' = +infinity too *)
    destruct Hcc as [Hcc|[->|Hcc]]; [discriminate | left; now destruct t |].
    assert (Hc'inf : c' = S754_infinity false).
    { destruct c' as [s'|s'| |s' m' e']; cbn [SFplus] in Hc'; subst;
        cbn [SFval B2R signed] in Hcc; try lra; try reflexivity.
      apply finite_range in Hvc'. lra. }
    subst c'. apply (SFwle_const 0); destruct t as [s|s| |s m e]; cbn; auto.
  - (* c is a positive number *)
    destruct Hcc as [Hcc|[->|Hcc]].
    + destruct Hpos as (m & e & ->). discriminate.
    + left. now destruct t.
    + destruct (SFplus_cases c' Hc') as [->|[->|[->|Hpos']]].
      * left. now destruct t.
      * exfalso. assert (HC := SFpositive_B2R c Hpos).
        rewrite (SFval_finite c (SFpositive_finite c Hpos)) in Hcc.
        cbn [SFval B2R] in Hcc. lra.
      * (* c' = +infinity: the quotient is zero or NaN *)
        destruct (SFcases (SFdiv prec emax t c)) as [->|Hq]; [now right; left|].
        destruct t as [s|s| |s m e]; try (now left); right; right;
          cbn [SFdiv SFval B2R].
        -- destruct H0 as [H0|[H0|H0]]; try discriminate.
           ++ destruct Hpos as (mc & ec & ->). discriminate.
           ++ exact H0.
        -- destruct H0 as [H0|[H0|H0]]; try discriminate.
           ++ destruct Hpos as (mc & ec & ->). cbn [SFdiv] in H0.
              exfalso. revert H0. cbn [SFdiv].
              destruct (SFdiv_finite_spec s false m mc e ec Hvt Hvc) as (r & _ & Hres).
              apply SF_result_val in Hres. destruct Hres as (_ & Hn & _).
              intros E. apply Hn. exact E.
           ++ exact H0.
      * (* both are positive numbers *)
        assert (HC := SFpositive_B2R c Hpos). assert (HC' := SFpositive_B2R c' Hpos').
        assert (Hfc := SFpositive_finite c Hpos).
        assert (Hfc' := SFpositive_finite c' Hpos').
        rewrite !SFval_finite in Hcc by assumption.
        destruct (SFcases t) as [->|[->|[->|Hft]]].
        -- now left.
        -- cbn [SFval signed] in Ht. lra.
        -- destruct Hpos as (m & e & ->), Hpos' as (m' & e' & ->).
           right. right. cbn. lra.
        -- rewrite SFval_finite in Ht by assumption.
           destruct (SFdiv_spec t c Hvt Hvc Hft Hfc ltac:(lra)) as (r & Hr & Hres).
           destruct (SFdiv_spec t c' Hvt Hvc' Hft Hfc' ltac:(lra)) as (r' & Hr' & Hres').
           apply SFle_SFwle. apply (op_result_le r' r); try assumption.
           apply (rounds_mono (B2R t / B2R c') (B2R t / B2R c)); try assumption.
           unfold Rdiv. apply Rmult_le_compat_l; [assumption|].
           apply Rinv_le_contravar; assumption.
Qed.

Local Open Scope float_scope.

(** ** Policy mode, step by step *)

Lemma policy_fields (target : float) (e : EcosystemType) (years : float)
    (b : Buffers) :
  let r := calculateRequiredArea (policy_input target e years b) in
  annual_absorption r = round2 (target / years) /\
  cumulative_absorption r = Math.round (target * 100) / 100 /\
  cars_removed (equivalences r)
  = Math.round (target * IMPACT_EQUIVALENCES.cars_removed_per_year / years) /\
  homes_powered (equivalences r)
  = Math.round (target * IMPACT_EQUIVALENCES.homes_powered_per_year / years) /\
  trees_planted (equivalences r)
  = Math.round (target * IMPACT_EQUIVALENCES.trees_planted) /\
  policy_area_needed r = Some (Math.round (required_m2 target e years b)).
Proof. repeat split. Qed.

Lemma fplus_mul (x y : float) : fplus x -> fplus y -> fplus (x * y).
Proof.
  unfold fplus. rewrite mul_spec. apply SFplus_mul; apply Prim2SF_valid.
Qed.

Lemma fplus_div (x y : float) : fplus x -> fplus y -> fplus (x / y).
Proof.
  unfold fplus. rewrite div_spec. apply SFplus_div; apply Prim2SF_valid.
Qed.

Lemma fplus_sub (x y : float) : fpositive x -> fle y x -> fplus (x - y).
Proof.
  unfold fplus, fpositive. rewrite sub_spec, fle_SFle.
  apply SFplus_sub; apply Prim2SF_valid.
Qed.

Lemma fplus_of_positive (c : float) : fpositive c -> fplus c.
Proof. intros (m & e & H). unfold fplus. now rewrite H. Qed.

Lemma fplus_of_lt (y : float) : (0 <? y) = true -> fplus y.
Proof.
  rewrite ltb_spec. intros H.
  apply SFltb_SFval in H; try apply Prim2SF_valid.
  destruct H as (_ & Hn & H).
  apply SFplus_of_pos; [apply Prim2SF_valid | assumption | exact H].
Qed.

Lemma fplus_nonneg (c : float) : fplus c -> fwle 0 c.
Proof.
  intros H. apply fwle_SFwle.
  destruct (SFplus_nonneg _ (Prim2SF_valid c) H) as [Hn|Hv];
    [now right; left | now right; right].
Qed.

Lemma fplus_buffer_factor (b : Buffers) :
  fle (buffer_sum b) 100 -> fplus (buffer_factor b).
Proof.
  intros H. unfold buffer_factor.
  apply fplus_div; [|apply fplus_of_positive, fpositive_100].
  apply fplus_sub; [apply fpositive_100 | assumption].
Qed.

Lemma fplus_horizon_yield (e : EcosystemType) (years : float) (b : Buffers) :
  fle (buffer_sum b) 100 -> (0 <? years) = true -> fplus (horizon_yield e years b).
Proof.
  intros Hb Hy. unfold horizon_yield.
  apply fplus_mul; [|now apply fplus_of_lt].
  apply fplus_mul; [|now apply fplus_buffer_factor].
  apply fplus_of_positive, fpositive_SEQUESTRATION_FACTORS.
Qed.

Lemma fwle_div_plus_r (c x y : float) :
  fplus c -> fwle x y -> fwle (x / c) (y / c).
Proof.
  intros Hc H. unfold fplus in Hc. to_SF. apply SFwle_div_plus_r; valid_SF.
Qed.

Lemma fdiv_nonneg (t c : float) : fwle 0 t -> fplus c -> fwle 0 (t / c).
Proof.
  intros Ht Hc. apply fwle_0_cases in Ht. unfold fplus in Hc.
  apply fwle_SFwle. rewrite div_spec.
  change (Prim2SF 0) with (S754_zero false).
  apply SFdiv_nonneg; valid_SF.
Qed.

Lemma fwle_div_anti (t c c' : float) :
  fwle 0 t -> fplus c -> fplus c' -> fwle c c' -> fwle (t / c') (t / c).
Proof.
  intros Ht Hc Hc' H. apply fwle_0_cases in Ht. unfold fplus in Hc, Hc'.
  to_SF. apply SFwle_div_anti; valid_SF.
Qed.

Lemma fwle_required_area (x y : float) :
  fwle x y -> fwle (Math.round (x * 10000)) (Math.round (y * 10000)).
Proof.
  intros H. apply fwle_round.
  apply fwle_mul_pos_r; [apply fpositive_10000 | assumption].
Qed.

(** The required area does not shrink when the absorption of a hectare
    over the horizon does. *)
Lemma required_area_antitone (target : float) (d d' : float) :
  fwle 0 target -> fplus d -> fplus d' -> fwle d d' ->
  fwle (Math.round (target / d' * 10000)) (Math.round (target / d * 10000)).
Proof.
  intros Ht Hd Hd' H. apply fwle_required_area. now apply fwle_div_anti.
Qed.

(** ** A horizon of zero years *)

Lemma fle_mul_pos_l (c x y : float) :
  fpositive c -> fle x y -> fle (c * x) (c * y).
Proof.
  intros Hc H. unfold fpositive in Hc. to_SF. apply SFmul_le_pos_l; valid_SF.
Qed.

Lemma buffer_factor_unit (b : Buffers) :
  fle 0 (buffer_sum b) -> fle (buffer_sum b) 100 ->
  fle 0 (buffer_factor b) /\ fle (buffer_factor b) 1.
Proof.
  intros H0 H100. unfold buffer_factor.
  apply (fle_sub_anti 100) in H0, H100; try apply ffinite_100.
  apply (fle_div_pos_r 100) in H0, H100; try apply fpositive_100.
  split; assumption.
Qed.

Lemma effective_finite (e : EcosystemType) (b : Buffers) :
  fle 0 (buffer_sum b) -> fle (buffer_sum b) 100 ->
  ffinite (SEQUESTRATION_FACTORS e * buffer_factor b).
Proof.
  intros H0 H100. destruct (buffer_factor_unit b H0 H100) as [Hl Hu].
  apply (fle_mul_pos_l (SEQUESTRATION_FACTORS e)) in Hl, Hu;
    try apply fpositive_SEQUESTRATION_FACTORS.
  apply (ffinite_between _ _ _ Hl Hu); destruct e; vm_compute; reflexivity.
Qed.

Lemma fmul_plus_0 (x : float) : ffinite x -> fplus x -> x * 0 = 0.
Proof.
  unfold ffinite, fplus. intros Hf Hp. apply Prim2SF_inj. rewrite mul_spec.
  change (Prim2SF 0) with (S754_zero false).
  destruct (Prim2SF x) as [s|s| |s m e]; try discriminate;
    cbn [SFplus] in Hp; subst; reflexivity.
Qed.

(** ** The growth rate of the anomaly detector *)

Lemma SFdiv_self (p : spec_float) :
  valid_binary p = true -> SFpositive p ->
  SFval (SFdiv prec emax p p) = 1%R.
Proof.
  intros Hv Hp. assert (HP := SFpositive_B2R p Hp).
  assert (Hf := SFpositive_finite p Hp).
  destruct (SFdiv_spec p p Hv Hv Hf Hf ltac:(lra)) as (r & Hr & Hres).
  replace (B2R p / B2R p)%R with 1%R in Hr by (field; lra).
  assert (H1 : rounds 1 1) by apply (rounds_int 1 ltac:(cbn; lia)).
  rewrite (rounds_unique _ _ _ Hr H1) in Hres.
  destruct Hres as (_ & _ & Hval & _). rewrite Hval.
  apply clamp_id. assert (H := pow2_ge_1 1024 ltac:(lia)). lra.
Qed.

(** A growth rate above 1 needs an area that has more than doubled. *)
Lemma growth_rate_doubling (p l : float) :
  fpositive p -> (l <? infinity) = true ->
  (1 <? growth_rate p l) = true -> (2 * F2R p < F2R l)%R.
Proof.
  intros Hp Hl Hg.
  destruct (Rlt_le_dec (2 * F2R p) (F2R l)) as [H|H]; [exact H|exfalso].
  assert (HP := SFpositive_B2R _ Hp). assert (Hfp := SFpositive_finite _ Hp).
  fold (F2R p) in HP.
  unfold growth_rate in Hg. rewrite ltb_spec in Hg, Hl.
  apply SFltb_SFval in Hg; try apply Prim2SF_valid.
  apply SFltb_SFval in Hl; try apply Prim2SF_valid.
  destruct Hg as (_ & Hn & Hg). destruct Hl as (Hnl & _ & Hl).
  change (SFval (Prim2SF 1)) with (F2R 1) in Hg. rewrite F2R_1 in Hg.
  rewrite div_spec, sub_spec in Hg, Hn. unfold SF64div, SF64sub in Hg, Hn.
  set (x := SFsub prec emax (Prim2SF l) (Prim2SF p)) in *.
  assert (Hvx : valid_binary x = true).
  { unfold x. rewrite <- sub_spec. apply Prim2SF_valid. }
  assert (Hxp : SFle x (Prim2SF p)).
  { destruct (SFcases (Prim2SF l)) as [E|[E|[E|Hfl]]].
    - contradiction.
    - unfold x. rewrite E. destruct Hp as (m & e & ->).
      repeat split; try discriminate. cbn [SFsub SFval B2R signed].
      assert (H0 := pow2_pos 1024).
      assert (H1 := fin_value_pos m e). lra.
    - rewrite E in Hl. change (Prim2SF infinity) with (S754_infinity false) in Hl.
      lra.
    - destruct (SFsub_spec _ _ (Prim2SF_valid l) (Prim2SF_valid p) Hfl Hfp)
        as (r & Hr & Hres).
      apply (op_result_le r (B2R (Prim2SF p))); [|exact Hres|].
      + apply (rounds_mono (F2R l - F2R p) (F2R p)); [lra|exact Hr|].
        apply rounds_B2R, Prim2SF_valid.
      + apply op_result_B2R; [apply Prim2SF_valid | assumption]. }
  assert (Hq := SFdiv_le_pos_r _ _ _ (Prim2SF_valid p) Hp Hvx (Prim2SF_valid p) Hxp).
  destruct Hq as (_ & _ & Hq).
  rewrite (SFdiv_self _ (Prim2SF_valid p) Hp) in Hq. lra.
Qed.

(** The growth rate from an area of exactly zero. *)
Lemma growth_rate_from_zero (l : float) : (1 <? growth_rate 0 l) = (0 <? l).
Proof.
  unfold growth_rate. rewrite !ltb_spec, div_spec, sub_spec.
  unfold SF64div, SF64sub.
  change (Prim2SF 0) with (S754_zero false).
  change (Prim2SF 1) with (S754_finite false 4503599627370496 (-52)).
  destruct (Prim2SF l) as [s|s| |s m e]; try reflexivity;
    destruct s; reflexivity.
Qed.

(** ** NaN *)

Lemma SFcompare_refl (x : spec_float) : x <> S754_nan -> SFcompare x x = Some Eq.
Proof.
  destruct x as [s|s| |s m e]; try contradiction; intros _; cbn [SFcompare].
  - reflexivity.
  - now destruct s.
  - destruct s; rewrite Z.compare_refl;
      change (Pos.compare_cont Eq m m) with (m ?= m)%positive;
      now rewrite Pos.compare_refl.
Qed.

Lemma is_nan_spec (x : float) : is_nan x = true -> Prim2SF x = S754_nan.
Proof.
  unfold is_nan. rewrite eqb_spec. unfold SFeqb.
  destruct (SFcases (Prim2SF x)) as [E|E]; [intros _; exact E|].
  rewrite SFcompare_refl; [discriminate|].
  intros N. rewrite N in E. destruct E as [E|[E|E]]; discriminate.
Qed.

Lemma flt_nan_l (x y : float) : is_nan x = true -> (x <? y) = false.
Proof.
  intros H. apply is_nan_spec in H. rewrite ltb_spec, H. reflexivity.
Qed.

Lemma flt_nan_r (x y : float) : is_nan y = true -> (x <? y) = false.
Proof.
  intros H. apply is_nan_spec in H. rewrite ltb_spec, H.
  unfold SFltb. now destruct (Prim2SF x) as [s|s| |s m e].
Qed.

Lemma is_nan_of_SF (x : float) : Prim2SF x = S754_nan -> is_nan x = true.
Proof.
  intros H. unfold is_nan. rewrite eqb_spec, H. reflexivity.
Qed.

Lemma is_nan_div_l (x y : float) : is_nan x = true -> is_nan (x / y) = true.
Proof.
  intros H. apply is_nan_spec in H. apply is_nan_of_SF.
  rewrite div_spec, H. reflexivity.
Qed.

Lemma is_nan_mul_r (x y : float) : is_nan y = true -> is_nan (x * y) = true.
Proof.
  intros H. apply is_nan_spec in H. apply is_nan_of_SF.
  rewrite mul_spec, H. unfold SF64mul. apply SFmul_nan_r.
Qed.

(** ** The calculator page *)


Lemma fle_add_r (c x y : float) : ffinite c -> fle x y -> fle (x + c) (y + c).
Proof.
  intros Hc H. unfold ffinite in Hc. to_SF. apply SFadd_le_r; valid_SF.
Qed.






(** ** Results that are not negative *)

Lemma forward_not_negative (area : float) (e : EcosystemType) (years : float)
    (b : Buffers) :
  fle 0 area -> fle 0 years -> fle (buffer_sum b) 100 ->
  not_negative (calculateCarbonSequestration (forward_input area e years b)).
Proof.
  intros Ha Hy Hb. unfold not_negative, count_fields.
  destruct (forward_fields area e years b) as (-> & -> & -> & -> & -> & ->).
  assert (Hn := net_annual_not_negative _ e _ Ha Hb).
  apply fle_fwle in Hy.
  assert (Hc := fmul_nonneg _ _ Hn Hy).
  split; [now apply fwle_0_round2|]. split; [now apply fwle_0_round2|].
  intros v [<-|[<-|[<-|[]]]];
    apply fwle_0_round, fmul_nonneg; try assumption; reflexivity.
Qed.

Lemma policy_not_negative (target : float) (e : EcosystemType) (years : float)
    (b : Buffers) :
  fle 0 target -> (0 <? years) = true -> fle (buffer_sum b) 100 ->
  not_negative (calculateRequiredArea (policy_input target e years b)).
Proof.
  intros Ht Hy Hb. unfold not_negative, count_fields.
  destruct (policy_fields target e years b) as (-> & -> & -> & -> & -> & ->).
  apply fle_fwle in Ht. assert (Hp := fplus_of_lt _ Hy).
  split; [apply fwle_0_round2; now apply fdiv_nonneg|].
  split; [change (fwle 0 (round2 target)); now apply fwle_0_round2|].
  intros v [<-|[<-|[<-|[<-|[]]]]].
  - apply fwle_0_round, fdiv_nonneg; [|assumption].
    apply fmul_nonneg; [assumption | reflexivity].
  - apply fwle_0_round, fdiv_nonneg; [|assumption].
    apply fmul_nonneg; [assumption | reflexivity].
  - apply fwle_0_round, fmul_nonneg; [assumption | reflexivity].
  - apply fwle_0_round. unfold required_m2.
    apply fmul_nonneg; [|reflexivity].
    apply fdiv_nonneg; [assumption|]. now apply fplus_horizon_yield.
Qed.

(** ** Sums of numbers that are not negative *)

Lemma SFadd_nonneg (x y : spec_float) :
  valid_binary x = true -> valid_binary y = true ->
  SFle (S754_zero false) x -> SFle (S754_zero false) y ->
  SFle (S754_zero false) (SFadd prec emax x y).
Proof.
  intros Hvx Hvy (_ & Hnx & Hx) (_ & Hny & Hy).
  assert (Hp := pow2_pos 1024). cbn [SFval B2R] in Hx, Hy.
  destruct (SFcases x) as [->|[->|[->|Hfx]]]; [contradiction | | |].
  - cbn [SFval signed] in Hx. lra.
  - destruct y as [s|[|]| |s m e]; try contradiction;
      repeat split; try discriminate; cbn [SFadd SFval B2R signed] in *; lra.
  - destruct (SFcases y) as [->|[->|[->|Hfy]]]; [contradiction | | |].
    + cbn [SFval signed] in Hy. lra.
    + destruct x as [s|s| |s m e]; try discriminate;
        repeat split; try discriminate; cbn [SFadd SFval B2R signed]; lra.
    + destruct (SFadd_spec x y Hvx Hvy Hfx Hfy) as (r & Hr & Hres).
      apply (op_result_le 0 r); [|apply op_result_zero|assumption].
      rewrite !SFval_finite in * by assumption.
      apply (rounds_nonneg (B2R x + B2R y)); [lra | assumption].
Qed.

Lemma fadd_nonneg (x y : float) : fle 0 x -> fle 0 y -> fle 0 (x + y).
Proof.
  intros Hx Hy. to_SF. change (Prim2SF 0) with (S754_zero false) in *.
  apply SFadd_nonneg; valid_SF.
Qed.

Lemma or_zero_nonneg (x : option float) :
  match x with
  | Some v => is_nan v = true \/ (0 <=? v) = true
  | None => True
  end ->
  fle 0 (Dashboard.or_zero x).
Proof.
  destruct x as [v|]; [|reflexivity]. cbn [Dashboard.or_zero].
  intros [H|H].
  - rewrite H. reflexivity.
  - destruct (is_nan v || (v =? 0))%bool; [reflexivity | exact H].
Qed.

Lemma fold_sum_nonneg (l : list Dashboard.Project) (acc : float) :
  fle 0 acc ->
  (forall p, In p l -> figure_not_negative p) ->
  fle 0 (fold_left
           (fun sum p => sum + Dashboard.or_zero (Dashboard.cumulative_co2_absorption p))
           l acc).
Proof.
  revert acc. induction l as [|p l IH]; intros acc Hacc Hall; cbn [fold_left].
  - exact Hacc.
  - apply IH.
    + apply fadd_nonneg; [assumption|].
      apply or_zero_nonneg, (Hall p). now left.
    + intros p' Hp'. apply Hall. now right.
Qed.

Lemma fold_sum_missing (l : list Dashboard.Project) :
  (forall p, In p l -> Dashboard.cumulative_co2_absorption p = None) ->
  fold_left
    (fun sum p => sum + Dashboard.or_zero (Dashboard.cumulative_co2_absorption p))
    l 0 = 0.
Proof.
  induction l as [|p l IH]; intros Hall; cbn [fold_left]; [reflexivity|].
  rewrite (Hall p) by now left. cbn [Dashboard.or_zero].
  change (0 + 0) with 0. apply IH. intros p' Hp'. apply Hall. now right.
Qed.

Lemma filter_lengths (l : list Dashboard.Project) :
  (List.length (filter (fun p => Dashboard.Status_eqb (Dashboard.status p) Dashboard.approved) l)
   + List.length (filter (fun p => Dashboard.Status_eqb (Dashboard.status p) Dashboard.pending) l)
   + List.length (filter (fun p => Dashboard.Status_eqb (Dashboard.status p) Dashboard.under_review) l)
   + List.length (filter (fun p => Dashboard.Status_eqb (Dashboard.status p) Dashboard.rejected) l)
   = List.length l)%nat.
Proof.
  induction l as [|p l IH]; [reflexivity|].
  cbn [filter]. destruct (Dashboard.status p); cbn [Dashboard.Status_eqb List.length]; lia.
Qed.

Local Open Scope R_scope.

(** ** Policy mode, then forward mode *)

Lemma policy_then_forward_formula (target : float) (e : EcosystemType)
    (years : float) (b : Buffers) :
  policy_then_forward target e years b
  = round2 (net_annual (Math.round (required_m2 target e years b)) e b * years)%float.
Proof. reflexivity. Qed.

Lemma F2R_2 : F2R 2 = 2.
Proof. F2R_literal 2%float. lra. Qed.

Lemma F2R_1e9 : F2R 1000000000 = 1000000000.
Proof. F2R_literal 1000000000%float. lra. Qed.

Lemma ffinite_2 : ffinite 2.
Proof. vm_compute. reflexivity. Qed.

Lemma ffinite_1e9 : ffinite 1000000000.
Proof. vm_compute. reflexivity. Qed.

(** The cumulative absorption of forward mode against the exact product,
    for an area from 1 m2 to 3 * 10^14 m2. *)
Lemma forward_cumulative_error (area : float) (e : EcosystemType) (years : float)
    (b : Buffers) :
  ffinite area -> 1 <= F2R area <= 300000000000000 ->
  fle 1%float years -> fle years 1000%float ->
  fle 0%float (buffer_sum b) -> fle (buffer_sum b) 99%float ->
  let C0 := F2R area / 10000 * F2R (SEQUESTRATION_FACTORS e)
            * F2R (buffer_factor b) * F2R years in
  let T := F2R (round2 (net_annual area e b * years)%float) in
  ffinite (round2 (net_annual area e b * years)%float) /\
  C0 * (1 - / 500000000000000) - / 200 * (1 + / 500000000000000) <= T
  <= C0 * (1 + / 500000000000000) + / 200 * (1 + / 500000000000000).
Proof.
  intros Hfa HA Hy1 Hy2 Hb1 Hb2.
  destruct (input_range years _ _ 1 1000 Hy1 Hy2
              ffinite_1 ffinite_1000 F2R_1 F2R_1000) as [Hfy HY].
  destruct (buffer_factor_range b Hb1 Hb2) as [Hfbf HF].
  assert (HB := F2R_SEQUESTRATION_FACTORS e).
  assert (Hfbase := ffinite_SEQUESTRATION_FACTORS e).
  set (base := SEQUESTRATION_FACTORS e) in *. set (bf := buffer_factor b) in *.
  set (A := F2R area) in *. set (Y := F2R years) in *.
  set (B := F2R base) in *. set (F := F2R bf) in *.
  assert (Hbig := pow2_1023_large). assert (Hsmall := pow2_1022_small).
  assert (Hh : ffinite (area / 10000)%float /\
               approx 1 (F2R (area / 10000)%float) (A / 10000)).
  { destruct (fdiv_fin area 10000%float Hfa ffinite_10000) as [Hf Hr].
    - rewrite F2R_10000. lra.
    - rewrite F2R_10000. fold A. rewrite Rabs_pos_eq by lra. lra.
    - split; [assumption|]. rewrite F2R_10000 in Hr. fold A in Hr.
      apply approx_rounds; [lra | assumption]. }
  destruct Hh as [Hfh Hah].
  assert (HP1 : / 10000 <= A / 10000 <= 30000000000) by lra.
  assert (HP2 := mul_bounds (A / 10000) B (/ 10000) 30000000000 6 13 ltac:(lra) HP1 ltac:(lra) HB).
  destruct (step_mul (area / 10000)%float base 1 0 (A / 10000) B)
    as [Hfg Hag]; try assumption; try lra; try lia; try apply approx_refl.
  assert (HP3 := mul_bounds (A / 10000 * B) F (/ 10000 * 6) (30000000000 * 13) (99 / 10000) 1
                   ltac:(lra) HP2 ltac:(lra) HF).
  destruct (step_mul (area / 10000 * base)%float bf 2 0 (A / 10000 * B) F)
    as [Hfn Han]; try assumption; try lra; try lia; try apply approx_refl.
  assert (HP4 := mul_bounds (A / 10000 * B * F) Y (/ 10000 * 6 * (99 / 10000))
                   (30000000000 * 13 * 1) 1 1000 ltac:(lra) HP3 ltac:(lra) HY).
  destruct (step_mul (area / 10000 * base * bf)%float years 3 0 (A / 10000 * B * F) Y)
    as [Hfc Hac]; try assumption; try lra; try lia; try apply approx_refl.
  change (area / 10000 * base * bf)%float with (net_annual area e b) in *.
  set (c := (net_annual area e b * years)%float) in *.
  intros C0 T. fold c in T.
  assert (HC0 : 0 <= C0) by (unfold C0; lra).
  destruct (step_mul c 100%float 4 0 C0 100)
    as [Hfw Haw]; try assumption; try (unfold C0; lra); try lia.
  { apply ffinite_100. }
  { rewrite F2R_100. apply approx_refl. }
  destruct (fround_fin _ Hfw) as [Hfk Hk].
  set (W := F2R (c * 100)%float) in *.
  set (K := F2R (Math.round (c * 100)%float)) in *.
  assert (HW100 : 0 <= C0 * 100) by lra.
  assert (H5 : (5 <= 1000)%nat) by lia.
  destruct (approx_crude _ _ _ HW100 H5 Haw) as [HWl HWh].
  destruct (approx_linear 5 W (C0 * 100) HW100) as [HWl' HWh'];
    [apply Rlt_le, Rle_lt_trans with (/ 1000000000000);
       [apply INR_1000_u64; lia | lra] | assumption |].
  replace (INR 5) with 5 in HWl', HWh' by (cbn; lra).
  assert (HKe := js_rounds_error _ _ Hk).
  assert (HK0 : 0 <= K).
  { assert (HW0 : 0 <= W) by lra.
    apply (js_rounds_mono 0 W 0 K HW0 (js_rounds_int 0) Hk). }
  assert (HC0u : C0 <= 30000000000 * 13 * 1 * 1000) by (unfold C0; lra).
  destruct (fdiv_fin (Math.round (c * 100)%float) 100%float Hfk ffinite_100)
    as [Hft Ht].
  { rewrite F2R_100. lra. }
  { rewrite F2R_100. fold K. rewrite Rabs_pos_eq by lra. lra. }
  rewrite F2R_100 in Ht. fold K in Ht.
  change (Math.round (c * 100) / 100)%float with (round2 c) in *.
  fold T in Ht.
  assert (HK100 : 0 <= K / 100) by lra.
  destruct (rounds_error_nonneg _ _ HK100 Ht) as [HT0 HT].
  split; [assumption|].
  assert (Hu := u64_val). assert (He := eta64_small).
  rewrite Hu in *. clearbody C0 W K T. clear Hac Haw Hk Ht.
  split; lra.
Qed.

Theorem policy_then_forward_bound (target : float) (e : EcosystemType)
    (years : float) (b : Buffers) :
  moderate_target target years b ->
  ffinite (policy_then_forward target e years b) /\
  Rabs (F2R (policy_then_forward target e years b) - F2R target)
  <= / 200
     + F2R (SEQUESTRATION_FACTORS e) * F2R (buffer_factor b) * F2R years / 20000
     + pow2 (-45) * (F2R target + 1).
Proof.
  intros (Ht1 & Ht2 & Hy1 & Hy2 & Hb1 & Hb2).
  rewrite policy_then_forward_formula. unfold required_m2, horizon_yield.
  destruct (input_range target _ _ 2 1000000000 Ht1 Ht2
              ffinite_2 ffinite_1e9 F2R_2 F2R_1e9) as [Hft HT].
  destruct (input_range years _ _ 1 1000 Hy1 Hy2
              ffinite_1 ffinite_1000 F2R_1 F2R_1000) as [Hfy HY].
  destruct (buffer_factor_range b Hb1 Hb2) as [Hfbf HF].
  assert (HB := F2R_SEQUESTRATION_FACTORS e).
  assert (Hfbase := ffinite_SEQUESTRATION_FACTORS e).
  set (base := SEQUESTRATION_FACTORS e) in *. set (bf := buffer_factor b) in *.
  set (T0 := F2R target) in *. set (Y := F2R years) in *.
  set (B := F2R base) in *. set (F := F2R bf) in *.
  assert (Hbig := pow2_1023_large). assert (Hsmall := pow2_1022_small).
  (* the yield of a hectare over the horizon *)
  assert (HQ1 := mul_bounds B F 6 13 (99 / 10000) 1 ltac:(lra) HB ltac:(lra) HF).
  destruct (step_mul base bf 0 0 B F)
    as [Hfe Hae]; try assumption; try lra; try lia; try apply approx_refl.
  assert (HQ2 := mul_bounds (B * F) Y (6 * (99 / 10000)) (13 * 1) 1 1000
                   ltac:(lra) HQ1 ltac:(lra) HY).
  destruct (step_mul (base * bf)%float years 1 0 (B * F) Y)
    as [Hfd Had]; try assumption; try lra; try lia; try apply approx_refl.
  set (d := (base * bf * years)%float) in *. set (D0 := B * F * Y) in *.
  set (D := F2R d) in *.
  assert (HD0 : 0 <= D0) by lra.
  assert (H2n : (2 <= 1000)%nat) by lia.
  destruct (approx_crude _ _ _ HD0 H2n Had) as [HDl HDh].
  destruct (approx_linear 2 D D0 HD0) as [HDl' HDh'];
    [apply Rlt_le, Rle_lt_trans with (/ 1000000000000);
       [apply INR_1000_u64; lia | lra] | assumption |].
  replace (INR 2) with 2 in HDl', HDh' by (cbn; lra).
  assert (Hu := u64_val). assert (He := eta64_small).
  assert (HDpos : 0 < D) by lra.
  set (J := / D). set (I := / D0).
  assert (HIpos : 0 < I) by (apply Rinv_0_lt_compat; lra).
  assert (HI : / 13000 <= I <= 20).
  { unfold I. split.
    - apply Rinv_le_contravar; lra.
    - apply Rle_trans with (/ (6 * (99 / 10000) * 1));
        [apply Rinv_le_contravar; lra | lra]. }
  assert (HID : I * D0 = 1) by (unfold I; field; lra).
  assert (HJ : I * / (1 + 4 * u64) <= J <= I * / (1 - 2 * u64)).
  { unfold J, I. rewrite <- !Rinv_mult. rewrite Hu in *.
    apply Rinv_bounds; [nra|]. split; lra. }
  assert (HJpos : 0 < J) by (apply Rinv_0_lt_compat; lra).
  rewrite Hu in *.
  set (ku := / (1 - 2 * / 9007199254740992)) in *.
  set (kl := / (1 + 4 * / 9007199254740992)) in *.
  assert (Hku : 1 <= ku <= 1 + / 1000000000000000).
  { unfold ku. split.
    - apply Rle_trans with (/ 1); [rewrite Rinv_1; lra | apply Rinv_le_contravar; lra].
    - apply Rle_trans with (/ (/ (1 + / 1000000000000000))); [|rewrite Rinv_inv; lra].
      apply Rinv_le_contravar; [apply Rinv_0_lt_compat; lra|].
      apply Rmult_le_reg_r with (1 + / 1000000000000000); [lra|].
      rewrite Rinv_l by lra. lra. }
  assert (Hkl : 1 - / 1000000000000000 <= kl <= 1).
  { unfold kl. split.
    - apply Rmult_le_reg_r with (1 + 4 * / 9007199254740992); [lra|].
      rewrite Rinv_l by lra. lra.
    - apply Rle_trans with (/ 1); [apply Rinv_le_contravar; lra | rewrite Rinv_1; lra]. }
  clearbody ku kl.
  (* the quotient and the required area *)
  set (X := T0 * I).
  assert (HX : 2 * / 13000 <= X <= 1000000000 * 20).
  { unfold X. apply mul_bounds; lra. }
  assert (HXJ : X * (1 - / 1000000000000000) <= T0 * J <= X * (1 + / 1000000000000000)).
  { unfold X.
    replace (T0 * I * (1 - / 1000000000000000))
      with (T0 * (I * (1 - / 1000000000000000))) by ring.
    replace (T0 * I * (1 + / 1000000000000000))
      with (T0 * (I * (1 + / 1000000000000000))) by ring.
    split.
    - apply Rle_trans with (T0 * (I * kl)).
      + apply Rmult_le_compat_l; [lra|]. apply Rmult_le_compat_l; lra.
      + apply Rmult_le_compat_l; lra.
    - apply Rle_trans with (T0 * (I * ku)).
      + apply Rmult_le_compat_l; lra.
      + apply Rmult_le_compat_l; [lra|]. apply Rmult_le_compat_l; lra. }
  assert (Hq0 : 0 <= T0 * J) by (apply Rmult_le_pos; lra).
  destruct (fdiv_fin target d Hft Hfd) as [Hfq Hq].
  { fold D. lra. }
  { fold T0 D. change (T0 / D) with (T0 * J). rewrite Rabs_pos_eq by lra. lra. }
  fold T0 D in Hq. change (T0 / D) with (T0 * J) in Hq.
  destruct (rounds_error_nonneg _ _ Hq0 Hq) as [HQ0 HQ].
  rewrite Hu in HQ.
  set (Q := F2R (target / d)%float) in *.
  destruct (fmul_fin (target / d)%float 10000%float Hfq ffinite_10000)
    as [Hfrm Hrm].
  { rewrite F2R_10000. fold Q. rewrite Rabs_pos_eq by lra. lra. }
  rewrite F2R_10000 in Hrm. fold Q in Hrm.
  assert (HQ1e4 : 0 <= Q * 10000) by lra.
  destruct (rounds_error_nonneg _ _ HQ1e4 Hrm) as [HRM0 HRM].
  rewrite Hu in HRM.
  set (RM := F2R (target / d * 10000)%float) in *.
  destruct (fround_fin _ Hfrm) as [Hfa Ha].
  fold RM in Ha. apply js_rounds_error in Ha.
  set (a := Math.round (target / d * 10000)%float) in *.
  set (A := F2R a) in *.
  (* the required area against the exact quotient *)
  assert (HAl : X * 10000 * (1 - / 300000000000000) - (/ 2 + / 1000000000000000000000000) <= A).
  { clear - HXJ HQ HRM Ha He HX. lra. }
  assert (HAu : A <= X * 10000 * (1 + / 300000000000000) + (/ 2 + / 1000000000000000000000000)).
  { clear - HXJ HQ HRM Ha He HX. lra. }
  assert (HA : 1 <= A <= 300000000000000).
  { clear - HAl HAu HX. lra. }
  destruct (forward_cumulative_error a e years b Hfa HA Hy1 Hy2 Hb1 Hb2)
    as [Hfout Hout].
  cbv zeta in Hout. fold base bf in Hout. fold A B F Y in Hout.
  split; [exact Hfout|].
  set (OUT := F2R (round2 (net_annual a e b * years)%float)) in *.
  assert (HC : A / 10000 * B * F * Y = A * D0 / 10000) by (unfold D0; field).
  rewrite HC in Hout.
  assert (HXD : X * D0 = T0) by (unfold X; rewrite Rmult_assoc, HID; ring).
  change (pow2 (-45)) with (/ 35184372088832).
  assert (HD0u : D0 <= 13000) by lra.
  assert (HAD : T0 * (1 - / 300000000000000) - (/ 2 + / 1000000000000000000000000) * D0 / 10000
                <= A * D0 / 10000
                <= T0 * (1 + / 300000000000000) + (/ 2 + / 1000000000000000000000000) * D0 / 10000).
  { rewrite <- HXD. split.
    - apply Rle_trans with ((X * 10000 * (1 - / 300000000000000) - (/ 2 + / 1000000000000000000000000)) * D0 / 10000).
      + right. field.
      + unfold Rdiv. apply Rmult_le_compat_r; [lra|].
        apply Rmult_le_compat_r; lra.
    - apply Rle_trans with ((X * 10000 * (1 + / 300000000000000) + (/ 2 + / 1000000000000000000000000)) * D0 / 10000).
      + unfold Rdiv. apply Rmult_le_compat_r; [lra|].
        apply Rmult_le_compat_r; lra.
      + right. field. }
  clearbody OUT A X.
  apply Rabs_le. split; lra.
Qed.

(** ** [Math.floor] and [Math.random] *)

Lemma floors_mono (v1 v2 r1 r2 : R) :
  v1 <= v2 -> floors v1 r1 -> floors v2 r2 -> r1 <= r2.
Proof.
  intros Hv (n1 & H1 & ->) (n2 & H2 & ->).
  apply IZR_le. now apply (is_floor_mono v1 v2).
Qed.

Theorem SFfloor_spec (x : spec_float) :
  valid_binary x = true -> SFfinite x = true ->
  exists r, floors (B2R x) r /\ op_result r (SFfloor x).
Proof.
  intros Hv Hf. destruct x as [s|s| |s m e]; try discriminate.
  - exists 0. split; [|apply op_result_zero].
    exists 0%Z. split; [|reflexivity]. cbn [B2R]. split; lra.
  - cbn [SFfloor]. destruct (Z.leb_spec 0 e) as [He|He].
    + exists (B2R (S754_finite s m e)). split; [|now apply op_result_B2R].
      cbn [B2R]. rewrite pow2_IZR, <- mult_IZR by lia.
      destruct s; cbn [signed]; [rewrite <- opp_IZR|];
        eexists; (split; [|reflexivity]); split; lra.
    + set (M := cond_Zopp s (Zpos m)). set (q := (2 ^ (- e))%Z).
      assert (Hq : (0 < q)%Z) by (apply Z.pow_pos_nonneg; lia).
      assert (Hdiv := Z_div_mod M q ltac:(lia)).
      assert (Hn : (M / q)%Z = fst (Z.div_eucl M q)) by reflexivity.
      destruct (Z.div_eucl M q) as [n k]. cbn [fst] in Hn. rewrite Hn.
      destruct Hdiv as [HMk Hk].
      assert (Hpe := pow2_pos e). assert (Hpne := pow2_pos (- e)).
      assert (Hinv : pow2 e * pow2 (- e) = 1).
      { rewrite <- pow2_add. now replace (e + - e)%Z with 0%Z by lia. }
      assert (HIq : IZR q = pow2 (- e)).
      { unfold q. now rewrite <- pow2_IZR by lia. }
      assert (HB : B2R (S754_finite s m e) = IZR M * pow2 e).
      { cbn [B2R]. unfold M. rewrite cond_Zopp_signed.
        destruct s; cbn [signed]; ring. }
      assert (Hval : B2R (S754_finite s m e) * IZR q = IZR M).
      { rewrite HB, HIq, Rmult_assoc, Hinv. ring. }
      assert (HIMk : IZR M = IZR q * IZR n + IZR k).
      { rewrite HMk, plus_IZR, mult_IZR. reflexivity. }
      assert (Hk0 : 0 <= IZR k) by (apply IZR_le; lia).
      assert (Hkq : IZR k < IZR q) by (apply IZR_lt; lia).
      assert (HIq0 : 0 < IZR q) by (apply IZR_lt; lia).
      assert (Hfloor : is_floor (B2R (S754_finite s m e)) n).
      { split.
        - destruct (Rle_lt_dec (IZR n) (B2R (S754_finite s m e))); [assumption|].
          exfalso. nra.
        - destruct (Rlt_le_dec (B2R (S754_finite s m e)) (IZR n + 1)); [assumption|].
          exfalso. nra. }
      exists (IZR n). split; [now exists n|].
      apply binary_normalize_int.
      assert (Hm : IZR (Zpos m) * pow2 e < pow2 52).
      { cbn [SpecFloat.valid_binary] in Hv. apply bounded_canonical in Hv.
        destruct Hv as [Hcan _].
        destruct (Zdigits2_mag (Zpos m)) as [_ Hu]; [lia|].
        apply Rlt_le_trans with (pow2 (Zdigits2 (Zpos m)) * pow2 e).
        - apply Rmult_lt_compat_r; assumption.
        - rewrite <- pow2_add. apply pow2_le. unfold fexp64 in Hcan. lia. }
      assert (Habs : - pow2 52 < B2R (S754_finite s m e) < pow2 52).
      { assert (Hpos := fin_value_pos m e).
        cbn [B2R]. destruct s; cbn [signed]; lra. }
      destruct Hfloor as [Hfl Hfu].
      rewrite (pow2_IZR 52) in Habs by lia.
      assert (H1 : IZR n < IZR (2 ^ 52)) by lra.
      assert (H2 : IZR (- 2 ^ 52 - 1) < IZR n).
      { rewrite minus_IZR, opp_IZR. lra. }
      apply lt_IZR in H1, H2.
      change (2 ^ 52)%Z with 4503599627370496%Z in *.
      change (2 ^ 53)%Z with 9007199254740992%Z. lia.
Qed.

Lemma SFfloor_le (x y : spec_float) :
  valid_binary x = true -> valid_binary y = true ->
  SFle x y -> SFle (SFfloor x) (SFfloor y).
Proof.
  apply (lift_increasing SFfloor floors).
  - apply SFfloor_spec.
  - apply floors_mono.
  - reflexivity.
Qed.

Lemma SFfloor_valid (x : spec_float) :
  valid_binary x = true -> valid_binary (SFfloor x) = true.
Proof.
  intros Hv. destruct (SFcases x) as [->|[->|[->|Hf]]]; try reflexivity.
  destruct (SFfloor_spec x Hv Hf) as (r & _ & Hres). apply Hres.
Qed.

Lemma Prim2SF_floor (x : float) : Prim2SF (Math.floor x) = SFfloor (Prim2SF x).
Proof.
  unfold Math.floor. apply Prim2SF_SF2Prim, SFfloor_valid, Prim2SF_valid.
Qed.

Lemma fle_floor (x y : float) : fle x y -> fle (Math.floor x) (Math.floor y).
Proof.
  rewrite !fle_SFle, !Prim2SF_floor. apply SFfloor_le; apply Prim2SF_valid.
Qed.

Lemma ffloor_whole (x : float) :
  ffinite (Math.floor x) -> exists n : Z, F2R (Math.floor x) = IZR n.
Proof.
  unfold ffinite, F2R. rewrite Prim2SF_floor. intros Hf.
  assert (Hfx : SFfinite (Prim2SF x) = true).
  { destruct (Prim2SF x) as [s|s| |s m e]; try discriminate; reflexivity. }
  destruct (SFfloor_spec _ (Prim2SF_valid x) Hfx) as (r & (n & _ & ->) & Hres).
  exists n. now apply op_result_finite.
Qed.

(** A number below 1 is at most [1 - 2^-53]. *)
Lemma F2R_below_one : F2R below_one = 1 - pow2 (-53).
Proof. unfold below_one. F2R_literal 0x1.fffffffffffffp-1%float. lra. Qed.

Lemma fle_below_one (r : float) : (r <? 1)%float = true -> fle r below_one.
Proof.
  rewrite ltb_spec. intros H.
  apply SFltb_SFval in H; try apply Prim2SF_valid.
  destruct H as (Hn & _ & H).
  change (SFval (Prim2SF 1)) with (F2R 1) in H. rewrite F2R_1 in H.
  apply fle_SFle. split; [assumption|]. split; [discriminate|].
  change (SFval (Prim2SF below_one)) with (F2R below_one).
  rewrite F2R_below_one.
  assert (Hv := Prim2SF_valid r).
  assert (Hp := pow2_ge_1 1024 ltac:(lia)). assert (H53 := pow2_pos (-53)).
  assert (Hsmall : pow2 (-53) <= / 2).
  { change (/ 2) with (pow2 (-1)). apply pow2_le. lia. }
  destruct (Prim2SF r) as [s|s| |s m e]; try contradiction;
    cbn [SFval B2R] in *.
  - lra.
  - destruct s; cbn [signed] in *; lra.
  - assert (Hpos := fin_value_pos m e).
    destruct s; cbn [signed] in *; [lra|].
    cbn [SpecFloat.valid_binary] in Hv. apply bounded_canonical in Hv.
    destruct Hv as [Hcan _].
    assert (Hmag := fin_value_mag m e).
    set (g := (Zdigits2 (Zpos m) + e)%Z) in *.
    destruct Hmag as [Hlo Hhi].
    assert (Hg : (g <= 0)%Z).
    { assert (g - 1 < 0)%Z; [|lia]. apply pow2_lt_inv.
      change (pow2 0) with 1. lra. }
    destruct (Z.eq_dec g 0) as [Hg0|Hg0].
    + (* the numbers from 1/2 to 1 are multiples of 2^-53 *)
      assert (He : e = (-53)%Z) by (unfold fexp64 in Hcan; lia).
      clearbody g. clear Hcan. subst e.
      assert (Hm : IZR (Zpos m) < IZR (2 ^ 53)).
      { rewrite <- pow2_IZR by lia.
        apply Rmult_lt_reg_r with (pow2 (-53)); [assumption|].
        rewrite <- pow2_add. change (pow2 (53 + -53)) with 1. assumption. }
      apply lt_IZR in Hm.
      assert (Hm' : IZR (Zpos m) <= IZR (2 ^ 53 - 1)) by (apply IZR_le; lia).
      rewrite minus_IZR, <- pow2_IZR in Hm' by lia.
      assert (H1 : pow2 53 * pow2 (-53) = 1).
      { rewrite <- pow2_add. reflexivity. }
      nra.
    + assert (Hg1 : pow2 g <= / 2).
      { change (/ 2) with (pow2 (-1)). apply pow2_le. lia. }
      lra.
Qed.

(** ** Sums of whole numbers *)

Lemma fadd_whole (x c : float) (n k : Z) :
  ffinite x -> ffinite c -> F2R x = IZR n -> F2R c = IZR k ->
  (Z.abs (n + k) < 2 ^ 53)%Z ->
  ffinite (x + c) /\ F2R (x + c) = IZR (n + k).
Proof.
  unfold ffinite, F2R. rewrite add_spec. intros Hfx Hfc Hx Hc Hb.
  destruct (SFadd_spec _ _ (Prim2SF_valid x) (Prim2SF_valid c) Hfx Hfc)
    as (r & Hr & Hres).
  rewrite Hx, Hc, <- plus_IZR in Hr.
  rewrite (rounds_unique _ _ _ Hr (rounds_int _ Hb)) in Hres.
  apply op_result_below; [exact Hres|].
  apply IZR_lt in Hb. rewrite abs_IZR in Hb.
  eapply Rlt_le_trans; [exact Hb|].
  rewrite <- pow2_IZR by lia. apply pow2_le. lia.
Qed.

(** ** A random number, scaled and rounded down *)


Lemma fpositive_1e6 : fpositive 1000000%float.
Proof. eapply fpositive_const. vm_compute. reflexivity. Qed.




Lemma floor_random_range (random scale top : float) :
  is_random random -> fpositive scale ->
  Math.floor (below_one * scale) = top ->
  fle 0%float (Math.floor (random * scale)) /\
  fle (Math.floor (random * scale)) top.
Proof.
  intros [H0 H1] Hs <-. split.
  - apply (fle_mul_pos_r scale) in H0; [|assumption].
    rewrite (fmul_0_positive scale Hs) in H0.
    apply fle_floor in H0. exact H0.
  - apply fle_floor, fle_mul_pos_r; [assumption|]. now apply fle_below_one.
Qed.

(** A whole number between two whole numbers, shifted by a whole number. *)
Lemma shifted_whole (x c top : float) (k kt : Z) :
  fle 0%float x -> fle x top -> ffinite top -> F2R top = IZR kt ->
  (exists n, F2R x = IZR n) ->
  ffinite c -> F2R c = IZR k ->
  (0 <= k)%Z -> (kt + k < 2 ^ 53)%Z -> (0 <= kt)%Z ->
  ffinite (x + c) /\ exists n, (k <= n <= kt + k)%Z /\ F2R (x + c) = IZR n.
Proof.
  intros H0 Ht Hft HFt (n & Hn) Hfc Hc Hk Hb Hkt.
  assert (Hfx : ffinite x).
  { apply (ffinite_between _ _ _ H0 Ht); [vm_compute; reflexivity | assumption]. }
  assert (Hl := fle_F2R _ _ H0 ltac:(vm_compute; reflexivity) Hfx).
  assert (Hh := fle_F2R _ _ Ht Hfx Hft).
  replace (F2R 0%float) with 0 in Hl by (unfold F2R; cbn; reflexivity).
  rewrite Hn in Hl, Hh. rewrite HFt in Hh.
  apply le_IZR in Hl, Hh.
  destruct (fadd_whole x c n k Hfx Hfc Hn Hc ltac:(lia)) as [Hf Hv].
  split; [assumption|]. exists (n + k)%Z. split; [lia | assumption].
Qed.

Local Open Scope float_scope.

(** * The calculator: validation, rounding and monotonicity *)

Lemma forward_params_eta (p : CalculationParams.t) :
  calculateCarbonSequestration p
  = calculateCarbonSequestration
      (forward_input (CalculationParams.area_m2 p)
         (CalculationParams.ecosystem_type p)
         (default (CalculationParams.years p) 20)
         (default (CalculationParams.buffers p) DEFAULT_BUFFERS)).
Proof. reflexivity. Qed.

Lemma policy_params_eta (p : PolicyCalculationParams.t) :
  calculateRequiredArea p
  = calculateRequiredArea
      (policy_input (PolicyCalculationParams.target_co2_reduction p)
         (PolicyCalculationParams.ecosystem_type p)
         (default (PolicyCalculationParams.years p) 20)
         (default (PolicyCalculationParams.buffers p) DEFAULT_BUFFERS)).
Proof. reflexivity. Qed.

(** C1, as stated, fails: with an area of 0 forward mode returns a result
    of zeros, and with buffers that sum to 100 policy mode returns an
    infinite area; neither call fails. *)
Lemma C1_counterexample :
  let p := forward_input 0 mangrove 20 DEFAULT_BUFFERS in
  let q := policy_input 1000 seagrass 20
             {| uncertainty := 50; mortality := 30; verification := 20 |} in
  (CalculationParams.area_m2 p <=? 0) = true /\
  call_calculateCarbonSequestration p
  = Returns {| annual_absorption := 0;
               cumulative_absorption := 0;
               equivalences :=
                 {| cars_removed := 0; homes_powered := 0; trees_planted := 0 |};
               policy_area_needed := None |} /\
  call_calculateCarbonSequestration p <> Throws InvalidInput /\
  (100 <=? buffer_sum (default (PolicyCalculationParams.buffers q) DEFAULT_BUFFERS)) = true /\
  policy_area_needed (calculateRequiredArea q) = Some infinity /\
  call_calculateRequiredArea q <> Throws InvalidInput.
Proof.
  cbv zeta. split; [reflexivity|]. split; [vm_compute; reflexivity|].
  split; [discriminate|]. split; [reflexivity|].
  split; [vm_compute; reflexivity | discriminate].
Qed.

(** C1 (amended) — neither function validates its input: every call
    completes normally with a result.  In forward mode an area that is not
    positive, with buffers that sum to at most 100, gives an annual
    absorption that is not positive; in policy mode buffers that sum to
    exactly 100, with a positive target and a positive finite horizon, give
    an infinite required area. *)
Theorem C1_no_input_validation :
  (forall p, call_calculateCarbonSequestration p
             = Returns (calculateCarbonSequestration p)) /\
  (forall q, call_calculateRequiredArea q = Returns (calculateRequiredArea q)) /\
  (forall p,
     (CalculationParams.area_m2 p <=? 0) = true ->
     (buffer_sum (default (CalculationParams.buffers p) DEFAULT_BUFFERS) <=? 100) = true ->
     (0 <? annual_absorption (calculateCarbonSequestration p)) = false) /\
  (forall q,
     (buffer_sum (default (PolicyCalculationParams.buffers q) DEFAULT_BUFFERS) =? 100) = true ->
     (0 <? PolicyCalculationParams.target_co2_reduction q) = true ->
     (0 <? default (PolicyCalculationParams.years q) 20) = true ->
     (default (PolicyCalculationParams.years q) 20 <? infinity) = true ->
     policy_area_needed (calculateRequiredArea q) = Some infinity).
Proof.
  split; [reflexivity|]. split; [reflexivity|]. split.
  - intros p Ha Hb. rewrite annual_absorption_forward.
    now apply net_annual_nonpos.
  - intros q Hb Ht Hy Hy'. rewrite policy_params_eta.
    now apply required_area_infinite.
Qed.

Lemma C1_no_input_validation_witness :
  (0 <? annual_absorption
          (calculateCarbonSequestration
             (forward_input (-10000) mangrove 20 DEFAULT_BUFFERS))) = false /\
  policy_area_needed
    (calculateRequiredArea
       (policy_input 1000 seagrass 20
          {| uncertainty := 50; mortality := 30; verification := 20 |}))
  = Some infinity.
Proof.
  destruct C1_no_input_validation as (_ & _ & Hf & Hp). split.
  - apply Hf; reflexivity.
  - apply Hp; reflexivity.
Defined.

(** C2, as stated, fails: 5 m2 of mangrove over 20 years gives an annual
    absorption of 0.00 and a cumulative absorption of 0.07, which differ
    from [cumulative = annual * 20] by 0.07. *)
Lemma C2_counterexample :
  let p := forward_input 5 mangrove 20 DEFAULT_BUFFERS in
  let r := calculateCarbonSequestration p in
  (0 <? CalculationParams.area_m2 p) = true /\
  (buffer_sum DEFAULT_BUFFERS <? 100) = true /\
  annual_absorption r = 0 /\
  cumulative_absorption r = 0.07 /\
  (Math.abs (cumulative_absorption r - annual_absorption r * 20) <=? 0.01) = false.
Proof.
  cbv zeta. repeat (split; [vm_compute; reflexivity|]). vm_compute. reflexivity.
Qed.

(** C2 (amended) — for a forward-mode input with a positive area, a
    positive horizon and buffers that sum to less than 100, whose two
    absorption fields come out finite, the cumulative absorption differs
    from the annual absorption times the horizon by at most
    [0.005 * (horizon + 1)], the two fields being rounded to two decimals
    independently, plus a relative floating-point error of [2^-48]. *)
Theorem C2_cumulative_within_rounding (p : CalculationParams.t) :
  let r := calculateCarbonSequestration p in
  let horizon := default (CalculationParams.years p) 20 in
  (0 <? CalculationParams.area_m2 p) = true ->
  (0 <? horizon) = true ->
  (buffer_sum (default (CalculationParams.buffers p) DEFAULT_BUFFERS) <? 100) = true ->
  ffinite (annual_absorption r) ->
  ffinite (cumulative_absorption r) ->
  (Rabs (F2R (cumulative_absorption r) - F2R (annual_absorption r) * F2R horizon)
   <= (F2R horizon + 1) / 200
      + pow2 (-48) * (F2R (cumulative_absorption r) + F2R horizon + 1))%R.
Proof.
  intros r horizon Ha Hy Hb Hfa Hfc. subst r.
  rewrite forward_params_eta in *.
  apply cumulative_vs_annual; try assumption; now apply flt_fle.
Qed.

Lemma C2_cumulative_within_rounding_witness :
  let r := calculateCarbonSequestration (forward_input 5 mangrove 20 DEFAULT_BUFFERS) in
  (Rabs (F2R (cumulative_absorption r) - F2R (annual_absorption r) * F2R 20)
   <= (F2R 20 + 1) / 200
      + pow2 (-48) * (F2R (cumulative_absorption r) + F2R 20 + 1))%R.
Proof.
  apply (C2_cumulative_within_rounding (forward_input 5 mangrove 20 DEFAULT_BUFFERS));
    reflexivity.
Defined.

(** C3, as stated, fails: 30 m2 of salt marsh over one year absorbs
    0.01428 t, returned as 0.01 t, for which policy mode needs 21 m2. *)
Lemma C3_counterexample :
  let p := forward_input 30 salt_marsh 1 DEFAULT_BUFFERS in
  let target := cumulative_absorption (calculateCarbonSequestration p) in
  let q := policy_input target salt_marsh 1 DEFAULT_BUFFERS in
  target = 0.01 /\
  policy_area_needed (calculateRequiredArea q) = Some 21 /\
  (Math.abs (21 - CalculationParams.area_m2 p) <=? 1) = false.
Proof.
  cbv zeta. split; [vm_compute; reflexivity|].
  split; vm_compute; reflexivity.
Qed.

(** C7, as stated, fails: with buffers that sum to 150 the buffer factor
    is negative, and 20000 m2 of mangrove gives -10.15 t/year where 10000 m2
    gives -5.07. *)
Lemma C7_counterexample :
  let b := {| uncertainty := 50; mortality := 50; verification := 50 |} in
  let small := calculateCarbonSequestration (forward_input 10000 mangrove 20 b) in
  let large := calculateCarbonSequestration (forward_input 20000 mangrove 20 b) in
  (10000 <? 20000) = true /\
  annual_absorption small = -5.07 /\
  annual_absorption large = -10.15 /\
  (annual_absorption large <? annual_absorption small) = true.
Proof.
  cbv zeta. repeat (split; [vm_compute; reflexivity|]). vm_compute. reflexivity.
Qed.

(** C7 (amended) — when the buffers sum to at most 100, raising the area
    and keeping the other inputs never gives a smaller annual absorption. *)
Theorem C7_area_monotone (p : CalculationParams.t) (area' : float) :
  (CalculationParams.area_m2 p <=? area') = true ->
  (buffer_sum (default (CalculationParams.buffers p) DEFAULT_BUFFERS) <=? 100) = true ->
  (annual_absorption (calculateCarbonSequestration (with_area p area'))
   <? annual_absorption (calculateCarbonSequestration p)) = false.
Proof.
  intros Ha Hb. rewrite !annual_absorption_forward.
  apply fwle_round2. cbn [with_area CalculationParams.area_m2
    CalculationParams.ecosystem_type CalculationParams.buffers].
  now apply net_annual_area_monotone.
Qed.

Lemma C7_area_monotone_witness :
  (annual_absorption
     (calculateCarbonSequestration (forward_input 20000 mangrove 20 DEFAULT_BUFFERS))
   <? annual_absorption
        (calculateCarbonSequestration (forward_input 10000 mangrove 20 DEFAULT_BUFFERS)))
  = false.
Proof.
  apply (C7_area_monotone (forward_input 10000 mangrove 20 DEFAULT_BUFFERS) 20000);
    reflexivity.
Defined.

(** C8, as stated, fails: with an area of -10000 m2 of mangrove, raising
    the uncertainty buffer from 10 to 20 raises the annual absorption from
    -7.1 to -6.09. *)
Lemma C8_counterexample :
  let b := {| uncertainty := 10; mortality := 15; verification := 5 |} in
  let b' := {| uncertainty := 20; mortality := 15; verification := 5 |} in
  let low := calculateCarbonSequestration (forward_input (-10000) mangrove 20 b) in
  let high := calculateCarbonSequestration (forward_input (-10000) mangrove 20 b') in
  (uncertainty b <? uncertainty b') = true /\
  annual_absorption low = -7.1 /\
  annual_absorption high = -6.09 /\
  (annual_absorption low <? annual_absorption high) = true.
Proof.
  cbv zeta. repeat (split; [vm_compute; reflexivity|]). vm_compute. reflexivity.
Qed.

(** C8 (amended) — when the area is not negative, raising one of the
    three buffer percentages and keeping the other inputs never gives a
    larger annual absorption. *)
Theorem C8_buffer_antitone (p : CalculationParams.t) (b' : Buffers) :
  (0 <=? CalculationParams.area_m2 p) = true ->
  one_buffer_raised (default (CalculationParams.buffers p) DEFAULT_BUFFERS) b' ->
  (annual_absorption (calculateCarbonSequestration p)
   <? annual_absorption (calculateCarbonSequestration (with_buffers p b'))) = false.
Proof.
  intros Ha Hb. rewrite !annual_absorption_forward.
  apply fwle_round2. cbn [with_buffers CalculationParams.area_m2
    CalculationParams.ecosystem_type CalculationParams.buffers default].
  now apply net_annual_buffer_antitone.
Qed.

Lemma C8_buffer_antitone_witness :
  (annual_absorption
     (calculateCarbonSequestration (forward_input 100000 mangrove 20 DEFAULT_BUFFERS))
   <? annual_absorption
        (calculateCarbonSequestration
           (forward_input 100000 mangrove 20
              {| uncertainty := 20; mortality := 15; verification := 5 |})))
  = false.
Proof.
  apply (C8_buffer_antitone (forward_input 100000 mangrove 20 DEFAULT_BUFFERS)
           {| uncertainty := 20; mortality := 15; verification := 5 |}).
  - reflexivity.
  - left. repeat split.
Defined.

(** C3 (amended) — for an area from 1 m2 to 10^12 m2, a horizon from 1 to
    1000 years and buffers that sum to between 0 and 99, feeding the
    cumulative absorption that forward mode returns to policy mode, with
    the same ecosystem type, horizon and buffers, gives an area within
    [0.5 + 50 / (rate * buffer_factor * horizon)] m2 of the original one, up
    to a relative floating-point error of [2^-45]: the target has lost up to
    0.005 t in its rounding to two decimals.  The area is recovered within
    1 m2 when [rate * buffer_factor * horizon] is at least 107. *)
Theorem C3_round_trip_bound (area : float) (e : EcosystemType) (years : float)
    (b : Buffers) :
  moderate_input area years b ->
  let target :=
    cumulative_absorption
      (calculateCarbonSequestration (forward_input area e years b)) in
  let yield :=
    (F2R (SEQUESTRATION_FACTORS e) * F2R (buffer_factor b) * F2R years)%R in
  exists out,
    policy_area_needed (calculateRequiredArea (policy_input target e years b))
    = Some out /\
    ffinite out /\
    (Rabs (F2R out - F2R area)
     <= / 2 + 50 * (1 + pow2 (-45)) / yield + pow2 (-45) * F2R area)%R /\
    (107 <= yield -> Rabs (F2R out - F2R area) <= 1)%R.
Proof.
  intros Hin target yield.
  exists (round_trip area e years b).
  split; [reflexivity|].
  destruct (round_trip_bound area e years b Hin) as [Hf Hb].
  split; [assumption|]. split; [exact Hb|].
  intros Hy. eapply Rle_trans; [exact Hb|]. fold yield.
  destruct Hin as (Ha1 & Ha2 & _).
  destruct (input_range area _ _ 1%R 1000000000000%R Ha1 Ha2
              ffinite_1 ffinite_1e12 F2R_1 F2R_1e12) as [_ HA].
  assert (HI : (/ yield <= / 107)%R) by (apply Rinv_le_contravar; lra).
  assert (H0 : (0 < / yield)%R) by (apply Rinv_0_lt_compat; lra).
  change (pow2 (-45)) with (/ 35184372088832)%R.
  unfold Rdiv. lra.
Qed.

Lemma C3_round_trip_bound_witness :
  exists out,
    policy_area_needed
      (calculateRequiredArea
         (policy_input
            (cumulative_absorption
               (calculateCarbonSequestration
                  (forward_input 100000 mangrove 20 DEFAULT_BUFFERS)))
            mangrove 20 DEFAULT_BUFFERS))
    = Some out /\
    (Rabs (F2R out - F2R 100000) <= 1)%R.
Proof.
  destruct (C3_round_trip_bound 100000 mangrove 20 DEFAULT_BUFFERS)
    as (out & Hout & _ & _ & Hone).
  - repeat split.
  - exists out. split; [assumption|]. apply Hone.
    unfold F2R.
    let v := eval vm_compute in (Prim2SF (SEQUESTRATION_FACTORS mangrove)) in
    change (Prim2SF (SEQUESTRATION_FACTORS mangrove)) with v.
    let v := eval vm_compute in (Prim2SF (buffer_factor DEFAULT_BUFFERS)) in
    change (Prim2SF (buffer_factor DEFAULT_BUFFERS)) with v.
    let v := eval vm_compute in (Prim2SF 20) in change (Prim2SF 20) with v.
    cbn [B2R signed]. pow2_literals. lra.
Defined.

(** * The anomaly detector *)

Section Detector.

Implicit Types (project : Project.t) (historical_data : list Project.t).

Lemma js_index_last_two {A : Type} (older : list A) (previous latest : A) :
  let a := older ++ [previous; latest] in
  js_index a (Z.of_nat (List.length a) - 2) = Some previous /\
  js_index a (Z.of_nat (List.length a) - 1) = Some latest.
Proof.
  intros a. subst a. unfold js_index.
  rewrite length_app. cbn [List.length].
  replace (Z.of_nat (List.length older + 2) - 2)%Z with (Z.of_nat (List.length older)) by lia.
  replace (Z.of_nat (List.length older + 2) - 1)%Z with (Z.of_nat (S (List.length older))) by lia.
  destruct (Z.ltb_spec (Z.of_nat (List.length older)) 0); [lia|].
  destruct (Z.ltb_spec (Z.of_nat (S (List.length older))) 0); [lia|].
  rewrite !Nat2Z.id. split.
  - rewrite nth_error_app2 by lia. now rewrite Nat.sub_diag.
  - rewrite nth_error_app2 by lia.
    now replace (S (List.length older) - List.length older)%nat with 1%nat by lia.
Qed.

Lemma js_index_short {A : Type} (a : list A) :
  (List.length a < 2)%nat ->
  js_index a (Z.of_nat (List.length a) - 2) = None.
Proof.
  intros Hlen. unfold js_index.
  destruct (Z.ltb_spec (Z.of_nat (List.length a) - 2) 0); [reflexivity | lia].
Qed.

Lemma split_last_two {A : Type} (a : list A) :
  (2 <= List.length a)%nat ->
  exists older previous latest, a = older ++ [previous; latest].
Proof.
  intros Hlen.
  destruct (exists_last (l := a)) as [a' [latest ->]].
  { intros ->. cbn in Hlen. lia. }
  rewrite length_app in Hlen. cbn in Hlen.
  destruct (exists_last (l := a')) as [older [previous ->]].
  { intros ->. cbn in Hlen. lia. }
  exists older, previous, latest. now rewrite <- app_assoc.
Qed.

Lemma detectAnomalies_stages project historical_data :
  detectAnomalies project historical_data
  = later_checks project (growth_stage historical_data).
Proof.
  unfold detectAnomalies, later_checks, growth_stage.
  destruct historical_data as [|s historical_data]; [reflexivity|].
  replace (0 <? Z.of_nat (List.length (s :: historical_data)))%Z with true.
  2:{ symmetry. apply Z.ltb_lt. cbn [List.length]. lia. }
  destruct (js_index _ (_ - 2)); [|reflexivity].
  destruct (js_index _ (_ - 1)); [|reflexivity].
  now destruct (1.0 <? _).
Qed.

Lemma growth_stage_fires historical_data :
  growth_rule_holds historical_data ->
  growth_stage historical_data = ([FLAG_GROWTH], 0 + 25).
Proof.
  intros (older & previous & latest & -> & Hrate).
  unfold growth_stage.
  destruct (js_index_last_two older previous latest) as [-> ->].
  now rewrite Hrate.
Qed.

Lemma growth_stage_silent historical_data :
  ~ growth_rule_holds historical_data ->
  growth_stage historical_data = ([], 0).
Proof.
  intros Hno. unfold growth_stage.
  destruct (le_lt_dec 2 (List.length historical_data)) as [Hlen|Hlen].
  - destruct (split_last_two _ Hlen) as (older & previous & latest & ->).
    destruct (js_index_last_two older previous latest) as [-> ->].
    destruct (1.0 <? _) eqn:Hrate; [|reflexivity].
    exfalso. apply Hno. now exists older, previous, latest.
  - now rewrite js_index_short.
Qed.

Lemma growth_rule_needs_two historical_data :
  growth_rule_holds historical_data -> (2 <= List.length historical_data)%nat.
Proof.
  intros (older & previous & latest & -> & _).
  rewrite length_app. cbn. lia.
Qed.

Lemma growth_rule_dec historical_data :
  growth_rule_holds historical_data \/ ~ growth_rule_holds historical_data.
Proof.
  destruct (le_lt_dec 2 (List.length historical_data)) as [Hlen|Hlen].
  - destruct (split_last_two _ Hlen) as (older & previous & latest & ->).
    destruct (1.0 <? (Project.area_m2 latest - Project.area_m2 previous)
                    / Project.area_m2 previous) eqn:Hrate.
    + left. now exists older, previous, latest.
    + right. intros (older' & previous' & latest' & Heq & Hrate').
      apply (f_equal (@rev _)) in Heq. rewrite !rev_app_distr in Heq. cbn in Heq.
      injection Heq as <- <- _. congruence.
  - right. intros H. apply growth_rule_needs_two in H. lia.
Qed.

Ltac later_cases project :=
  unfold later_checks;
  destruct (_ * (Project.area_m2 project / 10000)
            <? annual_co2_absorption (Project.carbon_calculations project));
  destruct (Project.area_m2 project <? 1000).

(** C6 — the growth-rate rule fires (its flag is reported) exactly when
    the history ends with two snapshots whose relative growth
    [(latest - previous) / previous] exceeds 1.0.  When it fires, the flag
    "Unrealistic area expansion detected" is reported first and 25 is
    added to what the other rules contribute; when it does not, and in
    particular when the history has fewer than two snapshots, the report
    is the one obtained with no history at all. *)
Theorem C6_growth_rule project historical_data :
  let r := detectAnomalies project historical_data in
  let r0 := detectAnomalies project [] in
  (fired FLAG_GROWTH r = true <-> growth_rule_holds historical_data) /\
  (growth_rule_holds historical_data ->
     flags r = FLAG_GROWTH :: flags r0 /\
     credibility_impact r = credibility_impact r0 + 25) /\
  (~ growth_rule_holds historical_data -> r = r0) /\
  ((List.length historical_data < 2)%nat -> r = r0).
Proof.
  intros r r0. subst r r0. rewrite !detectAnomalies_stages.
  change (growth_stage []) with (@nil string, 0).
  assert (Hfires : growth_rule_holds historical_data ->
            growth_stage historical_data = ([FLAG_GROWTH], 0 + 25))
    by apply growth_stage_fires.
  assert (Hsilent : ~ growth_rule_holds historical_data ->
            growth_stage historical_data = ([], 0))
    by apply growth_stage_silent.
  repeat split.
  - intros Hfired. destruct (growth_rule_dec historical_data) as [H|H]; [exact H|].
    rewrite (Hsilent H) in Hfired. exfalso. revert Hfired.
    later_cases project; vm_compute; discriminate.
  - intros H. rewrite (Hfires H). later_cases project; reflexivity.
  - rewrite (Hfires H). later_cases project; reflexivity.
  - rewrite (Hfires H). later_cases project; vm_compute; reflexivity.
  - intros H. now rewrite (Hsilent H).
  - intros Hlen. rewrite Hsilent; [reflexivity|].
    intros H. apply growth_rule_needs_two in H. lia.
Qed.

(** C9 — the credibility impact of a report is 25 for the growth flag
    plus 30 for the theoretical-maximum flag plus 10 for the minimum-area
    flag, counting the flags the report lists; so it is one of 0, 10, 25,
    30, 35, 40, 55, 65, and lies between 0 and 65. *)
Theorem C9_credibility_impact_sum project historical_data :
  let r := detectAnomalies project historical_data in
  credibility_impact r
  = Z2F (25 * Z.b2z (fired FLAG_GROWTH r)
         + 30 * Z.b2z (fired FLAG_THEORETICAL_MAX r)
         + 10 * Z.b2z (fired FLAG_SMALL_AREA r)) /\
  In (credibility_impact r) [0; 10; 25; 30; 35; 40; 55; 65] /\
  (0 <=? credibility_impact r) = true /\
  (credibility_impact r <=? 65) = true.
Proof.
  intros r. subst r. rewrite detectAnomalies_stages.
  destruct (growth_rule_dec historical_data) as [H|H].
  - rewrite (growth_stage_fires _ H).
    later_cases project; vm_compute; intuition.
  - rewrite (growth_stage_silent _ H).
    later_cases project; vm_compute; intuition.
Qed.

End Detector.

(** * The calculator: worked examples and the policy-mode fields *)

(** C4 — the worked example of forward mode: 100000 m2 of mangrove over 20
    years with the default buffers gives 71.05 t/year, 1421 t in total, 32
    cars, 9 homes and 22736 trees. *)
Theorem C4_mangrove_example :
  calculateCarbonSequestration
    {| CalculationParams.area_m2 := 100000;
       CalculationParams.ecosystem_type := mangrove;
       CalculationParams.years := Some 20;
       CalculationParams.buffers := None |}
  = {| annual_absorption := 71.05;
       cumulative_absorption := 1421.0;
       equivalences :=
         {| cars_removed := 32; homes_powered := 9; trees_planted := 22736 |};
       policy_area_needed := None |}.
Proof.
  vm_compute. reflexivity.
Qed.

(** The same example with the horizon and the buffers spelled out or both
    left to their defaults. *)
Lemma mangrove_example_defaults :
  calculateCarbonSequestration (forward_input 100000 mangrove 20 DEFAULT_BUFFERS)
  = calculateCarbonSequestration
      {| CalculationParams.area_m2 := 100000;
         CalculationParams.ecosystem_type := mangrove;
         CalculationParams.years := None;
         CalculationParams.buffers := None |}.
Proof. reflexivity. Qed.

Section PolicyMode.

Variable params : PolicyCalculationParams.t.

Let target := PolicyCalculationParams.target_co2_reduction params.
Let horizon := default (PolicyCalculationParams.years params) 20.
Let buffers := default (PolicyCalculationParams.buffers params) DEFAULT_BUFFERS.
Let result := calculateRequiredArea params.

(** C5 — in policy mode the equivalences come from the target and the
    horizon alone: [cars_removed = round (target * 0.45 / horizon)],
    [homes_powered = round (target * 0.12 / horizon)] and
    [trees_planted = round (target * 16)], whatever the ecosystem type and
    the buffers, which only the required area depends on; and seagrass
    with a target of 1000 t over 20 years and the default buffers needs
    82102 m2. *)
Theorem C5_policy_equivalences :
  (0 <? target) = true ->
  (0 <? horizon) = true ->
  (buffer_sum buffers <? 100) = true ->
  cars_removed (equivalences result) = Math.round (target * 0.45 / horizon) /\
  homes_powered (equivalences result) = Math.round (target * 0.12 / horizon) /\
  trees_planted (equivalences result) = Math.round (target * 16) /\
  (forall e b,
     equivalences (calculateRequiredArea (policy_input target e horizon b))
     = equivalences result) /\
  policy_area_needed
    (calculateRequiredArea
       {| PolicyCalculationParams.target_co2_reduction := 1000;
          PolicyCalculationParams.ecosystem_type := seagrass;
          PolicyCalculationParams.years := Some 20;
          PolicyCalculationParams.buffers := None |})
  = Some 82102.
Proof.
  intros _ _ _.
  split; [reflexivity|]. split; [reflexivity|]. split; [reflexivity|].
  split; [intros e b; reflexivity|].
  vm_compute. reflexivity.
Qed.

(** C10 — in policy mode the absorption fields echo the request:
    [annual_absorption] is the target per year and [cumulative_absorption]
    the target, each rounded to two decimals. *)
Theorem C10_policy_absorption_echo :
  (horizon =? 0) = false ->
  annual_absorption result = round2 (target / horizon) /\
  cumulative_absorption result = round2 target.
Proof.
  intros _. split; reflexivity.
Qed.

End PolicyMode.

Lemma C5_policy_equivalences_witness :
  let p := policy_input 1000 seagrass 20 DEFAULT_BUFFERS in
  cars_removed (equivalences (calculateRequiredArea p)) = 23 /\
  homes_powered (equivalences (calculateRequiredArea p)) = 6 /\
  trees_planted (equivalences (calculateRequiredArea p)) = 16000.
Proof.
  intros p.
  destruct (C5_policy_equivalences p) as (Hc & Hh & Ht & _);
    [reflexivity | reflexivity | reflexivity |].
  rewrite Hc, Hh, Ht. vm_compute. split; [|split]; reflexivity.
Defined.

Lemma C10_policy_absorption_echo_witness :
  let p := policy_input 1000 seagrass 20 DEFAULT_BUFFERS in
  annual_absorption (calculateRequiredArea p) = 50 /\
  cumulative_absorption (calculateRequiredArea p) = 1000.
Proof.
  intros p.
  destruct (C10_policy_absorption_echo p) as (Ha & Hc); [reflexivity|].
  rewrite Ha, Hc. vm_compute. split; reflexivity.
Defined.

(** The echoed fields are not the absorption of the area that is returned:
    10 t over 100 years of kelp forest needs 116 m2, whose forward-mode
    cumulative absorption is 9.99 t. *)
Lemma policy_echo_differs_from_forward :
  let r := calculateRequiredArea (policy_input 10 kelp_forest 100 DEFAULT_BUFFERS) in
  policy_area_needed r = Some 116 /\
  cumulative_absorption r = 10 /\
  cumulative_absorption
    (calculateCarbonSequestration (forward_input 116 kelp_forest 100 DEFAULT_BUFFERS))
  = 9.99.
Proof.
  vm_compute. split; [|split]; reflexivity.
Qed.

(** * Further properties of forward mode *)

(** X1 — forward mode never returns a negative figure for an input that
    makes sense: when the area and the horizon are not negative and the
    buffers sum to at most 100, neither absorption figure and none of the
    three equivalences is below zero. *)
Theorem forward_results_not_negative (p : CalculationParams.t) :
  (0 <=? CalculationParams.area_m2 p) = true ->
  (0 <=? default (CalculationParams.years p) 20) = true ->
  (buffer_sum (default (CalculationParams.buffers p) DEFAULT_BUFFERS) <=? 100) = true ->
  let r := calculateCarbonSequestration p in
  (annual_absorption r <? 0) = false /\
  (cumulative_absorption r <? 0) = false /\
  (cars_removed (equivalences r) <? 0) = false /\
  (homes_powered (equivalences r) <? 0) = false /\
  (trees_planted (equivalences r) <? 0) = false.
Proof.
  intros Ha Hy Hb r. subst r. rewrite forward_params_eta.
  destruct (forward_not_negative _ (CalculationParams.ecosystem_type p) _ _ Ha Hy Hb)
    as (H1 & H2 & H3).
  split; [exact H1|]. split; [exact H2|].
  split; [|split]; apply H3; cbn; auto.
Qed.

Lemma forward_results_not_negative_witness :
  let r := calculateCarbonSequestration (forward_input 100000 mangrove 20 DEFAULT_BUFFERS) in
  (annual_absorption r <? 0) = false /\
  (cumulative_absorption r <? 0) = false /\
  (cars_removed (equivalences r) <? 0) = false /\
  (homes_powered (equivalences r) <? 0) = false /\
  (trees_planted (equivalences r) <? 0) = false.
Proof.
  apply (forward_results_not_negative (forward_input 100000 mangrove 20 DEFAULT_BUFFERS));
    reflexivity.
Defined.

(** X2 — in forward mode a longer horizon never lowers the cumulative
    absorption, and with a horizon of at least one year the cumulative
    absorption is never below the annual one; both for an area that is not
    negative and buffers that sum to at most 100. *)
Theorem cumulative_grows_with_horizon (area : float) (e : EcosystemType)
    (years years' : float) (b : Buffers) :
  (0 <=? area) = true -> (buffer_sum b <=? 100) = true ->
  (years <=? years') = true ->
  let r := calculateCarbonSequestration (forward_input area e years b) in
  let r' := calculateCarbonSequestration (forward_input area e years' b) in
  (cumulative_absorption r' <? cumulative_absorption r) = false /\
  ((1 <=? years) = true ->
   (cumulative_absorption r <? annual_absorption r) = false).
Proof.
  intros Ha Hb Hy r r'. subst r r'.
  destruct (forward_fields area e years b) as (-> & -> & _).
  destruct (forward_fields area e years' b) as (_ & -> & _).
  assert (Hn := net_annual_not_negative area e b Ha Hb).
  split.
  - apply fwle_round2, fwle_mul_weak_l; [assumption | now apply fle_fwle].
  - intros H1. apply fwle_round2. now apply fmul_ge_1.
Qed.

Lemma cumulative_grows_with_horizon_witness :
  let r := calculateCarbonSequestration (forward_input 100000 mangrove 20 DEFAULT_BUFFERS) in
  let r' := calculateCarbonSequestration (forward_input 100000 mangrove 30 DEFAULT_BUFFERS) in
  (cumulative_absorption r' <? cumulative_absorption r) = false /\
  ((1 <=? 20) = true ->
   (cumulative_absorption r <? annual_absorption r) = false).
Proof.
  apply (cumulative_grows_with_horizon 100000 mangrove 20 30 DEFAULT_BUFFERS);
    reflexivity.
Defined.

(** X3 — the ecosystem types rank by their sequestration factor: for the
    same area (not negative), horizon (not negative) and buffers (summing
    to at most 100), an ecosystem type with a larger factor never gives a
    smaller annual or cumulative absorption.  So salt marsh, seagrass,
    mangrove and kelp forest give results in that order. *)
Theorem forward_ranks_by_factor (area : float) (e e' : EcosystemType)
    (years : float) (b : Buffers) :
  (0 <=? area) = true -> (0 <=? years) = true -> (buffer_sum b <=? 100) = true ->
  (SEQUESTRATION_FACTORS e <=? SEQUESTRATION_FACTORS e') = true ->
  let r := calculateCarbonSequestration (forward_input area e years b) in
  let r' := calculateCarbonSequestration (forward_input area e' years b) in
  (annual_absorption r' <? annual_absorption r) = false /\
  (cumulative_absorption r' <? cumulative_absorption r) = false.
Proof.
  intros Ha Hy Hb He r r'. subst r r'.
  destruct (forward_fields area e years b) as (-> & -> & _).
  destruct (forward_fields area e' years b) as (-> & -> & _).
  assert (Hnet : fwle (net_annual area e b) (net_annual area e' b)).
  { unfold net_annual.
    apply fwle_mul_nonneg_r; [now apply buffer_factor_nonneg|].
    apply fwle_mul_nonneg_l; [|now apply fle_fwle].
    apply (fle_div_pos_r 10000) in Ha; [exact Ha | apply fpositive_10000]. }
  split; apply fwle_round2; [assumption|].
  now apply fwle_mul_nonneg_r.
Qed.

Lemma forward_ranks_by_factor_witness :
  let b := DEFAULT_BUFFERS in
  let annual e := annual_absorption
                    (calculateCarbonSequestration (forward_input 100000 e 20 b)) in
  (annual seagrass <? annual salt_marsh) = false /\
  (annual mangrove <? annual seagrass) = false /\
  (annual kelp_forest <? annual mangrove) = false.
Proof.
  cbv zeta. split; [|split].
  - apply (forward_ranks_by_factor 100000 salt_marsh seagrass 20 DEFAULT_BUFFERS);
      reflexivity.
  - apply (forward_ranks_by_factor 100000 seagrass mangrove 20 DEFAULT_BUFFERS);
      reflexivity.
  - apply (forward_ranks_by_factor 100000 mangrove kelp_forest 20 DEFAULT_BUFFERS);
      reflexivity.
Defined.

(** * Further properties of policy mode *)

(** X4 — in policy mode a larger target never needs a smaller area: for
    buffers that sum to at most 100 and a horizon above zero, raising the
    target and keeping the other inputs never lowers the required area. *)
Theorem policy_area_grows_with_target (target target' : float)
    (e : EcosystemType) (years : float) (b : Buffers) :
  (target <=? target') = true ->
  (buffer_sum b <=? 100) = true -> (0 <? years) = true ->
  exists a a',
    policy_area_needed (calculateRequiredArea (policy_input target e years b)) = Some a /\
    policy_area_needed (calculateRequiredArea (policy_input target' e years b)) = Some a' /\
    (a' <? a) = false.
Proof.
  intros Ht Hb Hy.
  destruct (policy_fields target e years b) as (_ & _ & _ & _ & _ & H).
  destruct (policy_fields target' e years b) as (_ & _ & _ & _ & _ & H').
  eexists. eexists. split; [exact H|]. split; [exact H'|].
  apply fwle_required_area. unfold required_m2.
  apply fwle_div_plus_r; [now apply fplus_horizon_yield | now apply fle_fwle].
Qed.

Lemma policy_area_grows_with_target_witness :
  exists a a',
    policy_area_needed
      (calculateRequiredArea (policy_input 1000 seagrass 20 DEFAULT_BUFFERS)) = Some a /\
    policy_area_needed
      (calculateRequiredArea (policy_input 2000 seagrass 20 DEFAULT_BUFFERS)) = Some a' /\
    (a' <? a) = false.
Proof.
  apply (policy_area_grows_with_target 1000 2000 seagrass 20 DEFAULT_BUFFERS);
    reflexivity.
Defined.

(** X5 — in policy mode a longer horizon never needs a larger area: for a
    target that is not negative and buffers that sum to at most 100,
    raising a horizon above zero and keeping the other inputs never raises
    the required area. *)
Theorem policy_area_shrinks_with_horizon (target : float)
    (e : EcosystemType) (years years' : float) (b : Buffers) :
  (0 <=? target) = true -> (buffer_sum b <=? 100) = true ->
  (0 <? years) = true -> (years <=? years') = true ->
  exists a a',
    policy_area_needed (calculateRequiredArea (policy_input target e years b)) = Some a /\
    policy_area_needed (calculateRequiredArea (policy_input target e years' b)) = Some a' /\
    (a <? a') = false.
Proof.
  intros Ht Hb Hy Hyy.
  destruct (policy_fields target e years b) as (_ & _ & _ & _ & _ & H).
  destruct (policy_fields target e years' b) as (_ & _ & _ & _ & _ & H').
  eexists. eexists. split; [exact H|]. split; [exact H'|].
  assert (Hy' : (0 <? years') = true).
  { apply fplus_of_lt in Hy as Hp. rewrite ltb_spec in *.
    apply SFltb_SFval in Hy; try apply Prim2SF_valid.
    apply SFltb_SFval; try apply Prim2SF_valid.
    apply fle_SFle in Hyy. destruct Hy as (H0 & _ & Hy), Hyy as (_ & Hn & Hyy).
    repeat split; try assumption. lra. }
  apply required_area_antitone.
  - now apply fle_fwle.
  - now apply fplus_horizon_yield.
  - now apply fplus_horizon_yield.
  - unfold horizon_yield. apply fwle_mul_weak_l; [|now apply fle_fwle].
    apply fplus_nonneg, fplus_mul; [|now apply fplus_buffer_factor].
    apply fplus_of_positive, fpositive_SEQUESTRATION_FACTORS.
Qed.

Lemma policy_area_shrinks_with_horizon_witness :
  exists a a',
    policy_area_needed
      (calculateRequiredArea (policy_input 1000 seagrass 20 DEFAULT_BUFFERS)) = Some a /\
    policy_area_needed
      (calculateRequiredArea (policy_input 1000 seagrass 30 DEFAULT_BUFFERS)) = Some a' /\
    (a <? a') = false.
Proof.
  apply (policy_area_shrinks_with_horizon 1000 seagrass 20 30 DEFAULT_BUFFERS);
    reflexivity.
Defined.

(** X6 — in policy mode the ecosystem types rank by their sequestration
    factor the other way round: for a target that is not negative, buffers
    that sum to at most 100 and a horizon above zero, an ecosystem type
    with a larger factor never needs a larger area. *)
Theorem policy_area_ranks_by_factor (target : float)
    (e e' : EcosystemType) (years : float) (b : Buffers) :
  (0 <=? target) = true -> (buffer_sum b <=? 100) = true ->
  (0 <? years) = true ->
  (SEQUESTRATION_FACTORS e <=? SEQUESTRATION_FACTORS e') = true ->
  exists a a',
    policy_area_needed (calculateRequiredArea (policy_input target e years b)) = Some a /\
    policy_area_needed (calculateRequiredArea (policy_input target e' years b)) = Some a' /\
    (a <? a') = false.
Proof.
  intros Ht Hb Hy He.
  destruct (policy_fields target e years b) as (_ & _ & _ & _ & _ & H).
  destruct (policy_fields target e' years b) as (_ & _ & _ & _ & _ & H').
  eexists. eexists. split; [exact H|]. split; [exact H'|].
  apply required_area_antitone.
  - now apply fle_fwle.
  - now apply fplus_horizon_yield.
  - now apply fplus_horizon_yield.
  - unfold horizon_yield.
    apply fwle_mul_weak_r; [now apply fplus_nonneg, fplus_of_lt|].
    apply fwle_mul_weak_r; [now apply fplus_nonneg, fplus_buffer_factor|].
    now apply fle_fwle.
Qed.

Lemma policy_area_ranks_by_factor_witness :
  exists a a',
    policy_area_needed
      (calculateRequiredArea (policy_input 1000 mangrove 20 DEFAULT_BUFFERS)) = Some a /\
    policy_area_needed
      (calculateRequiredArea (policy_input 1000 kelp_forest 20 DEFAULT_BUFFERS)) = Some a' /\
    (a <? a') = false.
Proof.
  apply (policy_area_ranks_by_factor 1000 mangrove kelp_forest 20 DEFAULT_BUFFERS);
    reflexivity.
Defined.

(** X7 — in policy mode a larger buffer never needs a smaller area: for a
    target that is not negative and a horizon above zero, raising one of
    the three buffer percentages, the buffers summing to at most 100 before
    and after, never lowers the required area. *)
Theorem policy_area_grows_with_buffer (target : float)
    (e : EcosystemType) (years : float) (b b' : Buffers) :
  (0 <=? target) = true -> (0 <? years) = true ->
  one_buffer_raised b b' ->
  (buffer_sum b <=? 100) = true -> (buffer_sum b' <=? 100) = true ->
  exists a a',
    policy_area_needed (calculateRequiredArea (policy_input target e years b)) = Some a /\
    policy_area_needed (calculateRequiredArea (policy_input target e years b')) = Some a' /\
    (a' <? a) = false.
Proof.
  intros Ht Hy Hbb Hb Hb'.
  destruct (policy_fields target e years b) as (_ & _ & _ & _ & _ & H).
  destruct (policy_fields target e years b') as (_ & _ & _ & _ & _ & H').
  eexists. eexists. split; [exact H|]. split; [exact H'|].
  assert (Hsum := fwle_buffer_sum b b' Hbb).
  assert (Hfac : fwle (buffer_factor b') (buffer_factor b)).
  { unfold buffer_factor. apply fwle_div_pos_r; [apply fpositive_100|].
    apply fwle_sub_anti; [apply ffinite_100 | assumption]. }
  apply required_area_antitone.
  - now apply fle_fwle.
  - now apply fplus_horizon_yield.
  - now apply fplus_horizon_yield.
  - unfold horizon_yield.
    apply fwle_mul_weak_r; [now apply fplus_nonneg, fplus_of_lt|].
    apply fwle_mul_weak_l; [|assumption].
    apply fplus_nonneg, fplus_of_positive, fpositive_SEQUESTRATION_FACTORS.
Qed.

Lemma policy_area_grows_with_buffer_witness :
  let b' := {| uncertainty := 20; mortality := 15; verification := 5 |} in
  exists a a',
    policy_area_needed
      (calculateRequiredArea (policy_input 1000 mangrove 20 DEFAULT_BUFFERS)) = Some a /\
    policy_area_needed
      (calculateRequiredArea (policy_input 1000 mangrove 20 b')) = Some a' /\
    (a' <? a) = false.
Proof.
  apply (policy_area_grows_with_buffer 1000 mangrove 20 DEFAULT_BUFFERS
           {| uncertainty := 20; mortality := 15; verification := 5 |});
    try reflexivity.
  left. repeat split.
Defined.

(** X8 — policy mode never returns a negative figure for an input that
    makes sense: when the target is not negative, the horizon is above
    zero and the buffers sum to at most 100, neither absorption figure,
    none of the three equivalences and not the required area is below
    zero. *)
Theorem policy_results_not_negative (q : PolicyCalculationParams.t) :
  (0 <=? PolicyCalculationParams.target_co2_reduction q) = true ->
  (0 <? default (PolicyCalculationParams.years q) 20) = true ->
  (buffer_sum (default (PolicyCalculationParams.buffers q) DEFAULT_BUFFERS) <=? 100) = true ->
  let r := calculateRequiredArea q in
  (annual_absorption r <? 0) = false /\
  (cumulative_absorption r <? 0) = false /\
  (cars_removed (equivalences r) <? 0) = false /\
  (homes_powered (equivalences r) <? 0) = false /\
  (trees_planted (equivalences r) <? 0) = false /\
  exists a, policy_area_needed r = Some a /\ (a <? 0) = false.
Proof.
  intros Ht Hy Hb r. subst r. rewrite policy_params_eta.
  destruct (policy_not_negative _ (PolicyCalculationParams.ecosystem_type q) _ _ Ht Hy Hb)
    as (H1 & H2 & H3).
  split; [exact H1|]. split; [exact H2|].
  split; [|split; [|split]]; try (apply H3; cbn; auto).
  eexists. split; [reflexivity|]. apply H3. cbn. auto.
Qed.

Lemma policy_results_not_negative_witness :
  let r := calculateRequiredArea (policy_input 1000 seagrass 20 DEFAULT_BUFFERS) in
  (annual_absorption r <? 0) = false /\
  (cumulative_absorption r <? 0) = false /\
  (cars_removed (equivalences r) <? 0) = false /\
  (homes_powered (equivalences r) <? 0) = false /\
  (trees_planted (equivalences r) <? 0) = false /\
  exists a, policy_area_needed r = Some a /\ (a <? 0) = false.
Proof.
  apply (policy_results_not_negative (policy_input 1000 seagrass 20 DEFAULT_BUFFERS));
    reflexivity.
Defined.

(** X9 — a horizon of zero years is not rejected in policy mode: with a
    target above zero and buffers that sum to between 0 and 100, the
    required area and the annual absorption it returns are both
    [+infinity]. *)
Theorem policy_zero_horizon (target : float) (e : EcosystemType) (b : Buffers) :
  (0 <? target) = true ->
  (0 <=? buffer_sum b) = true -> (buffer_sum b <=? 100) = true ->
  let r := calculateRequiredArea (policy_input target e 0 b) in
  policy_area_needed r = Some infinity /\ annual_absorption r = infinity.
Proof.
  intros Ht H0 H100 r. subst r.
  destruct (policy_fields target e 0 b) as (-> & _ & _ & _ & _ & ->).
  unfold required_m2, horizon_yield.
  rewrite fmul_plus_0.
  - rewrite (fdiv_positive_0 target Ht). split; vm_compute; reflexivity.
  - now apply effective_finite.
  - apply fplus_mul; [|now apply fplus_buffer_factor].
    apply fplus_of_positive, fpositive_SEQUESTRATION_FACTORS.
Qed.

Lemma policy_zero_horizon_witness :
  let r := calculateRequiredArea (policy_input 1000 seagrass 0 DEFAULT_BUFFERS) in
  policy_area_needed r = Some infinity /\ annual_absorption r = infinity.
Proof.
  apply (policy_zero_horizon 1000 seagrass DEFAULT_BUFFERS); reflexivity.
Defined.

(** * Further properties of the anomaly detector *)

Ltac project_rules project :=
  unfold later_checks;
  destruct (_ * (Project.area_m2 project / 10000)
            <? annual_co2_absorption (Project.carbon_calculations project));
  destruct (Project.area_m2 project <? 1000).

Lemma growth_stage_two (older : list Project.t) (previous latest : Project.t) :
  growth_stage (older ++ [previous; latest])
  = if 1 <? growth_rate (Project.area_m2 previous) (Project.area_m2 latest)
    then ([FLAG_GROWTH], 0 + 25) else ([], 0).
Proof.
  unfold growth_stage.
  destruct (js_index_last_two older previous latest) as [-> ->]. reflexivity.
Qed.

Lemma fired_growth (project : Project.t) (older : list Project.t)
    (previous latest : Project.t) :
  fired FLAG_GROWTH (detectAnomalies project (older ++ [previous; latest]))
  = (1 <? growth_rate (Project.area_m2 previous) (Project.area_m2 latest)).
Proof.
  rewrite detectAnomalies_stages, growth_stage_two.
  destruct (1 <? growth_rate _ _); project_rules project; reflexivity.
Qed.

(** X10 — a report is marked suspicious exactly when its credibility impact
    is above zero, which is when it is at least 10, and exactly when one
    of the three rules has fired. *)
Theorem suspicious_iff_impact (project : Project.t) (historical_data : list Project.t) :
  let r := detectAnomalies project historical_data in
  is_suspicious r = (0 <? credibility_impact r) /\
  is_suspicious r = (10 <=? credibility_impact r) /\
  is_suspicious r
  = (fired FLAG_GROWTH r || fired FLAG_THEORETICAL_MAX r || fired FLAG_SMALL_AREA r)%bool.
Proof.
  intros r. subst r. rewrite detectAnomalies_stages.
  destruct (growth_rule_dec historical_data) as [H|H].
  - rewrite (growth_stage_fires _ H).
    project_rules project; vm_compute; intuition.
  - rewrite (growth_stage_silent _ H).
    project_rules project; vm_compute; intuition.
Qed.

(** X11 — the flags of a report are the flags of the rules that fired, each
    once, in the fixed order growth, theoretical maximum, small area. *)
Theorem flags_in_rule_order (project : Project.t) (historical_data : list Project.t) :
  let r := detectAnomalies project historical_data in
  flags r = filter (fun flag => fired flag r) ALL_FLAGS /\
  NoDup (flags r) /\
  (List.length (flags r) <= 3)%nat.
Proof.
  intros r. subst r. rewrite detectAnomalies_stages.
  destruct (growth_rule_dec historical_data) as [H|H].
  - rewrite (growth_stage_fires _ H).
    project_rules project; cbn [flags fst snd app];
      (split; [vm_compute; reflexivity|]);
      (split; [|cbn; lia]);
      repeat constructor; cbn; intuition; discriminate.
  - rewrite (growth_stage_silent _ H).
    project_rules project; cbn [flags fst snd app];
      (split; [vm_compute; reflexivity|]);
      (split; [|cbn; lia]);
      repeat constructor; cbn; intuition; discriminate.
Qed.

(** X12 — the growth rule fires only for an area that has more than
    doubled: when the previous area is a positive number and the latest
    area is not [+infinity], a report with the growth flag means that the
    latest area is more than twice the previous one. *)
Theorem growth_flag_needs_doubling (project : Project.t) (older : list Project.t)
    (previous latest : Project.t) :
  (0 <? Project.area_m2 previous) = true ->
  (Project.area_m2 previous <? infinity) = true ->
  (Project.area_m2 latest <? infinity) = true ->
  fired FLAG_GROWTH (detectAnomalies project (older ++ [previous; latest])) = true ->
  (2 * F2R (Project.area_m2 previous) < F2R (Project.area_m2 latest))%R.
Proof.
  intros Hp Hp' Hl Hf. rewrite fired_growth in Hf.
  apply growth_rate_doubling; try assumption.
  now apply fpositive_of_bounds.
Qed.

Lemma growth_flag_needs_doubling_witness :
  (2 * F2R 10000 < F2R 25000)%R.
Proof.
  apply (growth_flag_needs_doubling (snapshot 25000 mangrove 17)
           [] (snapshot 10000 mangrove 7) (snapshot 25000 mangrove 17));
    reflexivity.
Defined.

(** X13 — growth from an area of exactly zero: the division by zero gives
    [+infinity] or NaN and is not reported as an error; the growth rule
    fires exactly when the latest area is above zero. *)
Theorem growth_from_zero_area (project : Project.t) (older : list Project.t)
    (previous latest : Project.t) :
  Project.area_m2 previous = 0 ->
  fired FLAG_GROWTH (detectAnomalies project (older ++ [previous; latest]))
  = (0 <? Project.area_m2 latest).
Proof.
  intros Hp. rewrite fired_growth, Hp. apply growth_rate_from_zero.
Qed.

Lemma growth_from_zero_area_witness :
  fired FLAG_GROWTH
    (detectAnomalies (snapshot 5 mangrove 0)
       ([] ++ [snapshot 0 mangrove 0; snapshot 5 mangrove 0]))
  = (0 <? 5).
Proof.
  apply (growth_from_zero_area (snapshot 5 mangrove 0) []
           (snapshot 0 mangrove 0) (snapshot 5 mangrove 0)).
  reflexivity.
Defined.

(** X14 — data that is missing is never flagged: a field that is
    [undefined] enters the detector's arithmetic and comparisons as NaN.
    When the area or the annual absorption of the project is NaN the
    theoretical-maximum rule does not fire, and when the area is NaN the
    small-area rule does not fire either, so that with no history the
    report is clean. *)
Theorem nan_is_never_flagged (project : Project.t) (historical_data : list Project.t) :
  is_nan (Project.area_m2 project) = true \/
  is_nan (annual_co2_absorption (Project.carbon_calculations project)) = true ->
  let r := detectAnomalies project historical_data in
  fired FLAG_THEORETICAL_MAX r = false /\
  (is_nan (Project.area_m2 project) = true ->
   fired FLAG_SMALL_AREA r = false /\ detectAnomalies project [] = clean_report).
Proof.
  intros Hnan r. subst r. rewrite !detectAnomalies_stages.
  assert (Hmax : (SEQUESTRATION_FACTORS (Project.ecosystem_type project) * 1.5
                  * (Project.area_m2 project / 10000)
                  <? annual_co2_absorption (Project.carbon_calculations project)) = false).
  { destruct Hnan as [Ha|Hc].
    - apply flt_nan_l, is_nan_mul_r, is_nan_div_l, Ha.
    - apply flt_nan_r, Hc. }
  split.
  - unfold later_checks. rewrite Hmax.
    destruct (growth_rule_dec historical_data) as [H|H].
    + rewrite (growth_stage_fires _ H).
      destruct (Project.area_m2 project <? 1000); reflexivity.
    + rewrite (growth_stage_silent _ H).
      destruct (Project.area_m2 project <? 1000); reflexivity.
  - intros Ha. unfold later_checks. rewrite Hmax.
    rewrite (flt_nan_l _ 1000 Ha). split; [|reflexivity].
    destruct (growth_rule_dec historical_data) as [H|H].
    + rewrite (growth_stage_fires _ H). reflexivity.
    + rewrite (growth_stage_silent _ H). reflexivity.
Qed.

Lemma nan_is_never_flagged_witness :
  let project := snapshot nan mangrove 1000000 in
  let r := detectAnomalies project [] in
  fired FLAG_THEORETICAL_MAX r = false /\
  (is_nan (Project.area_m2 project) = true ->
   fired FLAG_SMALL_AREA r = false /\ detectAnomalies project [] = clean_report).
Proof.
  apply (nan_is_never_flagged (snapshot nan mangrove 1000000) []).
  left. reflexivity.
Defined.

(** * The figures that count things, and the pages *)

(** X15 — the figures that count things are whole numbers: in both modes
    each of the three equivalences, and in policy mode the required area
    in m2, is a whole number whenever it is finite. *)
Theorem counts_are_whole_numbers (p : CalculationParams.t)
    (q : PolicyCalculationParams.t) (v : float) :
  In v (count_fields (calculateCarbonSequestration p)) \/
  In v (count_fields (calculateRequiredArea q)) ->
  ffinite v -> exists n : Z, F2R v = IZR n.
Proof.
  unfold count_fields.
  intros [[<-|[<-|[<-|[]]]] | [<-|[<-|[<-|[<-|[]]]]]]; apply fround_whole.
Qed.

Lemma counts_are_whole_numbers_witness :
  exists n : Z,
    F2R (cars_removed
           (equivalences
              (calculateCarbonSequestration
                 (forward_input 100000 mangrove 20 DEFAULT_BUFFERS)))) = IZR n.
Proof.
  apply (counts_are_whole_numbers
           (forward_input 100000 mangrove 20 DEFAULT_BUFFERS)
           (policy_input 1000 seagrass 20 DEFAULT_BUFFERS)).
  - left. left. reflexivity.
  - reflexivity.
Defined.



(** X17 — the verification dashboard never reports area growth: it runs
    the detector with an empty history, so the growth flag is never
    raised there and the credibility impact it shows is 0, 10, 30 or 40. *)
Theorem dashboard_never_reports_growth (project : Project.t) :
  let r := VerificationDashboard.anomalies project in
  fired FLAG_GROWTH r = false /\
  In (credibility_impact r) [0; 10; 30; 40] /\
  (credibility_impact r <=? 40) = true.
Proof.
  intros r. subst r. unfold VerificationDashboard.anomalies.
  rewrite detectAnomalies_stages.
  change (growth_stage []) with (@nil string, 0).
  unfold later_checks.
  destruct (_ * (Project.area_m2 project / 10000)
            <? annual_co2_absorption (Project.carbon_calculations project));
    destruct (Project.area_m2 project <? 1000); vm_compute; intuition.
Qed.

(** * The stakeholders of the registration form *)

Section Indexed.

Context {A : Type}.

Lemma js_filter_from_keeps (k index : nat) (a : list A) :
  (index < k)%nat ->
  js_filter_from k (fun _ i => negb (Nat.eqb i index)) a = a.
Proof.
  revert k. induction a as [|x a IH]; intros k Hk; cbn [js_filter_from].
  - reflexivity.
  - destruct (Nat.eqb_spec k index) as [E|_]; [lia|].
    cbn [negb]. f_equal. apply IH. lia.
Qed.

Lemma js_filter_from_deletes (k n : nat) (a : list A) :
  js_filter_from k (fun _ i => negb (Nat.eqb i (k + n))) a
  = firstn n a ++ skipn (S n) a.
Proof.
  revert k n. induction a as [|x a IH]; intros k n; cbn [js_filter_from].
  - now rewrite firstn_nil, skipn_nil.
  - destruct n as [|n].
    + rewrite Nat.add_0_r, Nat.eqb_refl. cbn [negb firstn skipn app].
      apply js_filter_from_keeps. lia.
    + destruct (Nat.eqb_spec k (k + S n)) as [E|_]; [lia|].
      cbn [negb firstn skipn app]. f_equal.
      replace (k + S n)%nat with (S k + n)%nat by lia. apply IH.
Qed.

Lemma js_map_from_length {B : Type} (k : nat) (f : A -> nat -> B) (a : list A) :
  List.length (js_map_from k f a) = List.length a.
Proof.
  revert k. induction a as [|x a IH]; intros k; cbn; [reflexivity|].
  now rewrite IH.
Qed.

Lemma js_map_from_nth {B : Type} (k : nat) (f : A -> nat -> B) (a : list A) (j : nat) :
  nth_error (js_map_from k f a) j
  = option_map (fun x => f x (k + j)%nat) (nth_error a j).
Proof.
  revert k j. induction a as [|x a IH]; intros k j; cbn [js_map_from].
  - now destruct j.
  - destruct j as [|j]; cbn [nth_error option_map].
    + now rewrite Nat.add_0_r.
    + rewrite IH. now replace (S k + j)%nat with (k + S j)%nat by lia.
Qed.

End Indexed.

Lemma removeStakeholder_split (index : nat) (l : list ProjectForm.Stakeholder) :
  ProjectForm.removeStakeholder index l = firstn index l ++ skipn (S index) l.
Proof.
  unfold ProjectForm.removeStakeholder, js_filter.
  apply (js_filter_from_deletes 0 index l).
Qed.

Lemma removeStakeholder_length (index : nat) (l : list ProjectForm.Stakeholder) :
  List.length (ProjectForm.removeStakeholder index l)
  = if (index <? List.length l)%nat then (List.length l - 1)%nat else List.length l.
Proof.
  rewrite removeStakeholder_split, length_app, length_firstn, length_skipn.
  destruct (Nat.ltb_spec index (List.length l)); lia.
Qed.

(** X18 — removing a stakeholder deletes the row with that index and
    nothing else: the list becomes the rows before it followed by the rows
    after it, one shorter when the index is in range and unchanged when it
    is not; and removing the row that Add has just appended gives back the
    list as it was. *)
Theorem removeStakeholder_deletes_one (index : nat) (l : list ProjectForm.Stakeholder) :
  ProjectForm.removeStakeholder index l = firstn index l ++ skipn (S index) l /\
  List.length (ProjectForm.removeStakeholder index l)
  = (if (index <? List.length l)%nat then List.length l - 1 else List.length l)%nat /\
  ProjectForm.removeStakeholder (List.length l) (ProjectForm.addStakeholder l) = l.
Proof.
  split; [apply removeStakeholder_split|]. split; [apply removeStakeholder_length|].
  rewrite removeStakeholder_split. unfold ProjectForm.addStakeholder.
  rewrite firstn_app, firstn_all, Nat.sub_diag, skipn_app.
  rewrite skipn_all2 by lia.
  replace (S (List.length l) - List.length l)%nat with 1%nat by lia.
  cbn. now rewrite !app_nil_r.
Qed.

(** X19 — editing a field of a stakeholder changes the row with that
    index and nothing else: the list keeps its length, the row with that
    index gets the new value in that field, and every other row is as it
    was. *)
Theorem updateStakeholder_touches_one (index : nat)
    (field : ProjectForm.StakeholderField) (value : string)
    (l : list ProjectForm.Stakeholder) (j : nat) :
  let l' := ProjectForm.updateStakeholder index field value l in
  List.length l' = List.length l /\
  nth_error l' j
  = if Nat.eqb j index
    then option_map (fun s => ProjectForm.set_field s field value) (nth_error l j)
    else nth_error l j.
Proof.
  intros l'. subst l'. unfold ProjectForm.updateStakeholder, js_map.
  split; [apply js_map_from_length|].
  rewrite js_map_from_nth. cbn [Nat.add].
  destruct (Nat.eqb j index); [reflexivity|].
  now destruct (nth_error l j).
Qed.

(** X20 — the list of stakeholders of the form is never empty: the form
    starts with one row, and the Remove button is not rendered on the first
    row, so no sequence of additions, edits and removals empties the
    list. *)
Theorem stakeholders_never_empty (l : list ProjectForm.Stakeholder) :
  ProjectForm.reachable l -> (1 <= List.length l)%nat.
Proof.
  induction 1 as [|l l' _ IH Hedit].
  - cbn. lia.
  - destruct Hedit as [l|l index field value Hi|l index H0 Hi].
    + unfold ProjectForm.addStakeholder. rewrite length_app. cbn. lia.
    + unfold ProjectForm.updateStakeholder, js_map.
      now rewrite js_map_from_length.
    + rewrite removeStakeholder_length.
      destruct (Nat.ltb_spec index (List.length l)); lia.
Qed.

Lemma stakeholders_never_empty_witness :
  (1 <= List.length
          (ProjectForm.removeStakeholder 1
             (ProjectForm.addStakeholder ProjectForm.initial_stakeholders)))%nat.
Proof.
  apply stakeholders_never_empty.
  eapply ProjectForm.reachable_edit.
  - eapply ProjectForm.reachable_edit.
    + apply ProjectForm.reachable_initial.
    + apply ProjectForm.edit_add.
  - apply ProjectForm.edit_remove; cbn; lia.
Defined.

(** * The statistics of the dashboard *)

(** X21 — the counters of the dashboard add up: every project is approved,
    pending, under review or rejected, so the approved and the pending
    projects together are the total less the projects under review and
    the rejected ones, and never more than the total. *)
Theorem dashboard_counts_add_up (projectsData : list Dashboard.Project) :
  let s := Dashboard.stats projectsData in
  let others :=
    List.length
      (filter (fun p =>
                 Dashboard.Status_eqb (Dashboard.status p) Dashboard.under_review
                 || Dashboard.Status_eqb (Dashboard.status p) Dashboard.rejected)%bool
              projectsData) in
  (Dashboard.approved_projects s + Dashboard.pending_projects s + others
   = Dashboard.total_projects s)%nat /\
  (Dashboard.approved_projects s + Dashboard.pending_projects s
   <= Dashboard.total_projects s)%nat.
Proof.
  intros s others. subst s others.
  cbn [Dashboard.stats Dashboard.approved_projects Dashboard.pending_projects
       Dashboard.total_projects].
  assert (H : (List.length
                 (filter (fun p =>
                    Dashboard.Status_eqb (Dashboard.status p) Dashboard.under_review
                    || Dashboard.Status_eqb (Dashboard.status p) Dashboard.rejected)%bool
                    projectsData)
               = List.length (filter (fun p => Dashboard.Status_eqb (Dashboard.status p)
                                                 Dashboard.under_review) projectsData)
                 + List.length (filter (fun p => Dashboard.Status_eqb (Dashboard.status p)
                                                   Dashboard.rejected) projectsData))%nat).
  { induction projectsData as [|p l IH]; [reflexivity|].
    cbn [filter]. destruct (Dashboard.status p);
      cbn [Dashboard.Status_eqb orb List.length]; lia. }
  assert (H' := filter_lengths projectsData). lia.
Qed.

(** X22 — the total CO2 of the dashboard counts approved projects only and
    takes a figure that is missing, NaN or zero as zero: when the figure
    of every approved project is missing, NaN or not negative, the total
    is a number that is not negative, whatever the other projects hold;
    and when the figure of every approved project is missing, the total
    is zero. *)
Theorem dashboard_total_not_negative (projectsData : list Dashboard.Project) :
  (forall p, In p projectsData -> Dashboard.status p = Dashboard.approved ->
             figure_not_negative p) ->
  let s := Dashboard.stats projectsData in
  (0 <=? Dashboard.total_co2_absorbed s) = true /\
  ((forall p, In p projectsData -> Dashboard.status p = Dashboard.approved ->
              Dashboard.cumulative_co2_absorption p = None) ->
   Dashboard.total_co2_absorbed s = 0).
Proof.
  intros Hall s. subst s. cbn [Dashboard.stats Dashboard.total_co2_absorbed].
  split.
  - apply fold_sum_nonneg; [reflexivity|].
    intros p Hp. apply filter_In in Hp. destruct Hp as [Hin Hst].
    apply Hall; [assumption|]. now destruct (Dashboard.status p).
  - intros Hnone. apply fold_sum_missing.
    intros p Hp. apply filter_In in Hp. destruct Hp as [Hin Hst].
    apply Hnone; [assumption|]. now destruct (Dashboard.status p).
Qed.

Lemma dashboard_total_not_negative_witness :
  let projectsData :=
    [ {| Dashboard.status := Dashboard.approved;
         Dashboard.cumulative_co2_absorption := Some 1421 |};
      {| Dashboard.status := Dashboard.approved;
         Dashboard.cumulative_co2_absorption := None |};
      {| Dashboard.status := Dashboard.approved;
         Dashboard.cumulative_co2_absorption := Some nan |};
      {| Dashboard.status := Dashboard.pending;
         Dashboard.cumulative_co2_absorption := Some (-5) |} ] in
  (0 <=? Dashboard.total_co2_absorbed (Dashboard.stats projectsData)) = true.
Proof.
  intros projectsData.
  apply (dashboard_total_not_negative projectsData).
  intros p [<-|[<-|[<-|[<-|[]]]]] Hst; cbn; auto; discriminate.
Defined.

(** * Policy mode, then forward mode *)

(** X23 — the area that policy mode returns meets the target up to the two
    roundings: for a target from 2 t to 10^9 t, a horizon from 1 to 1000
    years and buffers that sum to between 0 and 99, giving that area to
    forward mode, with the same ecosystem type, horizon and buffers,
    returns a cumulative absorption within
    [0.005 + rate * buffer_factor * horizon / 20000] t of the target, up
    to a relative floating-point error of [2^-45]: the area has been
    rounded to a whole m2, which is worth up to half the absorption of one
    m2 over the horizon, and the result to 2 decimals. *)
Theorem policy_area_meets_target (target : float) (e : EcosystemType)
    (years : float) (b : Buffers) :
  moderate_target target years b ->
  let yield := (F2R (SEQUESTRATION_FACTORS e) * F2R (buffer_factor b) * F2R years)%R in
  exists area,
    policy_area_needed (calculateRequiredArea (policy_input target e years b))
    = Some area /\
    let out :=
      cumulative_absorption
        (calculateCarbonSequestration (forward_input area e years b)) in
    ffinite out /\
    (Rabs (F2R out - F2R target)
     <= / 200 + yield / 20000 + pow2 (-45) * (F2R target + 1))%R.
Proof.
  intros H yield. subst yield.
  exists (Math.round (required_m2 target e years b)). split; [reflexivity|].
  exact (policy_then_forward_bound target e years b H).
Qed.

Lemma policy_area_meets_target_witness :
  let yield := (F2R (SEQUESTRATION_FACTORS seagrass)
                * F2R (buffer_factor DEFAULT_BUFFERS) * F2R 20)%R in
  exists area,
    policy_area_needed
      (calculateRequiredArea (policy_input 1000 seagrass 20 DEFAULT_BUFFERS))
    = Some area /\
    let out :=
      cumulative_absorption
        (calculateCarbonSequestration (forward_input area seagrass 20 DEFAULT_BUFFERS)) in
    ffinite out /\
    (Rabs (F2R out - F2R 1000)
     <= / 200 + yield / 20000 + pow2 (-45) * (F2R 1000 + 1))%R.
Proof.
  apply (policy_area_meets_target 1000 seagrass 20 DEFAULT_BUFFERS).
  repeat split.
Defined.

(** * The numbers drawn at random *)

(** X24 — the block number of the mock blockchain service is always a
    whole number from 5000000 to 5999999, whatever [Math.random]
    returns. *)
Theorem mock_block_number_range (random : float) :
  is_random random ->
  let block := MockBlockchainService.block_number random in
  (5000000 <=? block) = true /\ (block <=? 5999999) = true /\
  exists n : Z, F2R block = IZR n.
Proof.
  intros Hr block. subst block. unfold MockBlockchainService.block_number.
  destruct (floor_random_range random 1000000 999999 Hr) as [H0 Ht].
  { apply fpositive_1e6. }
  { vm_compute. reflexivity. }
  set (x := Math.floor (random * 1000000)) in *.
  assert (HFt : F2R 999999 = IZR 999999) by (F2R_literal 999999; lra).
  assert (HFc : F2R 5000000 = IZR 5000000) by (F2R_literal 5000000; lra).
  assert (Hft : ffinite 999999) by (vm_compute; reflexivity).
  assert (Hfc : ffinite 5000000) by (vm_compute; reflexivity).
  assert (Hfx : ffinite x).
  { apply (ffinite_between _ _ _ H0 Ht); [vm_compute; reflexivity | exact Hft]. }
  assert (Hb : (999999 + 5000000 < 2 ^ 53)%Z) by (cbn; lia).
  destruct (shifted_whole x 5000000 999999 5000000 999999 H0 Ht Hft HFt
              (ffloor_whole _ Hfx) Hfc HFc ltac:(lia) Hb ltac:(lia))
    as (Hf & n & Hn & Hv).
  split; [|split; [|now exists n]].
  - apply (fle_add_r 5000000) in H0; [exact H0 | exact Hfc].
  - apply (fle_add_r 5000000) in Ht; [exact Ht | exact Hfc].
Qed.

Lemma mock_block_number_range_witness :
  let block := MockBlockchainService.block_number 0.5 in
  (5000000 <=? block) = true /\ (block <=? 5999999) = true /\
  exists n : Z, F2R block = IZR n.
Proof.
  apply (mock_block_number_range 0.5). split; reflexivity.
Defined.


